(** * eventnative: schema synchronisation and transactional write path

    A shallow embedding of three Go source files of the repository,

    - [typing/datatype.go]       (module [typing]),
    - [storages/table_helper.go] (module [storages], [TableHelper] part),
    - [storages/postgres.go]     (module [storages], [Postgres] part),

    followed by the properties proved about them.  The constructor
    [NewPostgres] only wires collaborators together and is left out;
    [NewTableHelper] is the empty cache a table helper starts with.

    A [Table] is behind a pointer and its columns are a Go map: the model
    has a heap of [Table] objects, and a map of columns that may be nil.

    The collaborators whose code is in other files of the repository (the
    coordination service, the table manager, the adapter, the processor)
    are interfaces here, as they are in Go; module [memory] implements
    them in memory, to run the functions on concrete inputs. *)

From Stdlib Require Import ZArith Lia Ascii String.
From Stdlib Require Import Floats.SpecFloat.
From stdpp Require Import base option list strings gmap fin_maps.

Local Open Scope Z_scope.

(* ===================================================================== *)
(** * Go values common to all packages *)
(* ===================================================================== *)

Module golang.

(** Dynamic types without a constructor of their own in [value].
    [TStruct] stands for any struct type other than [time.Time],
    [TPointer] for any pointer type (a [*time.Time] included). *)
Inductive other_type : Type :=
| TComplex64 | TComplex128
| TPointer | TSlice | TArray | TMap | TStruct | TChan | TFunc.

(** A value of type [interface{}]: the dynamic type is the constructor.
    IEEE-754 numbers are [spec_float]s: sign, mantissa and exponent of a
    finite number, signed zeros, infinities and NaN.  A [float32] is a
    [spec_float] in binary32 canonical form, a [float64] one in binary64
    canonical form. *)
Inductive value : Type :=
| VString (s : string)
| VFloat32 (f : spec_float)
| VFloat64 (f : spec_float)
| VInt (n : Z)
| VInt8 (n : Z)
| VInt16 (n : Z)
| VInt32 (n : Z)
| VInt64 (n : Z)
| VUint (n : Z)
| VUint8 (n : Z)
| VUint16 (n : Z)
| VUint32 (n : Z)
| VUint64 (n : Z)
| VUintptr (n : Z)
| VBool (b : bool)
| VTime (unix_nano : Z)
| VNil
| VOther (t : other_type).

(** The dynamic type is one of [int], [int8], [int16], [int32], [int64]. *)
Definition is_signed_integer (v : value) : bool :=
  match v with
  | VInt _ | VInt8 _ | VInt16 _ | VInt32 _ | VInt64 _ => true
  | _ => false
  end.

(** The dynamic type is one of [uint], [uint8], [uint16], [uint32],
    [uint64], [uintptr]. *)
Definition is_unsigned_integer (v : value) : bool :=
  match v with
  | VUint _ | VUint8 _ | VUint16 _ | VUint32 _ | VUint64 _ | VUintptr _ => true
  | _ => false
  end.

(** The dynamic type is an integer type of the language. *)
Definition is_integer (v : value) : bool :=
  is_signed_integer v || is_unsigned_integer v.

Definition is_float (v : value) : bool :=
  match v with
  | VFloat32 _ | VFloat64 _ => true
  | _ => false
  end.

Definition is_string (v : value) : bool :=
  match v with VString _ => true | _ => false end.

Definition is_time (v : value) : bool :=
  match v with VTime _ => true | _ => false end.

(** An [error] built by [fmt.Errorf]: the format string and its operands,
    kept unformatted. *)
Inductive error : Type :=
| Errorf (format : string) (args : list fmt_arg)
with fmt_arg : Type :=
| ArgString (s : string)
| ArgInt (n : Z)
| ArgValue (v : value)
| ArgObject (o : gmap string value)
| ArgError (e : error).

(** [Some e] is a non-nil error, [None] is [nil]. *)
Abbreviation nil_error := (@None error).

(** What a call of an external collaborator returning [(T, error)] gives:
    the callers below read the value only when the error is [nil]. *)
Inductive result (A : Type) : Type :=
| Ok (a : A)
| Failed (err : error).
Arguments Ok {A} a.
Arguments Failed {A} err.

(** ** [math] and conversions on binary64 *)

Definition prec64 : Z := 53.
Definition emax64 : Z := 1024.

(** [math.Trunc]: the integer part of [x], the sign kept.  As in the Go
    runtime the fractional mantissa bits are cleared in place, so the
    result of a canonical input is canonical.
    [Trunc(±0) = ±0], [Trunc(±Inf) = ±Inf], [Trunc(NaN) = NaN]. *)
Definition Trunc (x : spec_float) : spec_float :=
  match x with
  | S754_finite s m e =>
      if 0 <=? e then x
      else match Z.shiftl (Z.shiftr (Zpos m) (- e)) (- e) with
           | Zpos m' => S754_finite s m' e
           | _ => S754_zero s
           end
  | _ => x
  end.

(** [==] on floating-point operands: IEEE equality ([NaN] differs from
    everything, [-0 == +0]). *)
Definition float_eq (x y : spec_float) : bool := SFeqb x y.

(** [float64(f)] for [f] a [float32]: exact, renormalised to binary64. *)
Definition float64_of_float32 (f : spec_float) : spec_float :=
  match f with
  | S754_finite s m e => binary_round prec64 emax64 s m e
  | _ => f
  end.

End golang.

(* ===================================================================== *)
(** * Package [typing] *)
(* ===================================================================== *)

Module typing.
Import golang.

(** [type DataType int] *)
Definition DataType : Type := Z.

(** The [iota] block. *)
Definition UNKNOWN : DataType := 0.
Definition INT64 : DataType := 1.
Definition FLOAT64 : DataType := 2.
Definition STRING : DataType := 3.
Definition TIMESTAMP : DataType := 4.

Definition inputStringToType : gmap string DataType :=
  <["string" := STRING]>
  (<["integer" := INT64]>
  (<["double" := FLOAT64]>
  (<["timestamp" := TIMESTAMP]> ∅))).

Definition typeToInputString : gmap Z string :=
  <[STRING := "string"]>
  (<[INT64 := "integer"]>
  (<[FLOAT64 := "double"]>
  (<[TIMESTAMP := "timestamp"]> ∅))).

(** [func (dt DataType) String() string] *)
Definition String (dt : DataType) : string :=
  if dt =? STRING then "STRING"
  else if dt =? INT64 then "INT64"
  else if dt =? FLOAT64 then "FLOAT64"
  else if dt =? TIMESTAMP then "TIMESTAMP"
  else if dt =? UNKNOWN then "UNKNOWN"
  else "".

(** [strings.TrimSpace] and [strings.ToLower] belong to the Go standard
    library and work on Unicode code points; the functions below take
    them as parameters, so that what is proved holds for the library's
    own. *)
Class GoStrings : Type := {
  TrimSpace : string -> string;
  ToLower : string -> string
}.

Section with_strings.
Context `{GoStrings}.

Definition TypeFromString (t : string) : DataType * option error :=
  let trimmed := TrimSpace t in
  let lowerTrimmed := ToLower trimmed in
  match inputStringToType !! lowerTrimmed with
  | None => (UNKNOWN, Some (Errorf "Unknown casting type: %s" [ArgString t]))
  | Some dataType => (dataType, nil_error)
  end.
End with_strings.

Definition StringFromType (dataType : DataType) : string * option error :=
  match typeToInputString !! dataType with
  | None =>
      ("", Some (Errorf "Unable to get string from DataType for: %s"
                   [ArgString (String dataType)]))
  | Some str => (str, nil_error)
  end.

(** [TypeFromValue]: a type switch on the dynamic type of [v]. *)
Definition TypeFromValue (v : value) : DataType * option error :=
  match v with
  | VString _ => (STRING, nil_error)
  | VFloat32 f =>
      let floatV := float64_of_float32 f in
      if float_eq (Trunc floatV) floatV then (INT64, nil_error)
      else (FLOAT64, nil_error)
  | VFloat64 f =>
      let floatV := f in
      if float_eq (Trunc floatV) floatV then (INT64, nil_error)
      else (FLOAT64, nil_error)
  | VInt _ | VInt8 _ | VInt16 _ | VInt32 _ | VInt64 _ => (INT64, nil_error)
  | VTime _ => (TIMESTAMP, nil_error)
  | _ =>
      (UNKNOWN,
       Some (Errorf "Unknown DataType for value: %v type: %t"
               [ArgValue v; ArgValue v]))
  end.

(** The two library functions on strings of ASCII bytes, where Go's
    Unicode-aware versions reduce to these. *)
Definition ascii_is_space (c : Ascii.ascii) : bool :=
  let n := Ascii.nat_of_ascii c in
  ((9 <=? n) && (n <=? 13))%nat || (n =? 32)%nat.

Fixpoint trim_left (s : string) : string :=
  match s with
  | String.String c s' => if ascii_is_space c then trim_left s' else s
  | EmptyString => EmptyString
  end.

Fixpoint trim_right (s : string) : string :=
  match s with
  | String.String c s' =>
      match trim_right s' with
      | EmptyString => if ascii_is_space c then EmptyString
                       else String.String c EmptyString
      | r => String.String c r
      end
  | EmptyString => EmptyString
  end.

Definition ascii_lower (c : Ascii.ascii) : Ascii.ascii :=
  let n := Ascii.nat_of_ascii c in
  if ((65 <=? n) && (n <=? 90))%nat then Ascii.ascii_of_nat (n + 32) else c.

Fixpoint map_string (f : Ascii.ascii -> Ascii.ascii) (s : string) : string :=
  match s with
  | String.String c s' => String.String (f c) (map_string f s')
  | EmptyString => EmptyString
  end.

Definition ascii_strings : GoStrings :=
  {| TrimSpace s := trim_right (trim_left s);
     ToLower s := map_string ascii_lower s |}.

End typing.

(* ===================================================================== *)
(** * Package [schema]: the declarations the storages rely on *)
(* ===================================================================== *)

Module schema.
Import golang.

(** Modelled from the spec: the [Column] struct is declared in
    [schema/], outside the three files; the spec gives it as a name paired
    with a logical type. *)
Record Column : Type := mkColumn {
  ColumnName : string;
  ColumnType : typing.DataType
}.

(** Modelled from the spec: the [Table] struct, with the three fields the
    storages read and write ([Name], [Columns], [Version]).  [Columns] has
    a Go map type: [ColumnsMap] is [None] for the nil map and [Some m]
    for an allocated map with the entries [m]. *)
Record Table : Type := Build_Table {
  Name : string;
  ColumnsMap : option (gmap string Column);
  Version : Z
}.

(** [t.Columns] where it is read ([range], an index expression on the
    right): the nil map reads as an empty map. *)
Definition Columns (t : Table) : gmap string Column :=
  default ∅ (ColumnsMap t).

(** [&Table{Name: n, Columns: c, Version: v}] with an allocated map. *)
Definition mkTable (n : string) (c : gmap string Column) (v : Z) : Table :=
  {| Name := n; ColumnsMap := Some c; Version := v |}.

(** [t.Version = v] *)
Definition with_Version (t : Table) (v : Z) : Table :=
  {| Name := Name t; ColumnsMap := ColumnsMap t; Version := v |}.

(** [t] with the allocated map of [t.Columns] holding the entries [c]. *)
Definition with_Columns (t : Table) (c : gmap string Column) : Table :=
  {| Name := Name t; ColumnsMap := Some c; Version := Version t |}.

(** A decoded event: [map[string]interface{}]. *)
Definition Fact : Type := gmap string value.

(** Addresses of the [Table] objects ([*schema.Table]). *)
Definition loc : Type := positive.

(** Modelled from the spec: a row group produced by the processor, its
    desired schema (a pointer) and its rows; [GetPayloadLen] counts the
    rows. *)
Record ProcessedFile : Type := mkProcessedFile {
  FileName : string;
  DataSchema : loc;
  payload : list Fact
}.

(** Modelled from the spec: the rows of a group. *)
Definition GetPayload (pf : ProcessedFile) : list Fact := payload pf.

(** Modelled from the spec: the row count of a group. *)
Definition GetPayloadLen (pf : ProcessedFile) : Z := Z.of_nat (length (payload pf)).

Definition with_payload (pf : ProcessedFile) (rows : list Fact) : ProcessedFile :=
  {| FileName := FileName pf; DataSchema := DataSchema pf; payload := rows |}.

(** The methods of [Table] used by the table helper.  Their bodies are
    outside the three files, so they are taken as parameters: [Exists]
    tells a real schema from an absent one (and a needed migration from
    an empty diff), [Diff] is pure and may fail. *)
Class TableOps : Type := {
  Exists : Table -> bool;
  Diff : Table -> Table -> result Table
}.

End schema.

(* ===================================================================== *)
(** * Package [storages] *)
(* ===================================================================== *)

Module storages.
Import golang schema.

Definition unlockRetryCount : Z := 5.

(** Opaque handles handed out by the collaborators. *)
Definition Lock : Type := Z.
Definition Closer : Type := Z.
Definition Tx : Type := Z.
Definition StreamingWorker : Type := Z.

(** ** The collaborators

    Each interface is a class of operations on the state [W] of the
    outside world (the coordination service, the database, the
    processor): an operation takes the world and returns its answer with
    the world after the call. *)

(** [MonitorKeeper]: locks and version counters. *)
Class MonitorKeeper (W : Type) : Type := {
  keeper_Lock : string -> string -> W -> result (Lock * Closer) * W;
  keeper_Unlock : Lock -> Closer -> W -> option error * W;
  keeper_GetVersion : string -> string -> W -> result Z * W;
  keeper_IncrementVersion : string -> string -> W -> result Z * W
}.

(** [adapters.TableManager]: the DDL of one destination.
    [GetTableSchema], when it gives no error, answers with a newly
    allocated table, never with a nil pointer; the map of columns of that
    table may be nil. *)
Class TableManager (W : Type) : Type := {
  GetTableSchema : string -> W -> result Table * W;
  CreateTable : Table -> W -> option error * W;
  PatchTableSchema : Table -> W -> option error * W
}.

(** [*adapters.Postgres] beyond its [TableManager] part, and the
    transaction it opens. *)
Class PostgresAdapter (W : Type) : Type := {
  OpenTx : W -> result Tx * W;
  InsertInTransaction : Tx -> Table -> Fact -> W -> option error * W;
  adapter_Insert : Table -> Fact -> W -> option error * W;
  adapter_Close : W -> option error * W;
  Rollback : Tx -> W -> option error * W;
  DirectCommit : Tx -> W -> option error * W
}.

(** [*schema.Processor].  The row groups of a payload come as a list, in
    the order in which [range] visits them.  The two typing operations
    rewrite row values in place: they answer with the rows as they are
    after the call. *)
Class Processor (W : Type) : Type := {
  ProcessFilePayload :
    string -> list Byte.byte -> bool -> W -> result (list ProcessedFile) * W;
  ApplyDBTyping : Table -> ProcessedFile -> W -> (list Fact * option error) * W;
  ApplyDBTypingToObject : Table -> Fact -> W -> (Fact * option error) * W
}.

(** What else of package [storages] lives outside the two files. *)
Class Package (W : Type) : Type := {
  PostgresType : string;
  linesCount : list Byte.byte -> Z;
  worker_Close : StreamingWorker -> W -> option error * W
}.

(** ** Observable calls

    Every call of a collaborator is recorded with its arguments and its
    answer; a [*schema.Table] argument is recorded by its address. *)
Inductive Event : Type :=
| ELock (destinationName tableName : string) (r : result (Lock * Closer))
| EUnlock (lock : Lock) (closer : Closer) (r : option error)
| EGetVersion (destinationName tableName : string) (r : result Z)
| EIncrementVersion (destinationName tableName : string) (r : result Z)
| EGetTableSchema (tableName : string) (r : result Table)
| ECreateTable (dataSchema : loc) (r : option error)
| EPatchTableSchema (schemaDiff : Table) (r : option error)
| ELogErrorf (format : string) (args : list fmt_arg)
| ELogWarnf (format : string) (args : list fmt_arg)
| EProcessFilePayload (fileName : string) (payload : list Byte.byte)
    (breakOnError : bool) (r : result (list ProcessedFile))
| EApplyDBTyping (dbSchema : loc) (fdata : ProcessedFile) (r : option error)
| EApplyDBTypingToObject (dbSchema : loc) (fact : Fact) (r : option error)
| EOpenTx (r : result Tx)
| EInsertInTransaction (tx : Tx) (dataSchema : loc) (object : Fact)
    (r : option error)
| ERollback (tx : Tx) (r : option error)
| EDirectCommit (tx : Tx) (r : option error)
| EInsert (dataSchema : loc) (fact : Fact) (r : option error)
| EAdapterClose (r : option error)
| EWorkerClose (w : StreamingWorker) (r : option error).

(** ** Program state

    [heap] holds the [Table] objects behind the pointers, [tables] is the
    cache [th.tables] (table name to pointer), [world] the collaborators'
    state, [trace] the calls made so far, oldest first. *)
Record State (W : Type) : Type := mkState {
  heap : gmap loc Table;
  tables : gmap string loc;
  world : W;
  trace : list Event
}.
Arguments mkState {W} _ _ _ _.
Arguments heap {W} _.
Arguments tables {W} _.
Arguments world {W} _.
Arguments trace {W} _.

(** A run ends with a value and a state, panics (a nil pointer is
    dereferenced, an entry of a nil map is assigned), or exhausts the
    recursion budget of [unlock]. *)
Inductive outcome (W A : Type) : Type :=
| Done (a : A) (st : State W)
| Panic
| OutOfFuel.
Arguments Done {W A} a st.
Arguments Panic {W A}.
Arguments OutOfFuel {W A}.

Definition M (W A : Type) : Type := State W -> outcome W A.

#[global] Instance M_ret {W} : MRet (M W) := fun A a st => Done a st.
#[global] Instance M_bind {W} : MBind (M W) := fun A B f m st =>
  match m st with
  | Done a st' => f a st'
  | Panic => Panic
  | OutOfFuel => OutOfFuel
  end.

Section effects.
Context {W : Type}.

(** Calls [op] on the world and records [ev] of its answer. *)
Definition perform {A} (op : W -> A * W) (ev : A -> Event) : M W A :=
  fun st =>
    let '(a, w) := op (world st) in
    Done a (mkState (heap st) (tables st) w (trace st ++ [ev a])).

Definition log (ev : Event) : M W unit :=
  fun st => Done tt (mkState (heap st) (tables st) (world st) (trace st ++ [ev])).

(** [*p] *)
Definition load (p : loc) : M W Table :=
  fun st => match heap st !! p with
            | Some t => Done t st
            | None => Panic
            end.

(** [*p = t] for an allocated [p] *)
Definition store (p : loc) (t : Table) : M W unit :=
  fun st => match heap st !! p with
            | Some _ => Done tt (mkState (<[p := t]> (heap st)) (tables st)
                                   (world st) (trace st))
            | None => Panic
            end.

(** The address of a new object holding [t]. *)
Definition alloc (t : Table) : M W loc :=
  fun st => let p := fresh (dom (heap st)) in
            Done p (mkState (<[p := t]> (heap st)) (tables st)
                      (world st) (trace st)).

(** [th.tables[name]] *)
Definition cached (name : string) : M W (option loc) :=
  fun st => Done (tables st !! name) st.

(** [th.tables[name] = p] *)
Definition cache (name : string) (p : loc) : M W unit :=
  fun st => Done tt (mkState (heap st) (<[name := p]> (tables st))
                       (world st) (trace st)).

Definition out_of_fuel {A} : M W A := fun _ => OutOfFuel.

(** [defer d] ahead of [body]: [d] runs once the result of [body] is
    fixed, and cannot change it. *)
Definition defer {A} (d : M W unit) (body : M W A) : M W A :=
  r ← body; d;; mret r.
End effects.


(** ** [table_helper.go] *)

(** The [storageType] field of [TableHelper].  Its [manager] and
    [monitorKeeper] fields are the instances of the two classes, its
    [tables] field is the [tables] component of the state. *)
Record TableHelper : Type := mkTableHelper {
  storageType : string
}.

Section table_helper.
Context {W : Type} `{!MonitorKeeper W} `{!TableManager W} `{!TableOps}.

(** [NewTableHelper]: the helper starts with an empty [tables] map. *)
Definition NewTableHelper (storageType : string) : M W TableHelper :=
  fun st => Done (mkTableHelper storageType)
              (mkState (heap st) ∅ (world st) (trace st)).

(** [unlock] calls itself with [retry+1]; [fuel] bounds the depth of
    that recursion. *)
Fixpoint unlock (fuel : nat) (th : TableHelper) (lock : Lock) (closer : Closer)
    (tableName : string) (retry : Z) : M W unit :=
  match fuel with
  | O => out_of_fuel
  | S fuel' =>
      err ← perform (keeper_Unlock lock closer) (EUnlock lock closer);
      match err with
      | Some e =>
          if retry =? unlockRetryCount then
            log (ELogErrorf
                   "System error unlocking table %s in %s after %d tries: %v"
                   [ArgString tableName; ArgString (storageType th);
                    ArgInt retry; ArgError e])
          else unlock fuel' th lock closer tableName (retry + 1)
      | None => mret tt
      end
  end.

(** The depth that [unlock] needs when it is entered with [retry = 1]. *)
Definition unlock_depth : nat := Z.to_nat unlockRetryCount.

(** [getOrCreate], lines 119-147: what runs while the lock is held. *)
Definition getOrCreate_locked (th : TableHelper) (destinationName : string)
    (dataSchema : loc) (ds : Table) : M W (option loc * option error) :=
  (* Get schema *)
  r ← perform (GetTableSchema (Name ds)) (EGetTableSchema (Name ds));
  match r with
  | Failed err =>
      mret (None, Some (Errorf "Error getting table %s schema from %s: %v"
              [ArgString (Name ds); ArgString (storageType th); ArgError err]))
  | Ok fetched =>
    dbTableSchema ← alloc fetched;
    (* create new or get version *)
    if negb (Exists fetched) then
      e ← perform (CreateTable ds) (ECreateTable dataSchema);
      match e with
      | Some err =>
          mret (None, Some (Errorf "Error creating table %s in %s: %v"
                  [ArgString (Name ds); ArgString (storageType th);
                   ArgError err]))
      | None =>
        r ← perform (keeper_IncrementVersion destinationName (Name ds))
              (EIncrementVersion destinationName (Name ds));
        match r with
        | Failed err =>
            mret (None, Some (Errorf
                    "Error incrementing version of table %s in %s: %v"
                    [ArgString (Name ds); ArgString (storageType th);
                     ArgError err]))
        | Ok ver =>
            (* dbTableSchema = dataSchema; dbTableSchema.Version = ver *)
            store dataSchema (with_Version ds ver);;
            mret (Some dataSchema, nil_error)
        end
      end
    else
      r ← perform (keeper_GetVersion destinationName (Name fetched))
            (EGetVersion destinationName (Name fetched));
      match r with
      | Failed err =>
          mret (None, Some (Errorf "Error getting version of table %s in %s: %v"
                  [ArgString (Name ds); ArgString (storageType th);
                   ArgError err]))
      | Ok ver =>
          store dbTableSchema (with_Version fetched ver);;
          mret (Some dbTableSchema, nil_error)
      end
  end.

(** lock table -> get existing schema -> create a new one if doesn't
    exist -> return schema with version *)
Definition getOrCreate (th : TableHelper) (destinationName : string)
    (dataSchema : loc) : M W (option loc * option error) :=
  ds ← load dataSchema;
  r ← perform (keeper_Lock destinationName (Name ds))
        (ELock destinationName (Name ds));
  match r with
  | Failed err =>
      mret (None, Some (Errorf "System error locking table %s in %s: %v"
              [ArgString (Name ds); ArgString (storageType th); ArgError err]))
  | Ok (lock, closer) =>
      defer (unlock unlock_depth th lock closer (Name ds) 1)
        (getOrCreate_locked th destinationName dataSchema ds)
  end.

(** [for k, v := range schemaDiff.Columns { dbTableSchema.Columns[k] = v }] *)
Definition merge_columns (diff cols : gmap string Column) : gmap string Column :=
  map_fold (fun k v acc => <[k := v]> acc) cols diff.

(** [for k, v := range diff { t.Columns[k] = v }], lines 103-105: [t]
    after the loop, or [None] where the first assignment panics, the map
    of [t.Columns] being nil and [diff] not empty. *)
Definition assign_columns (diff : gmap string Column) (t : Table) : option Table :=
  match ColumnsMap t with
  | Some cols => Some (with_Columns t (merge_columns diff cols))
  | None => if decide (diff = ∅) then Some t else None
  end.

(** [EnsureTable], lines 87-108: what follows the optimistic re-check,
    inside the lock. *)
Definition EnsureTable_patch (th : TableHelper) (destinationName : string)
    (dbTableSchema : loc) (schemaDiff : Table) : M W (option loc * option error) :=
  (* check if newSchemaDiff doesn't exist - do nothing *)
  if negb (Exists schemaDiff) then mret (Some dbTableSchema, nil_error)
  else
    (* patch and increment table version *)
    e ← perform (PatchTableSchema schemaDiff) (EPatchTableSchema schemaDiff);
    match e with
    | Some err => mret (None, Some err)
    | None =>
      db ← load dbTableSchema;
      r ← perform (keeper_IncrementVersion destinationName (Name db))
            (EIncrementVersion destinationName (Name db));
      match r with
      | Failed err =>
          mret (None, Some (Errorf "Error incrementing version in storage [%s]: %v"
                  [ArgString (storageType th); ArgError err]))
      | Ok newVersion =>
          (* Save *)
          match assign_columns (Columns schemaDiff) db with
          | None => fun _ => Panic
          | Some db' =>
              store dbTableSchema (with_Version db' newVersion);;
              mret (Some dbTableSchema, nil_error)
          end
      end
    end.

(** [EnsureTable], lines 67-85, then lines 87-108: what runs while the
    lock is held.  [db] and [ds] are the objects behind [dbTableSchema]
    and [dataSchema], [schemaDiff] the diff computed before the lock. *)
Definition EnsureTable_locked (th : TableHelper) (destinationName : string)
    (dbTableSchema : loc) (db ds schemaDiff : Table)
    : M W (option loc * option error) :=
  r ← perform (keeper_GetVersion destinationName (Name db))
        (EGetVersion destinationName (Name db));
  match r with
  | Failed err =>
      mret (None, Some (Errorf "Error getting version of table %s in %s: %v"
              [ArgString (Name ds); ArgString (storageType th);
               ArgError err]))
  | Ok ver =>
    (* get schema and calculate diff one more time if version was
       changed (this statement handles optimistic locking) *)
    if negb (ver =? Version db) then
      r ← perform (GetTableSchema (Name ds)) (EGetTableSchema (Name ds));
      match r with
      | Failed err =>
          mret (None, Some (Errorf "Error getting table %s schema from %s: %v"
                  [ArgString (Name ds); ArgString (storageType th);
                   ArgError err]))
      | Ok fetched =>
        dbTableSchema' ← alloc (with_Version fetched ver);
        match Diff (with_Version fetched ver) ds with
        | Failed err => mret (None, Some err)
        | Ok schemaDiff' =>
            EnsureTable_patch th destinationName dbTableSchema' schemaDiff'
        end
      end
    else EnsureTable_patch th destinationName dbTableSchema schemaDiff
  end.

(** [EnsureTable], lines 50-65: the diff against [dbTableSchema] and,
    when there is one, the lock. *)
Definition EnsureTable_sync (th : TableHelper) (destinationName : string)
    (dataSchema dbTableSchema : loc) : M W (option loc * option error) :=
  db ← load dbTableSchema;
  ds ← load dataSchema;
  match Diff db ds with
  | Failed err => mret (None, Some err)
  | Ok schemaDiff =>
    (* if diff doesn't exist - do nothing *)
    if negb (Exists schemaDiff) then mret (Some dbTableSchema, nil_error)
    else
      (* patch schema *)
      r ← perform (keeper_Lock destinationName (Name db))
            (ELock destinationName (Name db));
      match r with
      | Failed err =>
          mret (None, Some (Errorf "System error locking table %s in %s: %v"
                  [ArgString (Name ds); ArgString (storageType th); ArgError err]))
      | Ok (lock, closer) =>
          defer (unlock unlock_depth th lock closer (Name ds) 1)
            (EnsureTable_locked th destinationName dbTableSchema db ds schemaDiff)
      end
  end.

(** EnsureTable return DB table schema and err if occurred.
    Lines 37-48, then the rest of the body. *)
Definition EnsureTable (th : TableHelper) (destinationName : string)
    (dataSchema : loc) : M W (option loc * option error) :=
  ds ← load dataSchema;
  c ← cached (Name ds);
  match c with
  | Some dbTableSchema => EnsureTable_sync th destinationName dataSchema dbTableSchema
  | None =>
    (* get or create *)
    r ← getOrCreate th destinationName dataSchema;
    match r with
    | (_, Some err) => mret (None, Some err)
    | (None, None) => fun _ => Panic
    | (Some dbTableSchema, None) =>
        (* save *)
        db ← load dbTableSchema;
        cache (Name db) dbTableSchema;;
        EnsureTable_sync th destinationName dataSchema dbTableSchema
    end
  end.
End table_helper.


(** ** [postgres.go] *)

(** The [Postgres] struct: [adapter] and [schemaProcessor] are the class
    instances; [streamingWorker] is [None] for a nil pointer. *)
Record Postgres : Type := mkPostgres {
  name : string;
  tableHelper : TableHelper;
  streamingWorker : option StreamingWorker;
  breakOnError : bool
}.

(** [func (p *Postgres) Name() string] *)
Definition Postgres_Name (p : Postgres) : string := name p.

Section postgres.
Context {W : Type} `{!MonitorKeeper W} `{!TableManager W} `{!TableOps}
        `{!PostgresAdapter W} `{!Processor W} `{!Package W}.

(** [func (p *Postgres) Type() string] *)
Definition Postgres_Type (p : Postgres) : string := PostgresType.

(** [Store], lines 72-81: process db tables & schema.  The groups come
    back with their rows as the typing step left them. *)
Fixpoint Store_tables (p : Postgres) (flatData : list ProcessedFile)
    : M W (list ProcessedFile * option error) :=
  match flatData with
  | [] => mret ([], nil_error)
  | fdata :: rest =>
      r ← EnsureTable (tableHelper p) (Postgres_Name p) (DataSchema fdata);
      match r with
      | (_, Some err) => mret ([], Some err)
      | (None, None) => fun _ => Panic
      | (Some dbSchema, None) =>
          db ← load dbSchema;
          r ← perform (ApplyDBTyping db fdata)
                (fun r => EApplyDBTyping dbSchema fdata (snd r));
          match r with
          | (_, Some err) => mret ([], Some err)
          | (rows, None) =>
              r ← Store_tables p rest;
              mret (with_payload fdata rows :: fst r, snd r)
          end
      end
  end.

(** [Store], lines 90-99: the rows of one group.  [Some err] is the
    [return rowsCount, err] of line 94. *)
Fixpoint Store_objects (p : Postgres) (tx : Tx) (dataSchema : loc)
    (objects : list Fact) : M W (option error) :=
  match objects with
  | [] => mret nil_error
  | object :: rest =>
      ds ← load dataSchema;
      e ← perform (InsertInTransaction tx ds object)
            (EInsertInTransaction tx dataSchema object);
      match e with
      | Some err =>
          if breakOnError p then
            perform (Rollback tx) (ERollback tx);;
            mret (Some err)
          else
            log (ELogWarnf
                   "[%s] Unable to insert object %v reason: %v. This line will be skipped"
                   [ArgString (Postgres_Name p); ArgObject object; ArgError err]);;
            Store_objects p tx dataSchema rest
      | None => Store_objects p tx dataSchema rest
      end
  end.

(** [Store], lines 89-100: insert all data in one transaction. *)
Fixpoint Store_rows (p : Postgres) (tx : Tx) (flatData : list ProcessedFile)
    : M W (option error) :=
  match flatData with
  | [] => mret nil_error
  | fdata :: rest =>
      e ← Store_objects p tx (DataSchema fdata) (GetPayload fdata);
      match e with
      | Some err => mret (Some err)
      | None => Store_rows p tx rest
      end
  end.

(** [rowsCount], lines 66-69. *)
Definition rowsCount_of (flatData : list ProcessedFile) : Z :=
  fold_left (fun rowsCount fdata => rowsCount + GetPayloadLen fdata) flatData 0.

(** Store file payload to Postgres with processing;
    return rows count and err if can't store,
    or rows count and nil if stored. *)
Definition Store (p : Postgres) (fileName : string) (payload : list Byte.byte)
    : M W (Z * option error) :=
  r ← perform (ProcessFilePayload fileName payload (breakOnError p))
        (EProcessFilePayload fileName payload (breakOnError p));
  match r with
  | Failed err => mret (linesCount payload, Some err)
  | Ok flatData =>
      let rowsCount := rowsCount_of flatData in
      r ← Store_tables p flatData;
      match r with
      | (_, Some err) => mret (rowsCount, Some err)
      | (flatData', None) =>
          r ← perform OpenTx EOpenTx;
          match r with
          | Failed err =>
              mret (rowsCount,
                    Some (Errorf "Error opening postgres transaction: %v"
                            [ArgError err]))
          | Ok tx =>
              e ← Store_rows p tx flatData';
              match e with
              | Some err => mret (rowsCount, Some err)
              | None =>
                  e ← perform (DirectCommit tx) (EDirectCommit tx);
                  mret (rowsCount, e)
              end
          end
      end
  end.

(** Insert fact in Postgres *)
Definition Insert (p : Postgres) (dataSchema : loc) (fact : Fact)
    : M W (option error) :=
  r ← EnsureTable (tableHelper p) (Postgres_Name p) dataSchema;
  match r with
  | (_, Some err) => mret (Some err)
  | (None, None) => fun _ => Panic
  | (Some dbSchema, None) =>
      db ← load dbSchema;
      r ← perform (ApplyDBTypingToObject db fact)
            (fun r => EApplyDBTypingToObject dbSchema fact (snd r));
      match r with
      | (_, Some err) => mret (Some err)
      | (fact', None) =>
          ds ← load dataSchema;
          perform (adapter_Insert ds fact') (EInsert dataSchema fact')
      end
  end.

(** Close adapters.Postgres *)
Definition Close (p : Postgres) : M W (option error) :=
  e ← perform adapter_Close EAdapterClose;
  match e with
  | Some err =>
      mret (Some (Errorf "[%s] Error closing postgres datasource: %v"
                    [ArgString (Postgres_Name p); ArgError err]))
  | None =>
      match streamingWorker p with
      | Some w => perform (worker_Close w) (EWorkerClose w);; mret nil_error
      | None => mret nil_error
      end
  end.
End postgres.

End storages.

(* ===================================================================== *)
(** * An in-memory destination

    Executable collaborators, on which the functions above run: a
    coordination service with one version counter per table, a database of
    tables, a processor that hands out prepared row groups.  Switches make
    single operations fail. *)
(* ===================================================================== *)

Module memory.
Import golang schema storages.

Record World : Type := mkWorld {
  versions : gmap string Z;
  database : gmap string Table;
  groups : list ProcessedFile;
  unlock_fails : bool;
  close_fails : bool
}.

Definition failure (what : string) : error := Errorf what [].

Definition version_of (w : World) (tableName : string) : Z :=
  default 0 (versions w !! tableName).

#[global] Instance keeper : MonitorKeeper World := {|
  keeper_Lock _ _ w := (Ok (1, 1), w);
  keeper_Unlock _ _ w :=
    (if unlock_fails w then Some (failure "unlock") else None, w);
  keeper_GetVersion _ tableName w := (Ok (version_of w tableName), w);
  keeper_IncrementVersion _ tableName w :=
    let v := version_of w tableName + 1 in
    (Ok v, mkWorld (<[tableName := v]> (versions w)) (database w) (groups w)
             (unlock_fails w) (close_fails w))
|}.

(** [GetTableSchema] builds the table it answers with, map of columns
    included. *)
#[global] Instance manager : TableManager World := {|
  GetTableSchema tableName w :=
    let t := default (mkTable tableName ∅ 0) (database w !! tableName) in
    (Ok (mkTable (Name t) (Columns t) (Version t)), w);
  CreateTable t w :=
    (None, mkWorld (versions w) (<[Name t := t]> (database w)) (groups w)
             (unlock_fails w) (close_fails w));
  PatchTableSchema diff w :=
    let old := default (mkTable (Name diff) ∅ 0) (database w !! Name diff) in
    (None, mkWorld (versions w)
             (<[Name diff := with_Columns old (Columns diff ∪ Columns old)]>
                (database w))
             (groups w) (unlock_fails w) (close_fails w))
|}.

(** Modelled from the spec: the diff holds the columns of the desired
    schema that the current one lacks, and exists when it holds one. *)
#[global] Instance table_ops : TableOps := {|
  Exists t := negb (bool_decide (map_to_list (Columns t) = []));
  Diff t another := Ok (mkTable (Name t) (Columns another ∖ Columns t) 0)
|}.

(** A row with a field ["bad"] is refused by the database. *)
Definition refused (row : Fact) : option error :=
  match row !! "bad" with
  | Some _ => Some (failure "insert")
  | None => None
  end.

#[global] Instance adapter : PostgresAdapter World := {|
  OpenTx w := (Ok 7, w);
  InsertInTransaction _ _ row w := (refused row, w);
  adapter_Insert _ row w := (refused row, w);
  adapter_Close w := (if close_fails w then Some (failure "close") else None, w);
  Rollback _ w := (None, w);
  DirectCommit _ w := (None, w)
|}.

#[global] Instance processor : Processor World := {|
  ProcessFilePayload _ _ _ w := (Ok (groups w), w);
  ApplyDBTyping _ fdata w := ((GetPayload fdata, None), w);
  ApplyDBTypingToObject _ fact w := ((fact, None), w)
|}.

#[global] Instance package : Package World := {|
  PostgresType := "postgres";
  linesCount payload := Z.of_nat (length payload);
  worker_Close _ w := (None, w)
|}.

Definition column (n : string) (t : typing.DataType) : string * Column :=
  (n, mkColumn n t).

Definition table (n : string) (cols : list (string * Column)) (v : Z) : Table :=
  mkTable n (list_to_map cols) v.

Definition helper : TableHelper := mkTableHelper "postgres".

(** ** Scenarios *)

Definition col_a := column "a" typing.STRING.
Definition col_b := column "b" typing.INT64.
Definition col_c := column "c" typing.FLOAT64.

(** The desired schema of the writes, behind the pointer [1]. *)
Definition desired : Table := table "events" [col_a; col_b] 0.

Definition quiet (vs : gmap string Z) (db : gmap string Table) : World :=
  mkWorld vs db [] false false.

(** The process has cached ["events"] at version 1 with column [a]
    (pointer [2]); meanwhile another process has brought the table to
    the columns [cols] and the counter to 2. *)
Definition st_behind (cols : list (string * Column)) : State World :=
  mkState (<[1%positive := desired]> (<[2%positive := table "events" [col_a] 1]> ∅))
          (<["events" := 2%positive]> ∅)
          (quiet (<["events" := 2]> ∅) (<["events" := table "events" cols 0]> ∅))
          [].


(** The cache is up to date, but a column is missing. *)
Definition st_narrow : State World :=
  mkState (<[1%positive := desired]> (<[2%positive := table "events" [col_a] 1]> ∅))
          (<["events" := 2%positive]> ∅)
          (quiet (<["events" := 1]> ∅) (<["events" := table "events" [col_a] 0]> ∅))
          [].

(** The cache already covers the desired columns. *)
Definition st_covered : State World :=
  mkState (<[1%positive := desired]>
             (<[2%positive := table "events" [col_a; col_b; col_c] 4]> ∅))
          (<["events" := 2%positive]> ∅)
          (quiet (<["events" := 4]> ∅)
             (<["events" := table "events" [col_a; col_b; col_c] 0]> ∅))
          [].

(** Nothing cached, nothing at the destination. *)
Definition st_empty : State World :=
  mkState (<[1%positive := desired]> ∅) ∅ (quiet ∅ ∅) [].

(** Nothing cached; the destination has the table, at version 3. *)
Definition st_present : State World :=
  mkState (<[1%positive := desired]> ∅) ∅
          (quiet (<["events" := 3]> ∅)
             (<["events" := table "events" [col_a; col_b] 0]> ∅))
          [].

(** As [st_narrow], with a coordination service that refuses to release
    locks. *)
Definition st_stuck : State World :=
  mkState (heap st_narrow) (tables st_narrow)
          (mkWorld (<["events" := 1]> ∅) (<["events" := table "events" [col_a] 0]> ∅)
             [] true false)
          [].

(** Nothing cached; the destination has the table with the columns
    [cols], at version 3; the coordination service refuses to release
    locks. *)
Definition st_stuck_first (cols : list (string * Column)) : State World :=
  mkState (<[1%positive := desired]> ∅) ∅
          (mkWorld (<["events" := 3]> ∅) (<["events" := table "events" cols 0]> ∅)
             [] true false)
          [].

(** [st_stuck_first cols] when the locked section of [getOrCreate] is
    over: the schema read is behind the pointer [2], at version 3. *)
Definition st_stuck_adopted (cols : list (string * Column)) : State World :=
  mkState (<[2%positive := table "events" cols 3]> (heap (st_stuck_first cols)))
          ∅ (world (st_stuck_first cols))
          [ELock "dest" "events" (Ok (1, 1));
           EGetTableSchema "events" (Ok (table "events" cols 0));
           EGetVersion "dest" "events" (Ok 3)].

(** [st_stuck] when the locked section of [EnsureTable] is over and the
    lock is about to be released: column [b] is patched in, the counter
    and the cached schema are at version 2. *)
Definition st_stuck_patched : State World :=
  mkState (<[2%positive := mkTable "events"
                            (Columns (table "events" [col_b] 0)
                             ∪ Columns (table "events" [col_a] 1)) 2]>
             (heap st_stuck))
          (tables st_stuck)
          (mkWorld (<["events" := 2]> (<["events" := 1]> ∅))
             (<["events" := mkTable "events"
                              (Columns (table "events" [col_b] 0)
                               ∪ Columns (table "events" [col_a] 0)) 0]>
                (<["events" := table "events" [col_a] 0]> ∅))
             [] true false)
          [ELock "dest" "events" (Ok (1, 1));
           EGetVersion "dest" "events" (Ok 1);
           EPatchTableSchema (table "events" [col_b] 0) None;
           EIncrementVersion "dest" "events" (Ok 2)].

(** As [st_narrow], but the cached schema was built with no map of
    columns. *)
Definition st_nil_columns : State World :=
  mkState (<[1%positive := desired]>
             (<[2%positive := Build_Table "events" None 1]> ∅))
          (<["events" := 2%positive]> ∅)
          (quiet (<["events" := 1]> ∅) (<["events" := table "events" [] 0]> ∅))
          [].

Definition row (n : Z) : Fact := <["a" := VString "x"]> (<["b" := VInt n]> ∅).
Definition bad_row : Fact := <["bad" := VBool true]> (row 2).

(** Five rows for ["events"], the second one refused by the database;
    the table is cached and covers the desired columns. *)
Definition batch : list ProcessedFile :=
  [mkProcessedFile "file" 1%positive [row 1; bad_row; row 3; row 4; row 5]].

Definition st_batch : State World :=
  mkState (heap st_covered) (tables st_covered)
          (mkWorld (<["events" := 4]> ∅)
             (<["events" := table "events" [col_a; col_b; col_c] 0]> ∅)
             batch false false)
          [].

(** The state of [st_batch] when the transaction is opened. *)
Definition st_batch_typed (breakOnError : bool) : State World :=
  mkState (heap st_batch) (tables st_batch) (world st_batch)
          [EProcessFilePayload "file" [] breakOnError (Ok batch);
           EApplyDBTyping 2%positive (mkProcessedFile "file" 1%positive
                                        [row 1; bad_row; row 3; row 4; row 5])
             None].

(** A database whose connection fails to close. *)
Definition st_closing : State World :=
  mkState ∅ ∅ (mkWorld ∅ ∅ [] false true) [].

Definition postgres (breakOnError : bool) (worker : option StreamingWorker)
    : Postgres :=
  mkPostgres "dest" helper worker breakOnError.

End memory.


Import golang schema storages.

(* ===================================================================== *)
(** * Vocabulary of the statements *)
(* ===================================================================== *)

(** The external (configuration-facing) type names. *)
Definition external_names : list string :=
  ["string"; "integer"; "double"; "timestamp"].

(** The data types that have an external name. *)
Definition named_types : list typing.DataType :=
  [typing.INT64; typing.FLOAT64; typing.STRING; typing.TIMESTAMP].

(** The [Unlock] calls that failed with the errors [errs], in order. *)
Definition unlock_failures (lock : Lock) (closer : Closer) (errs : list error)
    : list Event :=
  map (fun e => EUnlock lock closer (Some e)) errs.

(** The line logged when the release of the lock is given up. *)
Definition unlock_given_up (th : TableHelper) (tableName : string) (e : error)
    : Event :=
  ELogErrorf "System error unlocking table %s in %s after %d tries: %v"
    [ArgString tableName; ArgString (storageType th);
     ArgInt unlockRetryCount; ArgError e].

(** How a release of the lock shows in the trace: fewer than [n] failed
    attempts and a successful one, or [n] failed attempts and the logged
    line. *)
Definition release_events (n : nat) (th : TableHelper) (lock : Lock)
    (closer : Closer) (tableName : string) (evs : list Event) : Prop :=
  exists errs,
    (evs = unlock_failures lock closer errs ++ [EUnlock lock closer None]
     /\ (length errs < n)%nat)
    \/ (exists e, last errs = Some e
        /\ evs = unlock_failures lock closer errs ++ [unlock_given_up th tableName e]
        /\ length errs = n).

(** The worlds reached from [w] by calls of [Unlock], none included. *)
Inductive after_unlocks {W : Type} `{!MonitorKeeper W} (lock : Lock) (closer : Closer)
    : W -> W -> Prop :=
| after_no_unlock w :
    after_unlocks lock closer w w
| after_unlock w w' :
    after_unlocks lock closer (snd (keeper_Unlock lock closer w)) w' ->
    after_unlocks lock closer w w'.

(** The rows of the groups, in the order of insertion, each with the
    schema pointer it is inserted with. *)
Definition rows_of (flatData : list ProcessedFile) : list (loc * Fact) :=
  flat_map (fun fdata => map (pair (DataSchema fdata)) (GetPayload fdata)) flatData.

(** A row accepted by the database, as the trace shows it. *)
Definition inserted (tx : Tx) (row : loc * Fact) : Event :=
  EInsertInTransaction tx (fst row) (snd row) None.

(** The warning logged for a row that is skipped. *)
Definition skipped_warning (p : Postgres) (object : Fact) (err : error) : Event :=
  ELogWarnf "[%s] Unable to insert object %v reason: %v. This line will be skipped"
    [ArgString (Postgres_Name p); ArgObject object; ArgError err].

(** One row attempted when failures are skipped: the call with its answer
    and, for a failure, the warning. *)
Definition attempt_events (p : Postgres) (tx : Tx) (row : loc * Fact)
    (answer : option error) : list Event :=
  EInsertInTransaction tx (fst row) (snd row) answer
  :: match answer with
     | Some err => [skipped_warning p (snd row) err]
     | None => []
     end.

(** Every run of [m] that returns leaves allocated what was allocated. *)
Definition keeps_heap {W A : Type} (m : M W A) : Prop :=
  forall st r st', m st = Done r st' ->
    forall p, is_Some (heap st !! p) -> is_Some (heap st' !! p).

(** Within the events [evs] of a locked section, the diff [d] was computed
    against a schema [current] that carries the version read under the
    lock: the cached schema [db] when the counter still has its version,
    the schema fetched again from the destination, with the version read,
    when it has not. *)
Definition reconciled `{TableOps} (destinationName : string) (db ds : Table)
    (evs : list Event) (d : Table) : Prop :=
  exists ver current rest,
    evs = EGetVersion destinationName (Name db) (Ok ver) :: rest
    /\ Version current = ver
    /\ Diff current ds = Ok d
    /\ ((ver = Version db /\ current = db)
        \/ (ver <> Version db
            /\ exists fetched rest',
                 rest = EGetTableSchema (Name ds) (Ok fetched) :: rest'
                 /\ current = with_Version fetched ver)).

(** [EnsureTable], called in [st], checks the diff (line 50) in the state
    [st0] with the pointer [p] as [dbTableSchema]: the pointer cached under
    the desired table's name, in [st] itself; or, nothing being cached, the
    pointer that [getOrCreate] returned, in the state that it left, once
    the pointer is cached (line 47). *)
Definition diff_checked {W : Type} `{!MonitorKeeper W} `{!TableManager W}
    `{!TableOps} (th : TableHelper) (destinationName : string) (dataSchema : loc)
    (st st0 : State W) (p : loc) : Prop :=
  exists ds0,
    heap st !! dataSchema = Some ds0
    /\ ((tables st !! Name ds0 = Some p /\ st0 = st)
        \/ (tables st !! Name ds0 = None
            /\ exists st1 db0,
                 getOrCreate th destinationName dataSchema st
                 = Done (Some p, None) st1
                 /\ heap st1 !! p = Some db0
                 /\ st0 = mkState (heap st1) (<[Name db0 := p]> (tables st1))
                            (world st1) (trace st1))).



(** ** Runs that return *)

(** [m], started in [st], stays within the recursion budget and, for
    [strict = true], does not panic; [Q] holds of what it returns and of
    the state it leaves. *)
Definition runs {W A : Type} (strict : bool) (m : M W A) (st : State W)
    (Q : A -> State W -> Prop) : Prop :=
  match m st with
  | Done r st' => Q r st'
  | Panic => strict = false
  | OutOfFuel => False
  end.

(** The map of columns of every object of [h] is allocated. *)
Definition maps_made (h : gmap loc Table) : Prop :=
  map_Forall (fun _ t => is_Some (ColumnsMap t)) h.

(** The table manager builds the schemas it returns with an allocated map
    of columns. *)
Definition manager_makes_maps {W : Type} `{!TableManager W} : Prop :=
  forall tableName w t w',
    GetTableSchema tableName w = (Ok t, w') -> is_Some (ColumnsMap t).

(** What a run that must not panic needs of the maps of columns. *)
Definition careful {W : Type} `{!TableManager W} (strict : bool)
    (h : gmap loc Table) : Prop :=
  strict = true -> manager_makes_maps /\ maps_made h.

(** Every object of [h] is still there in [h'], under the same name and
    with at least the column names it had. *)
Definition grows (h h' : gmap loc Table) : Prop :=
  forall p t, h !! p = Some t ->
    exists t', h' !! p = Some t' /\ Name t' = Name t
               /\ dom (Columns t) ⊆ dom (Columns t').

(** Every entry of the cache points to an object of the heap that
    carries the entry's name. *)
Definition cache_named (h : gmap loc Table) (tb : gmap string loc) : Prop :=
  map_Forall (fun n p => Name <$> h !! p = Some n) tb.

(** A pointer to an object of [h] and no error, or an error and no
    pointer. *)
Definition returned (h : gmap loc Table) (r : option loc * option error) : Prop :=
  match r with
  | (Some p, None) => is_Some (h !! p)
  | (None, Some _) => True
  | _ => False
  end.

(** What the parts of [EnsureTable] that leave the cache alone do to a
    state [st0]. *)
Definition settled {W : Type} (st0 : State W) (r : option loc * option error)
    (st' : State W) : Prop :=
  tables st' = tables st0 /\ grows (heap st0) (heap st') /\ returned (heap st') r.

(** The cache [tb'] is [tb], or [tb] with one entry more or replaced,
    named as the object of [h'] it points to. *)
Definition cache_extended (h' : gmap loc Table) (tb tb' : gmap string loc) : Prop :=
  tb' = tb \/ exists p t, h' !! p = Some t /\ tb' = <[Name t := p]> tb.

(** ** Counting calls *)

Inductive call : Type :=
| CLock | CUnlock | CCreateTable | CPatchTableSchema | CIncrementVersion
| CGetVersion | CGetTableSchema.

Definition is_call (c : call) (ev : Event) : bool :=
  match c, ev with
  | CLock, ELock _ _ _ => true
  | CUnlock, EUnlock _ _ _ => true
  | CCreateTable, ECreateTable _ _ => true
  | CPatchTableSchema, EPatchTableSchema _ _ => true
  | CIncrementVersion, EIncrementVersion _ _ _ => true
  | CGetVersion, EGetVersion _ _ _ => true
  | CGetTableSchema, EGetTableSchema _ _ => true
  | _, _ => false
  end.

(** How many of the events [evs] are calls of [c]. *)
Fixpoint calls (c : call) (evs : list Event) : nat :=
  match evs with
  | [] => 0
  | ev :: rest => (if is_call c ev then 1 else 0) + calls c rest
  end.

(** The calls of one locked section: one lock, at most five attempts to
    release it, at most one of each other call. *)
Definition one_section (evs : list Event) : Prop :=
  (calls CLock evs <= 1 /\ calls CUnlock evs <= 5
   /\ calls CCreateTable evs <= 1 /\ calls CPatchTableSchema evs <= 1
   /\ calls CIncrementVersion evs <= 1 /\ calls CGetVersion evs <= 1
   /\ calls CGetTableSchema evs <= 1)%nat.

(** ** The locking protocol of the table helper

    Where a run of the table helper stands, as far as its calls tell:
    no lock held; the lock refused; the lock held and nothing changed yet;
    the table just created or patched, the counter not yet incremented;
    the one change of this locked section over (it failed, or the counter
    has been asked to increment); a release that has failed so far. *)
Inductive phase : Type :=
| Unlocked
| Refused
| Locked (lock : Lock) (closer : Closer)
| Mutated (lock : Lock) (closer : Closer)
| Settled (lock : Lock) (closer : Closer)
| Releasing (lock : Lock) (closer : Closer).

(** One call of the release of the lock [(lock, closer)]. *)
Definition release_step (lock : Lock) (closer : Closer) (lock' : Lock)
    (closer' : Closer) (r : option error) : option phase :=
  if (lock =? lock') && (closer =? closer') then
    match r with
    | None => Some Unlocked
    | Some _ => Some (Releasing lock closer)
    end
  else None.

(** The calls allowed in each phase, and where they lead; [None] for a
    call that is out of place. *)
Definition protocol_step (ph : phase) (ev : Event) : option phase :=
  match ph, ev with
  | Unlocked, ELock _ _ (Ok (lock, closer)) => Some (Locked lock closer)
  | Unlocked, ELock _ _ (Failed _) => Some Refused
  | Locked lock closer, EGetVersion _ _ _ => Some (Locked lock closer)
  | Locked lock closer, EGetTableSchema _ _ => Some (Locked lock closer)
  | Locked lock closer, ECreateTable _ None => Some (Mutated lock closer)
  | Locked lock closer, EPatchTableSchema _ None => Some (Mutated lock closer)
  | Locked lock closer, ECreateTable _ (Some _) => Some (Settled lock closer)
  | Locked lock closer, EPatchTableSchema _ (Some _) => Some (Settled lock closer)
  | Mutated lock closer, EIncrementVersion _ _ _ => Some (Settled lock closer)
  | Locked lock closer, EUnlock lock' closer' r =>
      release_step lock closer lock' closer' r
  | Settled lock closer, EUnlock lock' closer' r =>
      release_step lock closer lock' closer' r
  | Releasing lock closer, EUnlock lock' closer' r =>
      release_step lock closer lock' closer' r
  | Releasing _ _, ELogErrorf _ _ => Some Unlocked
  | _, _ => None
  end.

Fixpoint protocol_run (ph : phase) (evs : list Event) : option phase :=
  match evs with
  | [] => Some ph
  | ev :: rest =>
      match protocol_step ph ev with
      | Some ph' => protocol_run ph' rest
      | None => None
      end
  end.

(** The lock [(lock, closer)] is held and may be released. *)
Definition held (lock : Lock) (closer : Closer) (ph : phase) : Prop :=
  ph = Locked lock closer \/ ph = Settled lock closer.

(** What a run of the table helper leaves behind: no lock held and, unless the lock was
    refused, a right to go on. *)
Definition closed_run (r : option loc * option error) (evs : list Event) : Prop :=
  protocol_run Unlocked evs = Some Unlocked
  \/ (protocol_run Unlocked evs = Some Refused /\ fst r = None /\ snd r <> None).

(** ** The calls of [Store]

    Where a run of [Store] stands: before the payload is processed; while
    the tables of the groups are ensured and their rows typed (with the
    phase of the table helper); inside the transaction; after a row was
    refused; after a commit that succeeded; given up (the payload or a
    typing refused, no transaction, a rollback, a commit that failed). *)
Inductive stage : Type :=
| Start
| Syncing (ph : phase)
| InTx (tx : Tx)
| Failing (tx : Tx)
| Committed
| Aborted.

Definition store_step (breakOnError : bool) (sg : stage) (ev : Event)
    : option stage :=
  match sg, ev with
  | Start, EProcessFilePayload _ _ _ (Ok _) => Some (Syncing Unlocked)
  | Start, EProcessFilePayload _ _ _ (Failed _) => Some Aborted
  | Syncing Unlocked, EApplyDBTyping _ _ None => Some (Syncing Unlocked)
  | Syncing Unlocked, EApplyDBTyping _ _ (Some _) => Some Aborted
  | Syncing Unlocked, EOpenTx (Ok tx) => Some (InTx tx)
  | Syncing Unlocked, EOpenTx (Failed _) => Some Aborted
  | Syncing ph, _ => Syncing <$> protocol_step ph ev
  | InTx tx, EInsertInTransaction tx' _ _ None =>
      if tx =? tx' then Some (InTx tx) else None
  | InTx tx, EInsertInTransaction tx' _ _ (Some _) =>
      if tx =? tx' then Some (Failing tx) else None
  | InTx tx, EDirectCommit tx' None =>
      if tx =? tx' then Some Committed else None
  | InTx tx, EDirectCommit tx' (Some _) =>
      if tx =? tx' then Some Aborted else None
  | Failing tx, ERollback tx' _ =>
      if breakOnError && (tx =? tx') then Some Aborted else None
  | Failing tx, ELogWarnf _ _ => if breakOnError then None else Some (InTx tx)
  | _, _ => None
  end.

Fixpoint store_run (breakOnError : bool) (sg : stage) (evs : list Event)
    : option stage :=
  match evs with
  | [] => Some sg
  | ev :: rest =>
      match store_step breakOnError sg ev with
      | Some sg' => store_run breakOnError sg' rest
      | None => None
      end
  end.

(** Where a run that returned [e] has stopped: at [good] when [e] is
    [nil]; otherwise given up, or between two tables, or at a refused
    lock. *)
Definition ends_at (good : stage) (e : option error) (sg : stage) : Prop :=
  match e with
  | None => sg = good
  | Some _ => sg = Aborted \/ sg = Syncing Unlocked \/ sg = Syncing Refused
  end.

(* ===================================================================== *)
(** * Properties of package [typing] *)
(* ===================================================================== *)

Section typing_facts.
Import typing.

(** Clearing the [k] low bits of a mantissa removes its remainder
    modulo [2^k]. *)
Lemma clear_low_bits (m : positive) (k : Z) :
  0 <= k -> Z.shiftl (Z.shiftr (Zpos m) k) k = Zpos m - Zpos m mod 2 ^ k.
Proof.
  intros Hk.
  rewrite Z.shiftr_div_pow2, Z.shiftl_mul_pow2 by assumption.
  assert (0 < 2 ^ k) by (apply Z.pow_pos_nonneg; lia).
  pose proof (Z.div_mod (Zpos m) (2 ^ k)). lia.
Qed.

Lemma SFeqb_finite_same (s : bool) (m : positive) (e : Z) :
  SFeqb (S754_finite s m e) (S754_finite s m e) = true.
Proof.
  unfold SFeqb, SFcompare.
  destruct s; rewrite Z.compare_refl, Pos.compare_cont_refl; reflexivity.
Qed.

Lemma SFeqb_finite_mantissa (s : bool) (m m' : positive) (e : Z) :
  SFeqb (S754_finite s m' e) (S754_finite s m e) = true -> m' = m.
Proof.
  unfold SFeqb, SFcompare. rewrite Z.compare_refl.
  fold (Pos.compare m' m).
  destruct s, (Pos.compare_spec m' m); simpl; congruence.
Qed.

(** A finite binary64 number is left alone by [math.Trunc] exactly when
    it has no fractional bits, that is when [m * 2^e] is an integer. *)
Lemma Trunc_fixed_finite (s : bool) (m : positive) (e : Z) :
  float_eq (Trunc (S754_finite s m e)) (S754_finite s m e) = true
  <-> (0 <= e \/ Zpos m mod 2 ^ (- e) = 0).
Proof.
  unfold float_eq, Trunc.
  destruct (Z.leb_spec 0 e) as [He | He].
  - split; [left; assumption | intros _; apply SFeqb_finite_same].
  - rewrite clear_low_bits by lia.
    assert (0 < 2 ^ (- e)) by (apply Z.pow_pos_nonneg; lia).
    pose proof (Z.mod_pos_bound (Zpos m) (2 ^ (- e)) ltac:(assumption)) as Hr.
    destruct (Z.eq_dec (Zpos m mod 2 ^ (- e)) 0) as [Hz | Hnz].
    + rewrite Hz, Z.sub_0_r. split; [right; reflexivity | intros _; apply SFeqb_finite_same].
    + split; [ | intros [? | ?]; [lia | contradiction]].
      destruct (Zpos m - Zpos m mod 2 ^ (- e)) as [ | m' | m'] eqn:Hd; intros Heq.
      * destruct s; discriminate Heq.
      * apply SFeqb_finite_mantissa in Heq. subst m'. lia.
      * destruct s; discriminate Heq.
Qed.

(** 3.0, 2.5, -0.5, NaN, +Inf and -0 as [float64]; 1.5 and 8.0 as
    [float32]. *)
Example TypeFromValue_3 :
  TypeFromValue (VFloat64 (S754_finite false (3 * 2 ^ 51) (-51))) = (INT64, None).
Proof. reflexivity. Qed.

Example TypeFromValue_2_5 :
  TypeFromValue (VFloat64 (S754_finite false (5 * 2 ^ 50) (-51))) = (FLOAT64, None).
Proof. reflexivity. Qed.

Example TypeFromValue_minus_half :
  TypeFromValue (VFloat64 (S754_finite true (2 ^ 52) (-53))) = (FLOAT64, None).
Proof. reflexivity. Qed.

Example TypeFromValue_nan : TypeFromValue (VFloat64 S754_nan) = (FLOAT64, None).
Proof. reflexivity. Qed.

Example TypeFromValue_inf :
  TypeFromValue (VFloat64 (S754_infinity false)) = (INT64, None).
Proof. reflexivity. Qed.

Example TypeFromValue_minus_zero :
  TypeFromValue (VFloat64 (S754_zero true)) = (INT64, None).
Proof. reflexivity. Qed.

Example TypeFromValue_1_5_f32 :
  TypeFromValue (VFloat32 (S754_finite false (3 * 2 ^ 22) (-23))) = (FLOAT64, None).
Proof. vm_compute. reflexivity. Qed.

Example TypeFromValue_8_f32 :
  TypeFromValue (VFloat32 (S754_finite false (2 ^ 23) (-20))) = (INT64, None).
Proof. vm_compute. reflexivity. Qed.

Example TypeFromString_padded :
  @TypeFromString ascii_strings "  TimeStamp " = (TIMESTAMP, None).
Proof. vm_compute. reflexivity. Qed.

Example TypeFromString_bogus :
  @TypeFromString ascii_strings "bogus"
  = (UNKNOWN, Some (Errorf "Unknown casting type: %s" [ArgString "bogus"])).
Proof. vm_compute. reflexivity. Qed.

(** C7, as the code has it: [TypeFromValue] maps every string to STRING,
    every [time.Time] to TIMESTAMP, every value of one of the signed
    integer types [int], [int8], [int16], [int32], [int64] to INT64,
    every [float64] (and every [float32], converted to [float64]) that
    [math.Trunc] leaves equal to itself to INT64 and every other one to
    FLOAT64; every value of any other type, the unsigned integer types
    included, gives UNKNOWN with the unknown-type error. *)
Theorem TypeFromValue_cases (v : value) :
  (is_string v = true -> TypeFromValue v = (STRING, None)) /\
  (is_time v = true -> TypeFromValue v = (TIMESTAMP, None)) /\
  (is_signed_integer v = true -> TypeFromValue v = (INT64, None)) /\
  (forall f, v = VFloat64 f ->
     (float_eq (Trunc f) f = true -> TypeFromValue v = (INT64, None)) /\
     (float_eq (Trunc f) f = false -> TypeFromValue v = (FLOAT64, None))) /\
  (forall f, v = VFloat32 f ->
     let f64 := float64_of_float32 f in
     (float_eq (Trunc f64) f64 = true -> TypeFromValue v = (INT64, None)) /\
     (float_eq (Trunc f64) f64 = false -> TypeFromValue v = (FLOAT64, None))) /\
  (is_string v = false -> is_time v = false -> is_signed_integer v = false ->
   is_float v = false ->
     TypeFromValue v
     = (UNKNOWN, Some (Errorf "Unknown DataType for value: %v type: %t"
                         [ArgValue v; ArgValue v]))).
Proof.
  repeat split.
  - destruct v; simpl; congruence.
  - destruct v; simpl; congruence.
  - destruct v; simpl; congruence.
  - subst v. simpl. intros ->. reflexivity.
  - subst v. simpl. intros ->. reflexivity.
  - subst v. simpl. intros ->. reflexivity.
  - subst v. simpl. intros ->. reflexivity.
  - destruct v; simpl; congruence.
Qed.

Lemma TypeFromValue_cases_witness :
  TypeFromValue (VString "x") = (STRING, None) /\
  TypeFromValue (VInt16 (-4)) = (INT64, None) /\
  TypeFromValue (VFloat64 (S754_finite false (5 * 2 ^ 50) (-51))) = (FLOAT64, None) /\
  TypeFromValue (VBool true)
  = (UNKNOWN, Some (Errorf "Unknown DataType for value: %v type: %t"
                      [ArgValue (VBool true); ArgValue (VBool true)])).
Proof.
  split; [ | split; [ | split]].
  - apply (TypeFromValue_cases (VString "x")). reflexivity.
  - apply (TypeFromValue_cases (VInt16 (-4))). reflexivity.
  - destruct (TypeFromValue_cases (VFloat64 (S754_finite false (5 * 2 ^ 50) (-51))))
      as (_ & _ & _ & Hfloat64 & _).
    apply (Hfloat64 _ eq_refl). reflexivity.
  - apply (TypeFromValue_cases (VBool true)); reflexivity.
Defined.

(** C7, as the claim words it, fails: the byte 200 is an integer value,
    and [TypeFromValue] answers UNKNOWN with an error, not INT64. *)
Lemma TypeFromValue_unsigned_integer :
  is_integer (VUint8 200) = true /\
  TypeFromValue (VUint8 200)
  = (UNKNOWN, Some (Errorf "Unknown DataType for value: %v type: %t"
                      [ArgValue (VUint8 200); ArgValue (VUint8 200)])) /\
  TypeFromValue (VUint8 200) <> (INT64, None).
Proof. repeat split. discriminate. Qed.

Lemma inputStringToType_lookup (n : string) :
  inputStringToType !! n
  = if decide (n = "string") then Some STRING
    else if decide (n = "integer") then Some INT64
    else if decide (n = "double") then Some FLOAT64
    else if decide (n = "timestamp") then Some TIMESTAMP
    else None.
Proof.
  unfold inputStringToType.
  repeat (rewrite lookup_insert; case_decide; [subst; reflexivity | ]).
  repeat (case_decide; [congruence | ]).
  apply lookup_empty.
Qed.

Lemma typeToInputString_lookup (dt : DataType) :
  typeToInputString !! dt
  = if decide (dt = STRING) then Some "string"
    else if decide (dt = INT64) then Some "integer"
    else if decide (dt = FLOAT64) then Some "double"
    else if decide (dt = TIMESTAMP) then Some "timestamp"
    else None.
Proof.
  unfold typeToInputString.
  repeat (rewrite lookup_insert; case_decide; [subst; reflexivity | ]).
  repeat (case_decide; [congruence | ]).
  apply lookup_empty.
Qed.

(** C8: on a valid external name [s], one whose trimmed, lower-cased form
    is one of the four names, [TypeFromString] succeeds and
    [StringFromType] of its answer is that normal form; on any other
    name [TypeFromString] answers UNKNOWN with an error; [StringFromType]
    fails on UNKNOWN, and on every data type other than the four named
    ones. *)
Theorem TypeFromString_StringFromType `{GoStrings} (s : string) :
  let n := ToLower (TrimSpace s) in
  (n ∈ external_names ->
     exists dt, TypeFromString s = (dt, None) /\ dt ∈ named_types /\
                StringFromType dt = (n, None)) /\
  (n ∉ external_names ->
     TypeFromString s
     = (UNKNOWN, Some (Errorf "Unknown casting type: %s" [ArgString s]))) /\
  StringFromType UNKNOWN
  = ("", Some (Errorf "Unable to get string from DataType for: %s"
                 [ArgString "UNKNOWN"])) /\
  (forall dt, dt ∉ named_types ->
     StringFromType dt
     = ("", Some (Errorf "Unable to get string from DataType for: %s"
                    [ArgString (String dt)]))).
Proof.
  intros n. unfold TypeFromString. fold n.
  rewrite inputStringToType_lookup.
  split; [ | split; [ | split]].
  - unfold external_names. rewrite !elem_of_cons, elem_of_nil.
    intros [-> | [-> | [-> | [-> | []]]]]; simpl;
      eexists; (split; [reflexivity | split; [ | reflexivity]]);
      unfold named_types; set_solver.
  - unfold external_names. rewrite !elem_of_cons, elem_of_nil. intros Hn.
    repeat (case_decide; [exfalso; apply Hn; tauto | ]). reflexivity.
  - reflexivity.
  - intros dt. unfold named_types. rewrite !elem_of_cons, elem_of_nil. intros Hdt.
    unfold StringFromType. rewrite typeToInputString_lookup.
    repeat (case_decide; [exfalso; apply Hdt; tauto | ]). reflexivity.
Qed.

Lemma TypeFromString_StringFromType_witness :
  (exists dt, @TypeFromString ascii_strings "  TimeStamp " = (dt, None) /\
              dt ∈ named_types /\ StringFromType dt = ("timestamp", None)) /\
  @TypeFromString ascii_strings "bogus"
  = (UNKNOWN, Some (Errorf "Unknown casting type: %s" [ArgString "bogus"])).
Proof.
  split.
  - apply (@TypeFromString_StringFromType ascii_strings "  TimeStamp ").
    apply list_elem_of_In. vm_compute. do 3 right. left. reflexivity.
  - apply (@TypeFromString_StringFromType ascii_strings "bogus").
    rewrite list_elem_of_In. vm_compute. intuition discriminate.
Defined.

End typing_facts.

(* ===================================================================== *)
(** * Properties of the table helper *)
(* ===================================================================== *)

Ltac run_step :=
  unfold mbind, M_bind, mret, M_ret, defer, perform, log, load, store, alloc,
    cached, cache; simpl.

(** Case analysis on the innermost scrutinee of the goal. *)
Ltac explore_step :=
  match goal with
  | |- context [match ?x with _ => _ end] =>
      lazymatch x with
      | context [match _ with _ => _ end] => fail
      | _ => destruct x eqn:?; simpl
      end
  end.

Ltac explore := run_step; repeat explore_step.

(** Membership of an event in an explicit list: one case per element. *)
Ltac event_cases H :=
  repeat (apply elem_of_cons in H;
          destruct H as [H | H];
          [try discriminate H; try (inversion H; subst; clear H) | ]);
  try (apply elem_of_nil in H; contradiction).

Section table_helper_facts.
Context {W : Type} `{!MonitorKeeper W} `{!TableManager W} `{!TableOps}.
Implicit Types (st : State W) (th : TableHelper).

(** [unlock] entered with [retry = 6 - fuel] returns, having touched
    neither the heap nor the cache, after at most [fuel] attempts; an
    attempt recorded as successful is one that [Unlock] answered with
    [nil]. *)
Lemma unlock_run_from (fuel : nat) th lock closer tableName :
  forall retry st,
    (1 <= fuel)%nat -> retry = 6 - Z.of_nat fuel ->
    exists w evs,
      unlock fuel th lock closer tableName retry st
      = Done tt (mkState (heap st) (tables st) w (trace st ++ evs))
      /\ release_events fuel th lock closer tableName evs
      /\ after_unlocks lock closer (world st) w
      /\ (EUnlock lock closer None ∈ evs ->
          exists w0, after_unlocks lock closer (world st) w0
                     /\ fst (keeper_Unlock lock closer w0) = None).
Proof.
  induction fuel as [ | fuel IH]; intros retry st Hfuel Hretry; [lia | ].
  simpl. run_step.
  pose proof (after_unlock lock closer (world st) _
                (after_no_unlock lock closer _)) as Hstep.
  destruct (keeper_Unlock lock closer (world st)) as [[e | ] w] eqn:HU;
    simpl in Hstep.
  - destruct (Z.eqb_spec retry unlockRetryCount) as [H5 | H5].
    + unfold unlockRetryCount in H5.
      exists w, (unlock_failures lock closer [e] ++ [unlock_given_up th tableName e]).
      split; [ | split; [ | split; [exact Hstep | ]]].
      * simpl. rewrite <- app_assoc. unfold unlock_given_up. rewrite H5. reflexivity.
      * exists [e]. right. exists e. repeat split. simpl. lia.
      * intros Hin. simpl in Hin. event_cases Hin.
    + unfold unlockRetryCount in H5.
      destruct (IH (retry + 1)
                  (mkState (heap st) (tables st) w
                     (trace st ++ [EUnlock lock closer (Some e)])))
        as (w' & evs & Hrun & (errs & Hshape) & Hreach & Hnone); [lia | lia | ].
      exists w', (EUnlock lock closer (Some e) :: evs).
      split; [ | split; [ | split]].
      * rewrite Hrun. simpl. rewrite <- app_assoc. reflexivity.
      * exists (e :: errs).
        destruct Hshape as [[-> Hlen] | (e' & Hlast & -> & Hlen)].
        -- left. split; [reflexivity | simpl; lia].
        -- right. exists e'. repeat split; [ | simpl; lia].
           destruct errs; [simpl in Hlen; lia | exact Hlast].
      * apply after_unlock. rewrite HU. exact Hreach.
      * intros Hin. apply elem_of_cons in Hin.
        destruct Hin as [Hin | Hin]; [discriminate Hin | ].
        destruct (Hnone Hin) as (w0 & Hw0 & Hans). exists w0.
        split; [apply after_unlock; rewrite HU; exact Hw0 | exact Hans].
  - exists w, [EUnlock lock closer None].
    split; [reflexivity | split; [ | split; [exact Hstep | ]]].
    + exists []. left. split; [reflexivity | simpl; lia].
    + intros _. exists (world st).
      split; [apply after_no_unlock | rewrite HU; reflexivity].
Qed.

(** The release as the two [defer] statements start it. *)
Lemma unlock_run_full th lock closer tableName st :
  exists w evs,
    unlock unlock_depth th lock closer tableName 1 st
    = Done tt (mkState (heap st) (tables st) w (trace st ++ evs))
    /\ release_events 5 th lock closer tableName evs
    /\ after_unlocks lock closer (world st) w
    /\ (EUnlock lock closer None ∈ evs ->
        exists w0, after_unlocks lock closer (world st) w0
                   /\ fst (keeper_Unlock lock closer w0) = None).
Proof. apply (unlock_run_from 5); [lia | reflexivity]. Qed.

Lemma unlock_run th lock closer tableName st :
  exists w evs,
    unlock unlock_depth th lock closer tableName 1 st
    = Done tt (mkState (heap st) (tables st) w (trace st ++ evs))
    /\ release_events 5 th lock closer tableName evs.
Proof.
  destruct (unlock_run_full th lock closer tableName st)
    as (w & evs & Hrun & Hrel & _).
  exists w, evs. split; assumption.
Qed.

(** From here on the release is used through [unlock_run] only. *)
Arguments unlock : simpl never.
Arguments unlock_depth : simpl never.

Lemma bind_Done {A B} (m : M W A) (f : A -> M W B) st a st1 :
  m st = Done a st1 -> (m ≫= f) st = f a st1.
Proof. intros Hm. unfold mbind, M_bind. rewrite Hm. reflexivity. Qed.

Lemma perform_eq {A} (op : W -> A * W) (ev : A -> Event) st a w :
  op (world st) = (a, w) ->
  perform op ev st = Done a (mkState (heap st) (tables st) w (trace st ++ [ev a])).
Proof. intros Hop. unfold perform. rewrite Hop. reflexivity. Qed.

Lemma load_eq p t st : heap st !! p = Some t -> load p st = Done t st.
Proof. intros Hp. unfold load. rewrite Hp. reflexivity. Qed.

Lemma store_eq p t t' st :
  heap st !! p = Some t ->
  store p t' st
  = Done tt (mkState (<[p := t']> (heap st)) (tables st) (world st) (trace st)).
Proof. intros Hp. unfold store. rewrite Hp. reflexivity. Qed.

(** A deferred release does not change what the body returned, nor the
    heap and the cache it left. *)
Lemma defer_unlock_run {A} th lock closer tableName (body : M W A) st :
  match body st with
  | Done r st1 =>
      exists w evs,
        defer (unlock unlock_depth th lock closer tableName 1) body st
        = Done r (mkState (heap st1) (tables st1) w (trace st1 ++ evs))
        /\ release_events 5 th lock closer tableName evs
  | Panic => defer (unlock unlock_depth th lock closer tableName 1) body st = Panic
  | OutOfFuel =>
      defer (unlock unlock_depth th lock closer tableName 1) body st = OutOfFuel
  end.
Proof.
  unfold defer, mbind, M_bind.
  destruct (body st) as [r st1 | | ]; [ | reflexivity | reflexivity].
  destruct (unlock_run th lock closer tableName st1) as (w & evs & Hrun & Hev).
  exists w, evs. rewrite Hrun. split; [reflexivity | exact Hev].
Qed.

(** *** Single steps of [EnsureTable] *)

Lemma EnsureTable_patch_no_diff th destinationName p diff st :
  Exists diff = false ->
  EnsureTable_patch th destinationName p diff st = Done (Some p, None) st.
Proof. intros Hex. unfold EnsureTable_patch. rewrite Hex. reflexivity. Qed.

(** The loop on an allocated map. *)
Lemma assign_columns_made diff t :
  is_Some (ColumnsMap t) ->
  assign_columns diff t = Some (with_Columns t (merge_columns diff (Columns t))).
Proof.
  intros [cols Hcols]. unfold assign_columns, Columns. rewrite Hcols. reflexivity.
Qed.

Lemma EnsureTable_patch_applied th destinationName p diff st db w1 newVersion w2 :
  Exists diff = true ->
  PatchTableSchema diff (world st) = (None, w1) ->
  heap st !! p = Some db ->
  is_Some (ColumnsMap db) ->
  keeper_IncrementVersion destinationName (Name db) w1 = (Ok newVersion, w2) ->
  EnsureTable_patch th destinationName p diff st
  = Done (Some p, None)
      (mkState
         (<[p := with_Version
                   (with_Columns db (merge_columns (Columns diff) (Columns db)))
                   newVersion]> (heap st))
         (tables st) w2
         (trace st ++ [EPatchTableSchema diff None;
                       EIncrementVersion destinationName (Name db) (Ok newVersion)])).
Proof.
  intros Hex Hpatch Hdb Hmade Hinc. unfold EnsureTable_patch. rewrite Hex. simpl.
  erewrite bind_Done by (apply perform_eq; exact Hpatch). simpl.
  erewrite bind_Done by (apply load_eq; exact Hdb).
  erewrite bind_Done by (apply perform_eq; exact Hinc). simpl.
  rewrite (assign_columns_made _ _ Hmade).
  erewrite bind_Done by (eapply store_eq; exact Hdb). simpl.
  rewrite <- app_assoc. reflexivity.
Qed.

(** The Save step on a nil map of columns: the patch and the increment
    done, the first assignment panics. *)
Lemma EnsureTable_patch_nil_panics th destinationName p diff st db w1 newVersion
    w2 :
  Exists diff = true ->
  PatchTableSchema diff (world st) = (None, w1) ->
  heap st !! p = Some db ->
  ColumnsMap db = None ->
  Columns diff <> ∅ ->
  keeper_IncrementVersion destinationName (Name db) w1 = (Ok newVersion, w2) ->
  EnsureTable_patch th destinationName p diff st = Panic.
Proof.
  intros Hex Hpatch Hdb Hnil Hcols Hinc. unfold EnsureTable_patch.
  rewrite Hex. simpl.
  erewrite bind_Done by (apply perform_eq; exact Hpatch). simpl.
  erewrite bind_Done by (apply load_eq; exact Hdb).
  erewrite bind_Done by (apply perform_eq; exact Hinc). simpl.
  unfold assign_columns. rewrite Hnil.
  destruct (decide (Columns diff = ∅)) as [Hempty | _]; [contradiction | ].
  reflexivity.
Qed.

Lemma EnsureTable_locked_same_version th destinationName p db ds diff st w1 :
  keeper_GetVersion destinationName (Name db) (world st) = (Ok (Version db), w1) ->
  EnsureTable_locked th destinationName p db ds diff st
  = EnsureTable_patch th destinationName p diff
      (mkState (heap st) (tables st) w1
         (trace st ++ [EGetVersion destinationName (Name db) (Ok (Version db))])).
Proof.
  intros Hver. unfold EnsureTable_locked.
  erewrite bind_Done by (apply perform_eq; exact Hver). simpl.
  rewrite Z.eqb_refl. reflexivity.
Qed.

Lemma EnsureTable_locked_refetch th destinationName p db ds diff st
    ver w1 fetched w2 diff' :
  keeper_GetVersion destinationName (Name db) (world st) = (Ok ver, w1) ->
  ver <> Version db ->
  GetTableSchema (Name ds) w1 = (Ok fetched, w2) ->
  Diff (with_Version fetched ver) ds = Ok diff' ->
  EnsureTable_locked th destinationName p db ds diff st
  = EnsureTable_patch th destinationName (fresh (dom (heap st))) diff'
      (mkState (<[fresh (dom (heap st)) := with_Version fetched ver]> (heap st))
         (tables st) w2
         (trace st ++ [EGetVersion destinationName (Name db) (Ok ver);
                       EGetTableSchema (Name ds) (Ok fetched)])).
Proof.
  intros Hver Hne Hget Hdiff. unfold EnsureTable_locked.
  erewrite bind_Done by (apply perform_eq; exact Hver). simpl.
  apply Z.eqb_neq in Hne. rewrite Hne. simpl.
  erewrite bind_Done by (apply perform_eq; exact Hget). simpl.
  unfold mbind at 1, M_bind, alloc. simpl.
  rewrite Hdiff, <- app_assoc. reflexivity.
Qed.

(** With a diff to apply, [EnsureTable] on a cached table takes the lock
    and runs [EnsureTable_locked]; the release follows. *)
Lemma EnsureTable_cached_locks th destinationName dataSchema st ds p db diff
    lock closer w1 :
  heap st !! dataSchema = Some ds ->
  tables st !! Name ds = Some p ->
  heap st !! p = Some db ->
  Diff db ds = Ok diff ->
  Exists diff = true ->
  keeper_Lock destinationName (Name db) (world st) = (Ok (lock, closer), w1) ->
  EnsureTable th destinationName dataSchema st
  = defer (unlock unlock_depth th lock closer (Name ds) 1)
      (EnsureTable_locked th destinationName p db ds diff)
      (mkState (heap st) (tables st) w1
         (trace st ++ [ELock destinationName (Name db) (Ok (lock, closer))])).
Proof.
  intros Hds Hc Hdb Hdiff Hex Hlock. unfold EnsureTable.
  erewrite bind_Done by (apply load_eq; exact Hds).
  unfold mbind at 1, M_bind, cached. rewrite Hc.
  unfold EnsureTable_sync.
  erewrite bind_Done by (apply load_eq; exact Hdb).
  erewrite bind_Done by (apply load_eq; exact Hds).
  rewrite Hdiff, Hex. simpl.
  erewrite bind_Done by (apply perform_eq; exact Hlock). reflexivity.
Qed.

(** *** Every run of the locked section *)

Lemma EnsureTable_patch_events th destinationName p d st r st' :
  EnsureTable_patch th destinationName p d st = Done r st' ->
  exists evs,
    trace st' = trace st ++ evs /\ tables st' = tables st
    /\ forall d' e, EPatchTableSchema d' e ∈ evs -> d' = d.
Proof.
  unfold EnsureTable_patch. explore;
    intros Hrun; inversion Hrun; subst; clear Hrun; simpl;
    try rewrite <- !app_assoc; simpl;
    eexists; (split; [try reflexivity; symmetry; apply app_nil_r | ]);
    (split; [reflexivity | ]);
    intros d' e' Hin; event_cases Hin; reflexivity.
Qed.

Lemma EnsureTable_locked_reconciles th destinationName p db ds diff st r st' :
  Diff db ds = Ok diff ->
  EnsureTable_locked th destinationName p db ds diff st = Done r st' ->
  exists evs,
    trace st' = trace st ++ evs /\ tables st' = tables st
    /\ (exists rv evs', evs = EGetVersion destinationName (Name db) rv :: evs')
    /\ forall d e, EPatchTableSchema d e ∈ evs ->
                   reconciled destinationName db ds evs d.
Proof.
  intros Hdiff. unfold EnsureTable_locked.
  destruct (keeper_GetVersion destinationName (Name db) (world st))
    as [[ver | err] w1] eqn:Hver;
    (erewrite bind_Done by (apply perform_eq; exact Hver)); simpl.
  - destruct (Z.eqb_spec ver (Version db)) as [Heq | Hne]; simpl.
    + intros Hrun. apply EnsureTable_patch_events in Hrun.
      destruct Hrun as (evs & Htr & Htab & Hpatch). simpl in Htr, Htab.
      exists (EGetVersion destinationName (Name db) (Ok ver) :: evs).
      split; [rewrite Htr, <- app_assoc; reflexivity | ].
      split; [exact Htab | ]. split; [eauto | ].
      intros d e Hin. event_cases Hin. apply Hpatch in Hin. subst d.
      exists ver, db, evs. repeat split; auto.
    + destruct (GetTableSchema (Name ds) w1) as [[fetched | err] w2] eqn:Hget;
        (erewrite bind_Done by (apply perform_eq; exact Hget)); simpl.
      * unfold mbind at 1, M_bind, alloc. simpl.
        destruct (Diff (with_Version fetched ver) ds) as [diff' | err] eqn:Hdiff'.
        -- intros Hrun. apply EnsureTable_patch_events in Hrun.
           destruct Hrun as (evs & Htr & Htab & Hpatch). simpl in Htr, Htab.
           exists (EGetVersion destinationName (Name db) (Ok ver)
                     :: EGetTableSchema (Name ds) (Ok fetched) :: evs).
           split; [rewrite Htr, <- !app_assoc; reflexivity | ].
           split; [exact Htab | ]. split; [eauto | ].
           intros d e Hin. event_cases Hin. apply Hpatch in Hin. subst d.
           exists ver, (with_Version fetched ver),
             (EGetTableSchema (Name ds) (Ok fetched) :: evs).
           repeat split; auto. right. split; [exact Hne | ].
           exists fetched, evs. split; reflexivity.
        -- intros Hrun. inversion Hrun; subst; clear Hrun. simpl.
           eexists. rewrite <- app_assoc.
           split; [reflexivity | split; [reflexivity | split; [eauto | ]]].
           intros d e Hin. event_cases Hin.
      * intros Hrun. inversion Hrun; subst; clear Hrun. simpl.
        eexists. rewrite <- app_assoc.
        split; [reflexivity | split; [reflexivity | split; [eauto | ]]].
        intros d e Hin. event_cases Hin.
  - intros Hrun. inversion Hrun; subst; clear Hrun. simpl.
    eexists. split; [reflexivity | split; [reflexivity | split; [eauto | ]]].
    intros d e Hin. event_cases Hin.
Qed.

(** Releasing the lock patches nothing. *)
Lemma release_events_no_patch n th lock closer tableName evs d e :
  release_events n th lock closer tableName evs ->
  EPatchTableSchema d e ∉ evs.
Proof.
  intros (errs & Hshape) Hin.
  assert (Hfail : EPatchTableSchema d e ∉ unlock_failures lock closer errs).
  { unfold unlock_failures. intros Hf. apply list_elem_of_fmap in Hf.
    destruct Hf as (x & Hx & _). discriminate Hx. }
  destruct Hshape as [[-> _] | (e' & _ & -> & _)];
    apply elem_of_app in Hin; destruct Hin as [Hin | Hin];
    try (apply Hfail; exact Hin); event_cases Hin.
Qed.

(** What a deferred release leaves is what the body left, the release
    events appended. *)
Lemma defer_unlock_inv {A} th lock closer tableName (body : M W A) st r st' :
  defer (unlock unlock_depth th lock closer tableName 1) body st = Done r st' ->
  exists st1 released,
    body st = Done r st1
    /\ heap st' = heap st1 /\ tables st' = tables st1
    /\ trace st' = trace st1 ++ released
    /\ release_events 5 th lock closer tableName released.
Proof.
  intros Hrun.
  pose proof (defer_unlock_run th lock closer tableName body st) as Hdefer.
  destruct (body st) as [r1 st1 | | ]; [ | congruence | congruence].
  destruct Hdefer as (w & released & Hdone & Hrel).
  rewrite Hdone in Hrun. inversion Hrun; subst; clear Hrun.
  exists st1, released. repeat split. exact Hrel.
Qed.

(** The get-or-create path patches nothing. *)
Lemma getOrCreate_locked_no_patch th destinationName dataSchema ds st r st' :
  getOrCreate_locked th destinationName dataSchema ds st = Done r st' ->
  exists evs,
    trace st' = trace st ++ evs
    /\ forall d e, EPatchTableSchema d e ∉ evs.
Proof.
  unfold getOrCreate_locked. explore;
    intros Hrun; inversion Hrun; subst; clear Hrun; simpl;
    rewrite <- ?app_assoc; simpl;
    eexists; (split; [reflexivity | ]);
    intros d e' Hin; event_cases Hin.
Qed.

Lemma getOrCreate_no_patch th destinationName dataSchema st r st' :
  getOrCreate th destinationName dataSchema st = Done r st' ->
  exists evs,
    trace st' = trace st ++ evs
    /\ forall d e, EPatchTableSchema d e ∉ evs.
Proof.
  unfold getOrCreate, mbind at 1, M_bind, load.
  destruct (heap st !! dataSchema) as [ds | ]; [ | discriminate].
  destruct (keeper_Lock destinationName (Name ds) (world st))
    as [[[lock closer] | err] w1] eqn:Hlock;
    (erewrite bind_Done by (apply perform_eq; exact Hlock)).
  - intros Hrun. apply defer_unlock_inv in Hrun.
    destruct Hrun as (st1 & released & Hbody & _ & _ & Htr & Hrel).
    apply getOrCreate_locked_no_patch in Hbody.
    destruct Hbody as (evs & Htr1 & Hnone). simpl in Htr1.
    exists (ELock destinationName (Name ds) (Ok (lock, closer)) :: evs ++ released).
    split; [rewrite Htr, Htr1, <- !app_assoc; reflexivity | ].
    intros d e Hin. apply elem_of_cons in Hin.
    destruct Hin as [Hin | Hin]; [discriminate Hin | ].
    apply elem_of_app in Hin. destruct Hin as [Hin | Hin].
    + exact (Hnone d e Hin).
    + exact (release_events_no_patch _ _ _ _ _ _ _ _ Hrel Hin).
  - intros Hrun. inversion Hrun; subst; clear Hrun. simpl.
    eexists. split; [reflexivity | ]. intros d e Hin. event_cases Hin.
Qed.

(** From line 50 on: a patch happens inside a locked section, with a
    reconciled diff. *)
Lemma EnsureTable_sync_reconciles th destinationName dataSchema p st r st' :
  EnsureTable_sync th destinationName dataSchema p st = Done r st' ->
  exists evs,
    trace st' = trace st ++ evs
    /\ forall d e, EPatchTableSchema d e ∈ evs ->
         exists db ds lock closer locked released,
           heap st !! p = Some db /\ heap st !! dataSchema = Some ds
           /\ evs = ELock destinationName (Name db) (Ok (lock, closer))
                    :: locked ++ released
           /\ reconciled destinationName db ds locked d.
Proof.
  unfold EnsureTable_sync, mbind at 1, M_bind, load.
  destruct (heap st !! p) as [db | ] eqn:Hdb; [ | discriminate].
  unfold mbind at 1, M_bind, load.
  destruct (heap st !! dataSchema) as [ds | ] eqn:Hds; [ | discriminate].
  destruct (Diff db ds) as [diff | err] eqn:Hdiff.
  - destruct (Exists diff); simpl.
    + destruct (keeper_Lock destinationName (Name db) (world st))
        as [[[lock closer] | err] w1] eqn:Hlock;
        (erewrite bind_Done by (apply perform_eq; exact Hlock)).
      * intros Hrun. apply defer_unlock_inv in Hrun.
        destruct Hrun as (st1 & released & Hbody & _ & _ & Htr & Hrel).
        apply EnsureTable_locked_reconciles in Hbody; [ | exact Hdiff].
        destruct Hbody as (locked & Htr1 & _ & _ & Hpatch). simpl in Htr1.
        exists (ELock destinationName (Name db) (Ok (lock, closer))
                  :: locked ++ released).
        split; [rewrite Htr, Htr1, <- !app_assoc; reflexivity | ].
        intros d e Hin. apply elem_of_cons in Hin.
        destruct Hin as [Hin | Hin]; [discriminate Hin | ].
        apply elem_of_app in Hin. destruct Hin as [Hin | Hin].
        -- exists db, ds, lock, closer, locked, released.
           repeat split. exact (Hpatch d e Hin).
        -- exfalso. exact (release_events_no_patch _ _ _ _ _ _ _ _ Hrel Hin).
      * intros Hrun. inversion Hrun; subst; clear Hrun. simpl.
        eexists. split; [reflexivity | ]. intros d e Hin. event_cases Hin.
    + intros Hrun. inversion Hrun; subst; clear Hrun.
      exists []. split; [symmetry; apply app_nil_r | ].
      intros d e Hin. event_cases Hin.
  - intros Hrun. inversion Hrun; subst; clear Hrun.
    exists []. split; [symmetry; apply app_nil_r | ].
    intros d e Hin. event_cases Hin.
Qed.

(** Every run of [EnsureTable]: whatever was called before, a patch
    happens inside a locked section, with a diff reconciled with the
    schema that the diff check held and the desired one. *)
Lemma EnsureTable_patches_reconciled th destinationName dataSchema st r st' :
  EnsureTable th destinationName dataSchema st = Done r st' ->
  exists evs,
    trace st' = trace st ++ evs
    /\ forall d e, EPatchTableSchema d e ∈ evs ->
         exists st0 p db ds before lock closer locked released,
           diff_checked th destinationName dataSchema st st0 p
           /\ heap st0 !! p = Some db /\ heap st0 !! dataSchema = Some ds
           /\ trace st0 = trace st ++ before
           /\ evs = before
                    ++ ELock destinationName (Name db) (Ok (lock, closer))
                       :: locked ++ released
           /\ reconciled destinationName db ds locked d.
Proof.
  unfold EnsureTable, mbind at 1, M_bind, load.
  destruct (heap st !! dataSchema) as [ds0 | ] eqn:Hds0; [ | discriminate].
  unfold mbind at 1, M_bind, cached.
  destruct (tables st !! Name ds0) as [p | ] eqn:Hc.
  - intros Hrun. apply EnsureTable_sync_reconciles in Hrun.
    destruct Hrun as (evs & Htr & Hpatch). exists evs. split; [exact Htr | ].
    intros d e Hin.
    destruct (Hpatch d e Hin)
      as (db & ds & lock & closer & locked & released & Hdb & Hds & -> & Hrec).
    exists st, p, db, ds, [], lock, closer, locked, released.
    split; [exists ds0; split; [exact Hds0 | left; split; [exact Hc | reflexivity]] | ].
    split; [exact Hdb | split; [exact Hds | ]].
    split; [symmetry; apply app_nil_r | split; [reflexivity | exact Hrec]].
  - unfold mbind at 1, M_bind.
    destruct (getOrCreate th destinationName dataSchema st)
      as [[[p | ] [err | ]] st1 | | ] eqn:Hcreate; try discriminate.
    + intros Hrun. inversion Hrun; subst; clear Hrun.
      apply getOrCreate_no_patch in Hcreate.
      destruct Hcreate as (evs & Htr & Hnone). exists evs. split; [exact Htr | ].
      intros d e Hin. exfalso. exact (Hnone d e Hin).
    + pose proof Hcreate as Hcreated. apply getOrCreate_no_patch in Hcreate.
      destruct Hcreate as (evs1 & Htr1 & Hnone).
      unfold mbind at 1, M_bind, load.
      destruct (heap st1 !! p) as [db0 | ] eqn:Hdb0; [ | discriminate].
      unfold mbind at 1, M_bind, cache.
      intros Hrun. apply EnsureTable_sync_reconciles in Hrun.
      destruct Hrun as (evs & Htr & Hpatch). simpl in Htr.
      exists (evs1 ++ evs).
      split; [rewrite Htr, Htr1, <- app_assoc; reflexivity | ].
      intros d e Hin. apply elem_of_app in Hin. destruct Hin as [Hin | Hin].
      * exfalso. exact (Hnone d e Hin).
      * destruct (Hpatch d e Hin)
          as (db & ds & lock & closer & locked & released & Hdb & Hds & -> & Hrec).
        simpl in Hdb, Hds.
        eexists _, p, db, ds, evs1, lock, closer, locked, released.
        split.
        { exists ds0. split; [exact Hds0 | right]. split; [exact Hc | ].
          exists st1, db0. split; [exact Hcreated | split; [exact Hdb0 | reflexivity]]. }
        simpl. split; [exact Hdb | split; [exact Hds | ]].
        split; [exact Htr1 | split; [reflexivity | exact Hrec]].
    + intros Hrun. inversion Hrun; subst; clear Hrun.
      apply getOrCreate_no_patch in Hcreate.
      destruct Hcreate as (evs & Htr & Hnone). exists evs. split; [exact Htr | ].
      intros d e Hin. exfalso. exact (Hnone d e Hin).
Qed.

(** Two bodies that run alike are released alike. *)
Lemma defer_congr {A} (d : M W unit) (body1 body2 : M W A) st1 st2 :
  body1 st1 = body2 st2 -> defer d body1 st1 = defer d body2 st2.
Proof. intros Hbody. unfold defer, mbind, M_bind. rewrite Hbody. reflexivity. Qed.

(** A cached table with a diff to apply: every run that returns starts
    with [Lock], on the name of the cached schema; the lock refused, that
    is all; the lock granted, the locked section follows, which starts
    with [GetVersion] and patches with a diff reconciled with the cached
    schema and the desired one, and then the release. *)
Lemma EnsureTable_cached_reconciles th destinationName dataSchema st ds p db diff
    r st' :
  heap st !! dataSchema = Some ds ->
  tables st !! Name ds = Some p ->
  heap st !! p = Some db ->
  Diff db ds = Ok diff ->
  Exists diff = true ->
  EnsureTable th destinationName dataSchema st = Done r st' ->
  exists rl evs,
    trace st' = trace st ++ ELock destinationName (Name db) rl :: evs
    /\ (forall err, rl = Failed err -> evs = [] /\ fst r = None /\ snd r <> None)
    /\ (forall lock closer, rl = Ok (lock, closer) ->
          exists locked released,
            evs = locked ++ released
            /\ release_events 5 th lock closer (Name ds) released
            /\ (exists rv evs', locked = EGetVersion destinationName (Name db) rv :: evs')
            /\ forall d e, EPatchTableSchema d e ∈ evs ->
                 reconciled destinationName db ds locked d).
Proof.
  intros Hds Hc Hdb Hdiff Hex.
  destruct (keeper_Lock destinationName (Name db) (world st))
    as [[[lock closer] | err] w1] eqn:Hlock.
  - rewrite (EnsureTable_cached_locks _ _ _ _ _ _ _ _ _ _ _ Hds Hc Hdb Hdiff Hex Hlock).
    intros Hrun. apply defer_unlock_inv in Hrun.
    destruct Hrun as (st1 & released & Hbody & _ & _ & Htr & Hrel).
    apply EnsureTable_locked_reconciles in Hbody; [ | exact Hdiff].
    destruct Hbody as (locked & Htr1 & _ & Hfirst & Hpatch). simpl in Htr1.
    exists (Ok (lock, closer)), (locked ++ released).
    split; [rewrite Htr, Htr1, <- !app_assoc; reflexivity | ].
    split; [intros err Herr; discriminate Herr | ].
    intros lock' closer' Hgranted. inversion Hgranted; subst lock' closer'.
    exists locked, released. split; [reflexivity | ].
    split; [exact Hrel | split; [exact Hfirst | ]].
    intros d e Hin. apply elem_of_app in Hin. destruct Hin as [Hin | Hin].
    + exact (Hpatch d e Hin).
    + exfalso. exact (release_events_no_patch _ _ _ _ _ _ _ _ Hrel Hin).
  - unfold EnsureTable.
    erewrite bind_Done by (apply load_eq; exact Hds).
    unfold mbind at 1, M_bind, cached. rewrite Hc. unfold EnsureTable_sync.
    erewrite bind_Done by (apply load_eq; exact Hdb).
    erewrite bind_Done by (apply load_eq; exact Hds).
    rewrite Hdiff, Hex. simpl.
    erewrite bind_Done by (apply perform_eq; exact Hlock).
    intros Hrun. inversion Hrun; subst; clear Hrun. simpl.
    exists (Failed err), []. split; [reflexivity | ].
    split; [intros _ _; repeat split; discriminate | intros; discriminate].
Qed.

(** C1: a patch is handed a reconciled diff only.  In every run of
    [EnsureTable], a diff handed to [PatchTableSchema] lies in a locked
    section that starts with [GetVersion], and it is the diff, against the
    desired schema, of a schema that carries the version just read: of the
    very schema the diff check held (the cached one, or the one just got
    or created) if the counter has that schema's version, and of the
    schema fetched again, with the version read, otherwise.

    When [EnsureTable] finds a diff against the cached schema: what a run
    that returns has called starts with [Lock] and, the lock granted, goes
    on with [GetVersion].  If the counter has the cached version, the run
    goes on as the patch step with the diff found, on the cached object.
    If it has another one, the schema is fetched again into a new object
    that adopts the version read, the diff is computed again, of that
    object against the desired schema, and the run goes on as the patch
    step with that diff, on the new object; when that diff is empty the
    call returns the new object after [Lock], [GetVersion],
    [GetTableSchema] and the release, with no patch and no increment. *)
Theorem EnsureTable_reconciles th destinationName dataSchema st :
  (forall r st',
      EnsureTable th destinationName dataSchema st = Done r st' ->
      exists evs,
        trace st' = trace st ++ evs
        /\ forall d e, EPatchTableSchema d e ∈ evs ->
             exists st0 p db ds before lock closer locked released,
               diff_checked th destinationName dataSchema st st0 p
               /\ heap st0 !! p = Some db /\ heap st0 !! dataSchema = Some ds
               /\ trace st0 = trace st ++ before
               /\ evs = before
                        ++ ELock destinationName (Name db) (Ok (lock, closer))
                           :: locked ++ released
               /\ reconciled destinationName db ds locked d)
  /\ (forall ds p db diff,
        heap st !! dataSchema = Some ds ->
        tables st !! Name ds = Some p ->
        heap st !! p = Some db ->
        Diff db ds = Ok diff ->
        Exists diff = true ->
        (forall r st',
            EnsureTable th destinationName dataSchema st = Done r st' ->
            exists rl evs,
              trace st' = trace st ++ ELock destinationName (Name db) rl :: evs
              /\ (forall err, rl = Failed err ->
                    evs = [] /\ fst r = None /\ snd r <> None)
              /\ (forall lock closer, rl = Ok (lock, closer) ->
                    exists locked released,
                      evs = locked ++ released
                      /\ release_events 5 th lock closer (Name ds) released
                      /\ (exists rv evs',
                             locked = EGetVersion destinationName (Name db) rv
                                      :: evs')
                      /\ forall d e, EPatchTableSchema d e ∈ evs ->
                           reconciled destinationName db ds locked d))
        /\ (forall lock closer w1 w2,
              keeper_Lock destinationName (Name db) (world st)
              = (Ok (lock, closer), w1) ->
              keeper_GetVersion destinationName (Name db) w1
              = (Ok (Version db), w2) ->
              EnsureTable th destinationName dataSchema st
              = defer (unlock unlock_depth th lock closer (Name ds) 1)
                  (EnsureTable_patch th destinationName p diff)
                  (mkState (heap st) (tables st) w2
                     (trace st
                      ++ [ELock destinationName (Name db) (Ok (lock, closer));
                          EGetVersion destinationName (Name db)
                            (Ok (Version db))])))
        /\ (forall lock closer w1 ver w2 fetched w3 diff',
              keeper_Lock destinationName (Name db) (world st)
              = (Ok (lock, closer), w1) ->
              keeper_GetVersion destinationName (Name db) w1 = (Ok ver, w2) ->
              ver <> Version db ->
              GetTableSchema (Name ds) w2 = (Ok fetched, w3) ->
              Diff (with_Version fetched ver) ds = Ok diff' ->
              EnsureTable th destinationName dataSchema st
              = defer (unlock unlock_depth th lock closer (Name ds) 1)
                  (EnsureTable_patch th destinationName (fresh (dom (heap st)))
                     diff')
                  (mkState
                     (<[fresh (dom (heap st)) := with_Version fetched ver]>
                        (heap st))
                     (tables st) w3
                     (trace st
                      ++ [ELock destinationName (Name db) (Ok (lock, closer));
                          EGetVersion destinationName (Name db) (Ok ver);
                          EGetTableSchema (Name ds) (Ok fetched)])))
        /\ (forall lock closer w1 ver w2 fetched w3 diff',
              keeper_Lock destinationName (Name db) (world st)
              = (Ok (lock, closer), w1) ->
              keeper_GetVersion destinationName (Name db) w1 = (Ok ver, w2) ->
              ver <> Version db ->
              GetTableSchema (Name ds) w2 = (Ok fetched, w3) ->
              Diff (with_Version fetched ver) ds = Ok diff' ->
              Exists diff' = false ->
              exists w released,
                EnsureTable th destinationName dataSchema st
                = Done (Some (fresh (dom (heap st))), None)
                    (mkState
                       (<[fresh (dom (heap st)) := with_Version fetched ver]>
                          (heap st))
                       (tables st) w
                       (trace st
                        ++ [ELock destinationName (Name db) (Ok (lock, closer));
                            EGetVersion destinationName (Name db) (Ok ver);
                            EGetTableSchema (Name ds) (Ok fetched)]
                        ++ released))
                /\ release_events 5 th lock closer (Name ds) released)).
Proof.
  split; [intros r st'; apply EnsureTable_patches_reconciled | ].
  intros ds p db diff Hds Hc Hdb Hdiff Hex.
  split; [ | split; [ | split]].
  - intros r st'.
    exact (EnsureTable_cached_reconciles th destinationName dataSchema st ds p db
             diff r st' Hds Hc Hdb Hdiff Hex).
  - intros lock closer w1 w2 Hlock Hver.
    rewrite (EnsureTable_cached_locks _ _ _ _ _ _ _ _ _ _ _ Hds Hc Hdb Hdiff Hex Hlock).
    apply defer_congr.
    erewrite EnsureTable_locked_same_version by (simpl; exact Hver).
    simpl. rewrite <- app_assoc. reflexivity.
  - intros lock closer w1 ver w2 fetched w3 diff' Hlock Hver Hne Hget Hdiff'.
    rewrite (EnsureTable_cached_locks _ _ _ _ _ _ _ _ _ _ _ Hds Hc Hdb Hdiff Hex Hlock).
    apply defer_congr.
    erewrite EnsureTable_locked_refetch by (simpl; eassumption).
    simpl. rewrite <- app_assoc. reflexivity.
  - intros lock closer w1 ver w2 fetched w3 diff' Hlock Hver Hne Hget Hdiff' Hex'.
    rewrite (EnsureTable_cached_locks _ _ _ _ _ _ _ _ _ _ _ Hds Hc Hdb Hdiff Hex Hlock).
    match goal with
    | |- context [defer ?d ?body ?s] =>
        pose proof (defer_unlock_run th lock closer (Name ds) body s) as Hdefer
    end.
    erewrite EnsureTable_locked_refetch in Hdefer by eassumption.
    rewrite EnsureTable_patch_no_diff in Hdefer by exact Hex'.
    destruct Hdefer as (w & released & Hrun & Hrel). simpl in Hrun.
    exists w, released. split; [ | exact Hrel].
    rewrite Hrun. rewrite <- !app_assoc. reflexivity.
Qed.

(** A newly allocated address differs from the allocated ones. *)
Lemma fresh_ne st p t : heap st !! p = Some t -> fresh (dom (heap st)) <> p.
Proof.
  intros Hp Heq. apply (is_fresh (dom (heap st))). rewrite Heq.
  apply elem_of_dom. eauto.
Qed.

(** *** The patch with an unchanged counter *)

(** The loop over the diff's columns overrides and extends. *)
Lemma merge_columns_union (diff cols : gmap string Column) :
  merge_columns diff cols = diff ∪ cols.
Proof.
  unfold merge_columns.
  apply (map_fold_weak_ind (fun r m => r = m ∪ cols)).
  - symmetry. apply (left_id_L ∅ (∪)).
  - intros i x m r _ ->. apply insert_union_l.
Qed.

(** When the counter still has the cached version, the diff is applied,
    the counter incremented once, and columns and version are saved in
    the cached object itself, whose map of columns is allocated. *)
Lemma EnsureTable_cached_patches th destinationName dataSchema st ds p db diff
    lock closer w1 w2 w3 newVersion w4 :
  heap st !! dataSchema = Some ds ->
  tables st !! Name ds = Some p ->
  heap st !! p = Some db ->
  is_Some (ColumnsMap db) ->
  Diff db ds = Ok diff ->
  Exists diff = true ->
  keeper_Lock destinationName (Name db) (world st) = (Ok (lock, closer), w1) ->
  keeper_GetVersion destinationName (Name db) w1 = (Ok (Version db), w2) ->
  PatchTableSchema diff w2 = (None, w3) ->
  keeper_IncrementVersion destinationName (Name db) w3 = (Ok newVersion, w4) ->
  exists w released,
    EnsureTable th destinationName dataSchema st
    = Done (Some p, None)
        (mkState
           (<[p := mkTable (Name db) (Columns diff ∪ Columns db) newVersion]>
              (heap st))
           (tables st) w
           (trace st
            ++ [ELock destinationName (Name db) (Ok (lock, closer));
                EGetVersion destinationName (Name db) (Ok (Version db));
                EPatchTableSchema diff None;
                EIncrementVersion destinationName (Name db) (Ok newVersion)]
            ++ released))
    /\ release_events 5 th lock closer (Name ds) released.
Proof.
  intros Hds Hc Hdb Hmade Hdiff Hex Hlock Hver Hpatch Hinc.
  rewrite (EnsureTable_cached_locks _ _ _ _ _ _ _ _ _ _ _ Hds Hc Hdb Hdiff Hex Hlock).
  match goal with
  | |- context [defer ?d ?body ?s] =>
      pose proof (defer_unlock_run th lock closer (Name ds) body s) as Hdefer
  end.
  erewrite EnsureTable_locked_same_version in Hdefer by eassumption.
  erewrite EnsureTable_patch_applied in Hdefer by eassumption.
  destruct Hdefer as (w & released & Hrun & Hrel). simpl in Hrun.
  exists w, released. split; [ | exact Hrel].
  rewrite Hrun, merge_columns_union, <- !app_assoc. reflexivity.
Qed.

(** *** The patch after a re-fetch *)

(** C2 fails on this path.  When the counter has moved, the schema is
    fetched again into a new object; the diff is applied and the counter
    incremented once.  The map of columns of the fetched schema being
    allocated, the new object, which is returned, gets the merged columns
    and the new version, and the cache is not touched: it still maps the
    table name to the old object, which keeps its old version and lacks
    the columns of the diff.  (Were that map nil and the diff with columns,
    the merge would panic.) *)
Theorem EnsureTable_refetch_leaves_cache_stale th destinationName dataSchema st
    ds p db diff lock closer w1 ver w2 fetched w3 diff' w4 newVersion w5 :
  heap st !! dataSchema = Some ds ->
  tables st !! Name ds = Some p ->
  heap st !! p = Some db ->
  Diff db ds = Ok diff ->
  Exists diff = true ->
  keeper_Lock destinationName (Name db) (world st) = (Ok (lock, closer), w1) ->
  keeper_GetVersion destinationName (Name db) w1 = (Ok ver, w2) ->
  ver <> Version db ->
  GetTableSchema (Name ds) w2 = (Ok fetched, w3) ->
  Diff (with_Version fetched ver) ds = Ok diff' ->
  Exists diff' = true ->
  PatchTableSchema diff' w3 = (None, w4) ->
  keeper_IncrementVersion destinationName (Name fetched) w4 = (Ok newVersion, w5) ->
  (is_Some (ColumnsMap fetched) ->
   exists p' st' released,
     EnsureTable th destinationName dataSchema st = Done (Some p', None) st'
     /\ p' <> p
     /\ heap st' !! p'
        = Some (mkTable (Name fetched) (Columns diff' ∪ Columns fetched) newVersion)
     /\ tables st' !! Name ds = Some p
     /\ heap st' !! p = Some db
     /\ trace st'
        = trace st
          ++ [ELock destinationName (Name db) (Ok (lock, closer));
              EGetVersion destinationName (Name db) (Ok ver);
              EGetTableSchema (Name ds) (Ok fetched);
              EPatchTableSchema diff' None;
              EIncrementVersion destinationName (Name fetched) (Ok newVersion)]
          ++ released
     /\ release_events 5 th lock closer (Name ds) released)
  /\ (ColumnsMap fetched = None ->
      Columns diff' <> ∅ ->
      EnsureTable th destinationName dataSchema st = Panic).
Proof.
  intros Hds Hc Hdb Hdiff Hex Hlock Hver Hne Hget Hdiff' Hex' Hpatch Hinc.
  rewrite (EnsureTable_cached_locks _ _ _ _ _ _ _ _ _ _ _ Hds Hc Hdb Hdiff Hex Hlock).
  match goal with
  | |- context [defer ?d ?body ?s] =>
      pose proof (defer_unlock_run th lock closer (Name ds) body s) as Hdefer
  end.
  erewrite EnsureTable_locked_refetch in Hdefer by eassumption.
  split.
  - intros Hmade.
    erewrite EnsureTable_patch_applied in Hdefer;
      [ | exact Hex' | exact Hpatch | simpl; apply lookup_insert_eq | exact Hmade
        | exact Hinc].
    destruct Hdefer as (w & released & Hrun & Hrel). simpl in Hrun.
    pose proof (fresh_ne st p db Hdb) as Hfresh.
    eexists _, _, released. split; [exact Hrun | ]. simpl.
    split; [exact Hfresh | ].
    split; [rewrite lookup_insert_eq, merge_columns_union; reflexivity | ].
    split; [exact Hc | ].
    split; [rewrite !lookup_insert_ne by exact Hfresh; exact Hdb | ].
    split; [rewrite <- !app_assoc; reflexivity | exact Hrel].
  - intros Hnil Hcols.
    erewrite EnsureTable_patch_nil_panics in Hdefer;
      [exact Hdefer | exact Hex' | exact Hpatch | simpl; apply lookup_insert_eq
       | exact Hnil | exact Hcols | exact Hinc].
Qed.

(** *** The get-or-create path *)

Lemma getOrCreate_locked_creates th destinationName dataSchema ds st
    fetched w1 w2 ver w3 :
  heap st !! dataSchema = Some ds ->
  GetTableSchema (Name ds) (world st) = (Ok fetched, w1) ->
  Exists fetched = false ->
  CreateTable ds w1 = (None, w2) ->
  keeper_IncrementVersion destinationName (Name ds) w2 = (Ok ver, w3) ->
  getOrCreate_locked th destinationName dataSchema ds st
  = Done (Some dataSchema, None)
      (mkState
         (<[dataSchema := with_Version ds ver]>
            (<[fresh (dom (heap st)) := fetched]> (heap st)))
         (tables st) w3
         (trace st ++ [EGetTableSchema (Name ds) (Ok fetched);
                       ECreateTable dataSchema None;
                       EIncrementVersion destinationName (Name ds) (Ok ver)])).
Proof.
  intros Hds Hget Hex Hcreate Hinc. unfold getOrCreate_locked.
  erewrite bind_Done by (apply perform_eq; exact Hget). simpl.
  unfold mbind at 1, M_bind, alloc. simpl. rewrite Hex. simpl.
  erewrite bind_Done by (apply perform_eq; exact Hcreate). simpl.
  erewrite bind_Done by (apply perform_eq; exact Hinc). simpl.
  erewrite bind_Done.
  2:{ eapply store_eq. simpl. rewrite lookup_insert_ne; [exact Hds | ].
      eapply fresh_ne. exact Hds. }
  simpl. rewrite <- !app_assoc. reflexivity.
Qed.

(** C10: when the table is not cached, the destination has no such table
    and creating it and incrementing its counter succeed, the get-or-create
    path leaves the pointer [dataSchema] it was given in the cache, under
    the table name; the object behind it is the desired schema with its
    version set to the answer of [IncrementVersion], name and columns as
    they were.  The destination's schema is read once, before the
    creation, and not again.  The rest of [EnsureTable] runs with that
    same pointer as the destination schema, and returns it as soon as the
    diff of the schema against itself is found empty. *)
Theorem EnsureTable_creates_desired th destinationName dataSchema st ds
    lock closer w1 fetched w2 w3 ver w4 :
  heap st !! dataSchema = Some ds ->
  tables st !! Name ds = None ->
  keeper_Lock destinationName (Name ds) (world st) = (Ok (lock, closer), w1) ->
  GetTableSchema (Name ds) w1 = (Ok fetched, w2) ->
  Exists fetched = false ->
  CreateTable ds w2 = (None, w3) ->
  keeper_IncrementVersion destinationName (Name ds) w3 = (Ok ver, w4) ->
  exists st' released,
    heap st' !! dataSchema = Some (with_Version ds ver)
    /\ tables st' = <[Name ds := dataSchema]> (tables st)
    /\ trace st'
       = trace st
         ++ [ELock destinationName (Name ds) (Ok (lock, closer));
             EGetTableSchema (Name ds) (Ok fetched);
             ECreateTable dataSchema None;
             EIncrementVersion destinationName (Name ds) (Ok ver)]
         ++ released
    /\ release_events 5 th lock closer (Name ds) released
    /\ EnsureTable th destinationName dataSchema st
       = EnsureTable_sync th destinationName dataSchema dataSchema st'
    /\ (forall nodiff,
          Diff (with_Version ds ver) (with_Version ds ver) = Ok nodiff ->
          Exists nodiff = false ->
          EnsureTable th destinationName dataSchema st
          = Done (Some dataSchema, None) st').
Proof.
  intros Hds Hc Hlock Hget Hex Hcreate Hinc.
  pose proof (defer_unlock_run th lock closer (Name ds)
                (getOrCreate_locked th destinationName dataSchema ds)
                (mkState (heap st) (tables st) w1
                   (trace st ++ [ELock destinationName (Name ds)
                                   (Ok (lock, closer))]))) as Hdefer.
  erewrite getOrCreate_locked_creates in Hdefer by eassumption.
  destruct Hdefer as (w & released & Hrun & Hrel). simpl in Hrun.
  assert (Hstart : EnsureTable th destinationName dataSchema st
                   = EnsureTable_sync th destinationName dataSchema dataSchema
                       (mkState
                          (<[dataSchema := with_Version ds ver]>
                             (<[fresh (dom (heap st)) := fetched]> (heap st)))
                          (<[Name ds := dataSchema]> (tables st)) w
                          ((trace st
                            ++ [ELock destinationName (Name ds) (Ok (lock, closer))])
                           ++ [EGetTableSchema (Name ds) (Ok fetched);
                               ECreateTable dataSchema None;
                               EIncrementVersion destinationName (Name ds) (Ok ver)]
                           ++ released))).
  { unfold EnsureTable.
    erewrite bind_Done by (apply load_eq; exact Hds).
    unfold mbind at 1, M_bind, cached. rewrite Hc.
    unfold getOrCreate at 1.
    erewrite bind_Done.
    2:{ erewrite bind_Done by (apply load_eq; exact Hds).
        erewrite bind_Done by (apply perform_eq; exact Hlock).
        exact Hrun. }
    simpl.
    erewrite bind_Done by (apply load_eq; simpl; apply lookup_insert_eq).
    unfold mbind at 1, M_bind, cache. simpl. rewrite <- !app_assoc. reflexivity. }
  eexists _, released.
  split; [ | split; [ | split; [ | split; [exact Hrel | split; [exact Hstart | ]]]]].
  - simpl. apply lookup_insert_eq.
  - reflexivity.
  - simpl. rewrite <- !app_assoc. reflexivity.
  - intros nodiff Hdiff Hnodiff. rewrite Hstart. unfold EnsureTable_sync.
    erewrite bind_Done by (apply load_eq; simpl; apply lookup_insert_eq).
    erewrite bind_Done by (apply load_eq; simpl; apply lookup_insert_eq).
    rewrite Hdiff, Hnodiff. reflexivity.
Qed.

(** C3: a call on a cached table whose diff against the desired schema
    is empty returns the cached pointer and leaves the whole state as it
    was: heap, cache, world and trace.  The trace records every call of
    the coordination service and of the table manager, so none is
    made. *)
Theorem EnsureTable_cached_no_diff th destinationName dataSchema st ds p db diff :
  heap st !! dataSchema = Some ds ->
  tables st !! Name ds = Some p ->
  heap st !! p = Some db ->
  Diff db ds = Ok diff ->
  Exists diff = false ->
  EnsureTable th destinationName dataSchema st = Done (Some p, None) st.
Proof.
  intros Hds Hc Hdb Hdiff Hex.
  unfold EnsureTable, EnsureTable_sync. run_step.
  rewrite Hds. simpl. rewrite Hc. simpl. rewrite Hdb, Hds. simpl.
  rewrite Hdiff, Hex. reflexivity.
Qed.

End table_helper_facts.

(* ===================================================================== *)
(** * Objects are never freed *)
(* ===================================================================== *)

Section keeps_heap_facts.
Context {W : Type} `{!MonitorKeeper W} `{!TableManager W} `{!TableOps}.
Implicit Types (st : State W) (th : TableHelper).

Lemma keeps_heap_ret {A} (a : A) : keeps_heap (mret a : M W A).
Proof. intros st r st' Hrun. inversion Hrun; subst. auto. Qed.

Lemma keeps_heap_bind {A B} (m : M W A) (f : A -> M W B) :
  keeps_heap m -> (forall a, keeps_heap (f a)) -> keeps_heap (m ≫= f).
Proof.
  intros Hm Hf st r st' Hrun p Hp. unfold mbind, M_bind in Hrun.
  destruct (m st) as [a st1 | | ] eqn:Hmst; try discriminate.
  eapply Hf; [exact Hrun | ]. eapply Hm; [exact Hmst | exact Hp].
Qed.

Lemma keeps_heap_perform {A} (op : W -> A * W) (ev : A -> Event) :
  keeps_heap (perform op ev).
Proof.
  intros st r st' Hrun p Hp. unfold perform in Hrun.
  destruct (op (world st)). inversion Hrun; subst. exact Hp.
Qed.

Lemma keeps_heap_log (ev : Event) : keeps_heap (log ev : M W unit).
Proof. intros st r st' Hrun p Hp. inversion Hrun; subst. exact Hp. Qed.

Lemma keeps_heap_load p : keeps_heap (load p : M W Table).
Proof.
  intros st r st' Hrun q Hq. unfold load in Hrun.
  destruct (heap st !! p); inversion Hrun; subst. exact Hq.
Qed.

Lemma keeps_heap_store p t : keeps_heap (store p t : M W unit).
Proof.
  intros st r st' Hrun q Hq. unfold store in Hrun.
  destruct (heap st !! p); inversion Hrun; subst. simpl.
  apply lookup_insert_is_Some. destruct (decide (p = q)); auto.
Qed.

Lemma keeps_heap_alloc t : keeps_heap (alloc t : M W loc).
Proof.
  intros st r st' Hrun q Hq. inversion Hrun; subst. simpl.
  apply lookup_insert_is_Some. destruct (decide (fresh (dom (heap st)) = q)); auto.
Qed.

Lemma keeps_heap_cached n : keeps_heap (cached n : M W (option loc)).
Proof. intros st r st' Hrun q Hq. inversion Hrun; subst. exact Hq. Qed.

Lemma keeps_heap_cache n p : keeps_heap (cache n p : M W unit).
Proof. intros st r st' Hrun q Hq. inversion Hrun; subst. exact Hq. Qed.

Lemma keeps_heap_panic {A} : keeps_heap ((fun _ => Panic) : M W A).
Proof. intros st r st' Hrun. discriminate Hrun. Qed.

Lemma keeps_heap_unlock th lock closer tableName :
  keeps_heap (unlock unlock_depth th lock closer tableName 1).
Proof.
  intros st r st' Hrun q Hq.
  destruct (unlock_run th lock closer tableName st) as (w & evs & Hdone & _).
  rewrite Hdone in Hrun. inversion Hrun; subst. exact Hq.
Qed.

Ltac keeps_heap_step :=
  lazymatch goal with
  | |- keeps_heap (@mret _ _ _ _) => apply keeps_heap_ret
  | |- keeps_heap (perform _ _) => apply keeps_heap_perform
  | |- keeps_heap (log _) => apply keeps_heap_log
  | |- keeps_heap (load _) => apply keeps_heap_load
  | |- keeps_heap (store _ _) => apply keeps_heap_store
  | |- keeps_heap (alloc _) => apply keeps_heap_alloc
  | |- keeps_heap (cached _) => apply keeps_heap_cached
  | |- keeps_heap (cache _ _) => apply keeps_heap_cache
  | |- keeps_heap (unlock _ _ _ _ _ _) => apply keeps_heap_unlock
  | |- keeps_heap (fun _ => Panic) => apply keeps_heap_panic
  | |- keeps_heap (defer _ _) => unfold defer
  | |- keeps_heap (_ ≫= _) => apply keeps_heap_bind; [ | intros ?]
  | |- keeps_heap (match ?x with _ => _ end) => destruct x
  end.

Lemma keeps_heap_EnsureTable_patch th destinationName p d :
  keeps_heap (EnsureTable_patch th destinationName p d).
Proof. unfold EnsureTable_patch. repeat keeps_heap_step. Qed.

Lemma keeps_heap_EnsureTable_locked th destinationName p db ds d :
  keeps_heap (EnsureTable_locked th destinationName p db ds d).
Proof.
  unfold EnsureTable_locked.
  repeat first [apply keeps_heap_EnsureTable_patch | keeps_heap_step].
Qed.

Lemma keeps_heap_EnsureTable_sync th destinationName dataSchema p :
  keeps_heap (EnsureTable_sync th destinationName dataSchema p).
Proof.
  unfold EnsureTable_sync.
  repeat first [apply keeps_heap_EnsureTable_locked | keeps_heap_step].
Qed.

Lemma keeps_heap_getOrCreate th destinationName dataSchema :
  keeps_heap (getOrCreate th destinationName dataSchema).
Proof. unfold getOrCreate, getOrCreate_locked. repeat keeps_heap_step. Qed.

Lemma keeps_heap_EnsureTable th destinationName dataSchema :
  keeps_heap (EnsureTable th destinationName dataSchema).
Proof.
  unfold EnsureTable.
  repeat first
    [ apply keeps_heap_EnsureTable_sync
    | apply keeps_heap_getOrCreate
    | keeps_heap_step ].
Qed.

(** A call that returns found its argument allocated. *)
Lemma EnsureTable_allocated th destinationName dataSchema st r st' :
  EnsureTable th destinationName dataSchema st = Done r st' ->
  is_Some (heap st !! dataSchema).
Proof.
  unfold EnsureTable, mbind at 1, M_bind, load.
  destruct (heap st !! dataSchema); [eauto | discriminate].
Qed.

End keeps_heap_facts.

(* ===================================================================== *)
(** * A release that fails does not reach the result *)
(* ===================================================================== *)

Section unlock_is_harmless.
Context {W : Type} `{!MonitorKeeper W} `{!TableManager W} `{!TableOps}.
Implicit Types (st : State W) (th : TableHelper).

(** [getOrCreate] returns what its locked section has computed. *)
Lemma getOrCreate_returns_computed th destinationName dataSchema st ds
    lock closer w1 r st1 :
  heap st !! dataSchema = Some ds ->
  keeper_Lock destinationName (Name ds) (world st) = (Ok (lock, closer), w1) ->
  getOrCreate_locked th destinationName dataSchema ds
    (mkState (heap st) (tables st) w1
       (trace st ++ [ELock destinationName (Name ds) (Ok (lock, closer))]))
  = Done r st1 ->
  exists w released,
    release_events 5 th lock closer (Name ds) released
    /\ getOrCreate th destinationName dataSchema st
       = Done r (mkState (heap st1) (tables st1) w (trace st1 ++ released)).
Proof.
  intros Hds Hlock Hbody.
  pose proof (defer_unlock_run th lock closer (Name ds)
                (getOrCreate_locked th destinationName dataSchema ds)
                (mkState (heap st) (tables st) w1
                   (trace st ++ [ELock destinationName (Name ds)
                                   (Ok (lock, closer))]))) as Hdefer.
  rewrite Hbody in Hdefer. destruct Hdefer as (w & released & Hrun & Hrel).
  exists w, released. split; [exact Hrel | ].
  unfold getOrCreate.
  erewrite bind_Done by (apply load_eq; exact Hds).
  erewrite bind_Done by (apply perform_eq; exact Hlock).
  exact Hrun.
Qed.

(** [EnsureTable] on a table that is not cached goes on with what
    [getOrCreate] returned. *)
Lemma EnsureTable_after_getOrCreate th destinationName dataSchema st ds r st2 :
  heap st !! dataSchema = Some ds ->
  tables st !! Name ds = None ->
  getOrCreate th destinationName dataSchema st = Done r st2 ->
  match r with
  | (_, Some err) =>
      EnsureTable th destinationName dataSchema st = Done (None, Some err) st2
  | (Some p, None) =>
      forall db,
        heap st2 !! p = Some db ->
        EnsureTable th destinationName dataSchema st
        = EnsureTable_sync th destinationName dataSchema p
            (mkState (heap st2) (<[Name db := p]> (tables st2)) (world st2)
               (trace st2))
  | (None, None) => EnsureTable th destinationName dataSchema st = Panic
  end.
Proof.
  intros Hds Hc Hcreate.
  assert (Hstart : EnsureTable th destinationName dataSchema st
                   = match r with
                     | (_, Some err) => mret (None, Some err)
                     | (None, None) => fun _ => Panic
                     | (Some dbTableSchema, None) =>
                         db ← load dbTableSchema;
                         cache (Name db) dbTableSchema;;
                         EnsureTable_sync th destinationName dataSchema
                           dbTableSchema
                     end st2).
  { unfold EnsureTable.
    erewrite bind_Done by (apply load_eq; exact Hds).
    unfold mbind at 1, M_bind, cached. rewrite Hc.
    unfold mbind at 1. rewrite Hcreate. reflexivity. }
  destruct r as [[p | ] [err | ]]; try exact Hstart.
  intros db Hdb. rewrite Hstart.
  erewrite bind_Done by (apply load_eq; exact Hdb). reflexivity.
Qed.

(** C5: the release of the lock returns, after five calls of [Unlock] at
    most, having changed neither the heap nor the cache: either an
    attempt before the sixth succeeds, or five attempts fail and the
    system error is logged with the last failure; the latter is what
    happens when [Unlock] keeps failing.  However the release goes, what
    a locked section has computed is what is returned, with the heap and
    the cache as the section left them.  [getOrCreate] returns what its
    locked section computed, and [EnsureTable] goes on with it: an error
    is returned as it is, a schema is cached and checked against the
    desired one, and returned when there is no diff.  That check, on a
    cached schema or on the one just got, returns the schema at once when
    there is no diff, and otherwise returns what the locked section of the
    patch computed. *)
Theorem unlock_failure_is_harmless th :
  (forall lock closer tableName st,
      exists w evs,
        unlock unlock_depth th lock closer tableName 1 st
        = Done tt (mkState (heap st) (tables st) w (trace st ++ evs))
        /\ release_events 5 th lock closer tableName evs
        /\ ((forall w0, after_unlocks lock closer (world st) w0 ->
                        fst (keeper_Unlock lock closer w0) <> None) ->
            exists errs e,
              length errs = 5%nat /\ last errs = Some e
              /\ evs = unlock_failures lock closer errs
                       ++ [unlock_given_up th tableName e]))
  /\ (forall destinationName dataSchema st ds lock closer w1 r st1,
        heap st !! dataSchema = Some ds ->
        tables st !! Name ds = None ->
        keeper_Lock destinationName (Name ds) (world st) = (Ok (lock, closer), w1) ->
        getOrCreate_locked th destinationName dataSchema ds
          (mkState (heap st) (tables st) w1
             (trace st ++ [ELock destinationName (Name ds) (Ok (lock, closer))]))
        = Done r st1 ->
        exists w released,
          release_events 5 th lock closer (Name ds) released
          /\ getOrCreate th destinationName dataSchema st
             = Done r (mkState (heap st1) (tables st1) w (trace st1 ++ released))
          /\ match r with
             | (_, Some err) =>
                 EnsureTable th destinationName dataSchema st
                 = Done (None, Some err)
                     (mkState (heap st1) (tables st1) w (trace st1 ++ released))
             | (Some p, None) =>
                 forall db,
                   heap st1 !! p = Some db ->
                   EnsureTable th destinationName dataSchema st
                   = EnsureTable_sync th destinationName dataSchema p
                       (mkState (heap st1) (<[Name db := p]> (tables st1)) w
                          (trace st1 ++ released))
                   /\ forall ds1 diff,
                        heap st1 !! dataSchema = Some ds1 ->
                        Diff db ds1 = Ok diff ->
                        Exists diff = false ->
                        EnsureTable th destinationName dataSchema st
                        = Done (Some p, None)
                            (mkState (heap st1) (<[Name db := p]> (tables st1)) w
                               (trace st1 ++ released))
             | (None, None) =>
                 EnsureTable th destinationName dataSchema st = Panic
             end)
  /\ (forall destinationName dataSchema st ds p,
        heap st !! dataSchema = Some ds ->
        tables st !! Name ds = Some p ->
        EnsureTable th destinationName dataSchema st
        = EnsureTable_sync th destinationName dataSchema p st)
  /\ (forall destinationName dataSchema st p db ds diff,
        heap st !! p = Some db ->
        heap st !! dataSchema = Some ds ->
        Diff db ds = Ok diff ->
        (Exists diff = false ->
         EnsureTable_sync th destinationName dataSchema p st
         = Done (Some p, None) st)
        /\ (Exists diff = true ->
            forall lock closer w1 r st1,
              keeper_Lock destinationName (Name db) (world st)
              = (Ok (lock, closer), w1) ->
              EnsureTable_locked th destinationName p db ds diff
                (mkState (heap st) (tables st) w1
                   (trace st
                    ++ [ELock destinationName (Name db) (Ok (lock, closer))]))
              = Done r st1 ->
              exists w released,
                EnsureTable_sync th destinationName dataSchema p st
                = Done r (mkState (heap st1) (tables st1) w
                            (trace st1 ++ released))
                /\ release_events 5 th lock closer (Name ds) released)).
Proof.
  split; [ | split; [ | split]].
  - intros lock closer tableName st.
    destruct (unlock_run_full th lock closer tableName st)
      as (w & evs & Hrun & Hrel & _ & Hnone).
    exists w, evs. split; [exact Hrun | split; [exact Hrel | ]].
    intros Hfail. destruct Hrel as (errs & [[-> _] | (e & Hlast & -> & Hlen)]).
    + destruct Hnone as (w0 & Hw0 & Hans).
      * apply elem_of_app. right. apply list_elem_of_singleton. reflexivity.
      * exfalso. exact (Hfail w0 Hw0 Hans).
    + exists errs, e. repeat split; assumption.
  - intros destinationName dataSchema st ds lock closer w1 r st1
      Hds Hc Hlock Hbody.
    destruct (getOrCreate_returns_computed _ _ _ _ _ _ _ _ _ _ Hds Hlock Hbody)
      as (w & released & Hrel & Hcreate).
    exists w, released. split; [exact Hrel | split; [exact Hcreate | ]].
    pose proof (EnsureTable_after_getOrCreate _ _ _ _ _ _ _ Hds Hc Hcreate) as Hgo.
    destruct r as [[p | ] [err | ]]; try exact Hgo.
    intros db Hdb. split; [exact (Hgo db Hdb) | ].
    intros ds1 diff Hds1 Hdiff Hex. rewrite (Hgo db Hdb). unfold EnsureTable_sync.
    erewrite bind_Done by (apply load_eq; exact Hdb).
    erewrite bind_Done by (apply load_eq; exact Hds1).
    rewrite Hdiff, Hex. reflexivity.
  - intros destinationName dataSchema st ds p Hds Hc. unfold EnsureTable.
    erewrite bind_Done by (apply load_eq; exact Hds).
    unfold mbind at 1, M_bind, cached. rewrite Hc. reflexivity.
  - intros destinationName dataSchema st p db ds diff Hdb Hds Hdiff. split.
    + intros Hex. unfold EnsureTable_sync.
      erewrite bind_Done by (apply load_eq; exact Hdb).
      erewrite bind_Done by (apply load_eq; exact Hds).
      rewrite Hdiff, Hex. reflexivity.
    + intros Hex lock closer w1 r st1 Hlock Hbody.
      pose proof (defer_unlock_run th lock closer (Name ds)
                    (EnsureTable_locked th destinationName p db ds diff)
                    (mkState (heap st) (tables st) w1
                       (trace st ++ [ELock destinationName (Name db)
                                       (Ok (lock, closer))]))) as Hdefer.
      rewrite Hbody in Hdefer. destruct Hdefer as (w & released & Hrun & Hrel).
      exists w, released. split; [ | exact Hrel].
      unfold EnsureTable_sync.
      erewrite bind_Done by (apply load_eq; exact Hdb).
      erewrite bind_Done by (apply load_eq; exact Hds).
      rewrite Hdiff, Hex. simpl.
      erewrite bind_Done by (apply perform_eq; exact Hlock).
      exact Hrun.
Qed.

End unlock_is_harmless.

(* ===================================================================== *)
(** * Properties of the Postgres storage *)
(* ===================================================================== *)

Section postgres_facts.
Context {W : Type} `{!MonitorKeeper W} `{!TableManager W} `{!TableOps}
        `{!PostgresAdapter W} `{!Processor W} `{!Package W}.
Implicit Types (st : State W) (p : Postgres).

(** *** The insertion loops, failures skipped *)

Lemma Store_objects_skip p tx dataSchema objects :
  breakOnError p = false ->
  forall st,
    is_Some (heap st !! dataSchema) ->
    exists w answers,
      length answers = length objects
      /\ Store_objects p tx dataSchema objects st
         = Done None
             (mkState (heap st) (tables st) w
                (trace st
                 ++ concat (zip_with (attempt_events p tx)
                              (map (pair dataSchema) objects) answers))).
Proof.
  intros Hskip. induction objects as [ | object rest IH]; intros st [ds Hds].
  - exists (world st), []. split; [reflexivity | ].
    simpl. rewrite app_nil_r. destruct st; reflexivity.
  - simpl.
    erewrite bind_Done by (apply load_eq; exact Hds).
    destruct (InsertInTransaction tx ds object (world st)) as [answer w1] eqn:Hins.
    erewrite bind_Done by (apply perform_eq; exact Hins).
    destruct answer as [err | ].
    + rewrite Hskip. unfold mbind at 1, M_bind, log. simpl.
      match goal with
      | |- context [Store_objects p tx dataSchema rest ?s] =>
          destruct (IH s) as (w & answers & Hlen & Hrun); [simpl; eauto | ]
      end.
      exists w, (Some err :: answers). split; [simpl; lia | ].
      rewrite Hrun. simpl. rewrite <- !app_assoc. reflexivity.
    + match goal with
      | |- context [Store_objects p tx dataSchema rest ?s] =>
          destruct (IH s) as (w & answers & Hlen & Hrun); [simpl; eauto | ]
      end.
      exists w, (None :: answers). split; [simpl; lia | ].
      rewrite Hrun. simpl. rewrite <- !app_assoc. reflexivity.
Qed.

Lemma Store_rows_skip p tx flatData :
  breakOnError p = false ->
  forall st,
    Forall (fun fdata => is_Some (heap st !! DataSchema fdata)) flatData ->
    exists w answers,
      length answers = length (rows_of flatData)
      /\ Store_rows p tx flatData st
         = Done None
             (mkState (heap st) (tables st) w
                (trace st
                 ++ concat (zip_with (attempt_events p tx)
                              (rows_of flatData) answers))).
Proof.
  intros Hskip. induction flatData as [ | fdata rest IH]; intros st Halloc.
  - exists (world st), []. split; [reflexivity | ].
    simpl. rewrite app_nil_r. destruct st; reflexivity.
  - inversion Halloc as [ | ? ? Hfd Hrest]; subst. simpl.
    destruct (Store_objects_skip p tx (DataSchema fdata) (GetPayload fdata)
                Hskip st Hfd) as (w1 & answers1 & Hlen1 & Hrun1).
    erewrite bind_Done by exact Hrun1. cbv beta iota.
    match goal with
    | |- context [Store_rows p tx rest ?s] =>
        destruct (IH s) as (w & answers & Hlen & Hrun); [exact Hrest | ]
    end.
    exists w, (answers1 ++ answers). split.
    + rewrite !length_app, length_map. lia.
    + rewrite Hrun. simpl.
      rewrite zip_with_app by (rewrite length_map; lia).
      rewrite concat_app, <- !app_assoc. reflexivity.
Qed.

(** *** The insertion loops, breaking on the first failure *)

Lemma Store_objects_break p tx dataSchema objects :
  breakOnError p = true ->
  forall st,
    is_Some (heap st !! dataSchema) ->
    exists w,
      Store_objects p tx dataSchema objects st
      = Done None
          (mkState (heap st) (tables st) w
             (trace st ++ map (inserted tx) (map (pair dataSchema) objects)))
      \/ exists pre object post err rb,
           objects = pre ++ object :: post
           /\ Store_objects p tx dataSchema objects st
              = Done (Some err)
                  (mkState (heap st) (tables st) w
                     (trace st
                      ++ map (inserted tx) (map (pair dataSchema) pre)
                      ++ [EInsertInTransaction tx dataSchema object (Some err);
                          ERollback tx rb])).
Proof.
  intros Hbreak. induction objects as [ | object rest IH]; intros st [ds Hds].
  - exists (world st). left. simpl. rewrite app_nil_r. destruct st; reflexivity.
  - simpl.
    erewrite bind_Done by (apply load_eq; exact Hds).
    destruct (InsertInTransaction tx ds object (world st)) as [answer w1] eqn:Hins.
    erewrite bind_Done by (apply perform_eq; exact Hins).
    destruct answer as [err | ].
    + rewrite Hbreak.
      destruct (Rollback tx w1) as [rb w2] eqn:Hrb.
      erewrite bind_Done by (apply perform_eq; simpl; exact Hrb).
      exists w2. right. exists [], object, rest, err, rb.
      split; [reflexivity | ]. simpl. rewrite <- !app_assoc. reflexivity.
    + match goal with
      | |- context [Store_objects p tx dataSchema rest ?s] =>
          destruct (IH s)
            as (w & [Hrun | (pre & o & post & err & rb & -> & Hrun)]);
            [simpl; eauto | | ]; exists w
      end.
      * left. rewrite Hrun. simpl. rewrite <- !app_assoc. reflexivity.
      * right. exists (object :: pre), o, post, err, rb.
        split; [reflexivity | ].
        rewrite Hrun. simpl. rewrite <- !app_assoc. reflexivity.
Qed.

Lemma Store_rows_break p tx flatData :
  breakOnError p = true ->
  forall st,
    Forall (fun fdata => is_Some (heap st !! DataSchema fdata)) flatData ->
    exists w,
      Store_rows p tx flatData st
      = Done None
          (mkState (heap st) (tables st) w
             (trace st ++ map (inserted tx) (rows_of flatData)))
      \/ exists pre row post err rb,
           rows_of flatData = pre ++ row :: post
           /\ Store_rows p tx flatData st
              = Done (Some err)
                  (mkState (heap st) (tables st) w
                     (trace st
                      ++ map (inserted tx) pre
                      ++ [EInsertInTransaction tx (fst row) (snd row) (Some err);
                          ERollback tx rb])).
Proof.
  intros Hbreak. induction flatData as [ | fdata rest IH]; intros st Halloc.
  - exists (world st). left. simpl. rewrite app_nil_r. destruct st; reflexivity.
  - inversion Halloc as [ | ? ? Hfd Hrest]; subst. simpl.
    destruct (Store_objects_break p tx (DataSchema fdata) (GetPayload fdata)
                Hbreak st Hfd)
      as (w1 & [Hrun1 | (pre & o & post & err & rb & Hsplit & Hrun1)]).
    + erewrite bind_Done by exact Hrun1. cbv beta iota.
      match goal with
      | |- context [Store_rows p tx rest ?s] =>
          destruct (IH s)
            as (w & [Hrun | (pre & row & post & err & rb & Hsplit & Hrun)]);
            [exact Hrest | | ]; exists w
      end.
      * left. rewrite Hrun. simpl. rewrite map_app, <- !app_assoc. reflexivity.
      * right.
        exists (map (pair (DataSchema fdata)) (GetPayload fdata) ++ pre),
          row, post, err, rb.
        split; [rewrite Hsplit, <- app_assoc; reflexivity | ].
        rewrite Hrun. simpl. rewrite map_app, <- !app_assoc. reflexivity.
    + erewrite bind_Done by exact Hrun1. cbv beta iota.
      exists w1. right.
      exists (map (pair (DataSchema fdata)) pre), (DataSchema fdata, o),
        (map (pair (DataSchema fdata)) post ++ rows_of rest), err, rb.
      split; [rewrite Hsplit, map_app, <- app_assoc; reflexivity | reflexivity].
Qed.

(** *** The schema loop *)

Lemma keeps_heap_Store_tables p flatData : keeps_heap (Store_tables p flatData).
Proof.
  induction flatData as [ | fdata rest IH]; simpl.
  - apply keeps_heap_ret.
  - apply keeps_heap_bind; [apply keeps_heap_EnsureTable | intros [[db | ] [err | ]]];
      try apply keeps_heap_ret; try apply keeps_heap_panic.
    apply keeps_heap_bind; [apply keeps_heap_load | intros t].
    apply keeps_heap_bind; [apply keeps_heap_perform | intros [rows [err | ]]];
      try apply keeps_heap_ret.
    apply keeps_heap_bind; [exact IH | intros r; apply keeps_heap_ret].
Qed.

(** The groups leave the schema loop with their schema pointers, all
    allocated. *)
Lemma Store_tables_allocated p flatData :
  forall st flatData' st',
    Store_tables p flatData st = Done (flatData', None) st' ->
    map DataSchema flatData' = map DataSchema flatData
    /\ Forall (fun fdata => is_Some (heap st' !! DataSchema fdata)) flatData'.
Proof.
  induction flatData as [ | fdata rest IH]; intros st flatData' st' Hrun.
  - inversion Hrun; subst. split; [reflexivity | constructor].
  - pose proof (keeps_heap_Store_tables p rest) as Hkeep.
    simpl in Hrun. unfold mbind at 1, M_bind in Hrun.
    destruct (EnsureTable (tableHelper p) (Postgres_Name p) (DataSchema fdata) st)
      as [[[dbSchema | ] [err | ]] st1 | | ] eqn:Hensure; try discriminate.
    pose proof (EnsureTable_allocated _ _ _ _ _ _ Hensure) as Halloc.
    apply (keeps_heap_EnsureTable _ _ _ _ _ _ Hensure) in Halloc.
    unfold mbind at 1, M_bind, load in Hrun.
    destruct (heap st1 !! dbSchema) as [db | ]; try discriminate.
    unfold mbind at 1, M_bind, perform in Hrun.
    destruct (ApplyDBTyping db fdata (world st1)) as [[rows [err | ]] w2];
      try discriminate.
    unfold mbind, M_bind in Hrun.
    match type of Hrun with
    | context [Store_tables p rest ?s] =>
        destruct (Store_tables p rest s) as [[rest' e] st2 | | ] eqn:Hrest;
          try discriminate
    end.
    inversion Hrun; subst; clear Hrun. simpl in *.
    destruct (IH _ _ _ Hrest) as [Hmap Hall].
    split; [simpl; rewrite Hmap; reflexivity | ].
    constructor; [ | exact Hall]. simpl.
    eapply Hkeep; [exact Hrest | exact Halloc].
Qed.

(** The count of line 66-69 is the number of rows in the groups. *)
Lemma rowsCount_of_rows flatData :
  rowsCount_of flatData = Z.of_nat (length (rows_of flatData)).
Proof.
  unfold rowsCount_of.
  assert (Hacc : forall n, fold_left (fun rowsCount fdata =>
                                        rowsCount + GetPayloadLen fdata) flatData n
                           = n + Z.of_nat (length (rows_of flatData))).
  { induction flatData as [ | fdata rest IH]; intros n; simpl; [lia | ].
    rewrite IH, length_app, length_map. unfold GetPayloadLen, GetPayload. lia. }
  apply Hacc.
Qed.

(** C4: once the groups are processed, their tables ensured and the
    transaction opened, [Store] returns the count of all rows of the
    groups in either mode.  With [breakOnError] set and a row refused,
    the rows before it were inserted, the refused row is followed by
    [Rollback] and by nothing else (no further insert, no commit), and the
    error returned is the one of that row; with no row refused all rows
    are inserted and the commit's answer is returned.  With
    [breakOnError] not set every row is attempted, in order, each refused
    one followed by its warning, then the transaction is committed and
    the commit's answer returned with the same count, refused rows
    included. *)
Theorem Store_on_insert_failure p fileName payload st flatData w1 flatData' st2
    tx w3 :
  ProcessFilePayload fileName payload (breakOnError p) (world st)
  = (Ok flatData, w1) ->
  Store_tables p flatData
    (mkState (heap st) (tables st) w1
       (trace st ++ [EProcessFilePayload fileName payload (breakOnError p)
                       (Ok flatData)]))
  = Done (flatData', None) st2 ->
  OpenTx (world st2) = (Ok tx, w3) ->
  let rows := rows_of flatData' in
  let opened := trace st2 ++ [EOpenTx (Ok tx)] in
  rowsCount_of flatData = Z.of_nat (length (rows_of flatData))
  /\ (breakOnError p = true ->
      exists w,
        (exists pre row post err rb,
            rows = pre ++ row :: post
            /\ Store p fileName payload st
               = Done (rowsCount_of flatData, Some err)
                   (mkState (heap st2) (tables st2) w
                      (opened ++ map (inserted tx) pre
                       ++ [EInsertInTransaction tx (fst row) (snd row) (Some err);
                           ERollback tx rb])))
        \/ (exists e,
               Store p fileName payload st
               = Done (rowsCount_of flatData, e)
                   (mkState (heap st2) (tables st2) w
                      (opened ++ map (inserted tx) rows ++ [EDirectCommit tx e]))))
  /\ (breakOnError p = false ->
      exists w answers e,
        length answers = length rows
        /\ Store p fileName payload st
           = Done (rowsCount_of flatData, e)
               (mkState (heap st2) (tables st2) w
                  (opened ++ concat (zip_with (attempt_events p tx) rows answers)
                   ++ [EDirectCommit tx e]))).
Proof.
  intros Hprocess Htables Hopen rows opened.
  split; [apply rowsCount_of_rows | ].
  destruct (Store_tables_allocated _ _ _ _ _ Htables) as [_ Halloc].
  assert (Hstore : Store p fileName payload st
                   = (e ← Store_rows p tx flatData';
                      match e with
                      | Some err => mret (rowsCount_of flatData, Some err)
                      | None =>
                          e ← perform (DirectCommit tx) (EDirectCommit tx);
                          mret (rowsCount_of flatData, e)
                      end)
                       (mkState (heap st2) (tables st2) w3 opened)).
  { unfold Store.
    erewrite bind_Done by (apply perform_eq; exact Hprocess). cbv beta iota zeta.
    erewrite bind_Done by exact Htables. cbv beta iota.
    erewrite bind_Done by (apply perform_eq; exact Hopen). reflexivity. }
  rewrite Hstore. split.
  - intros Hbreak.
    destruct (Store_rows_break p tx flatData' Hbreak
                (mkState (heap st2) (tables st2) w3 opened) Halloc)
      as (w & [Hrun | (pre & row & post & err & rb & Hsplit & Hrun)]).
    + erewrite bind_Done by exact Hrun. cbv beta iota.
      destruct (DirectCommit tx w) as [e w'] eqn:Hcommit.
      erewrite bind_Done by (apply perform_eq; simpl; exact Hcommit).
      exists w'. right. exists e. simpl. rewrite <- !app_assoc. reflexivity.
    + erewrite bind_Done by exact Hrun. cbv beta iota.
      exists w. left. exists pre, row, post, err, rb.
      split; [exact Hsplit | reflexivity].
  - intros Hskip.
    destruct (Store_rows_skip p tx flatData' Hskip
                (mkState (heap st2) (tables st2) w3 opened) Halloc)
      as (w & answers & Hlen & Hrun).
    erewrite bind_Done by exact Hrun. cbv beta iota.
    destruct (DirectCommit tx w) as [e w'] eqn:Hcommit.
    erewrite bind_Done by (apply perform_eq; simpl; exact Hcommit).
    exists w', answers, e. split; [exact Hlen | ].
    simpl. rewrite <- !app_assoc. reflexivity.
Qed.

(** *** Closing *)

(** [Close] when the connection closes: the worker, if there is one, is
    stopped; what stopping it answers is dropped. *)
Lemma Close_connection_closed p st w1 :
  adapter_Close (world st) = (None, w1) ->
  exists w,
    Close p st
    = Done None
        (mkState (heap st) (tables st) w
           (trace st
            ++ EAdapterClose None
               :: match streamingWorker p with
                  | Some worker =>
                      [EWorkerClose worker (fst (worker_Close worker w1))]
                  | None => []
                  end)).
Proof.
  intros Hclose. unfold Close.
  erewrite bind_Done by (apply perform_eq; exact Hclose). cbv beta iota.
  destruct (streamingWorker p) as [worker | ].
  - destruct (worker_Close worker w1) as [e w] eqn:Hworker.
    erewrite bind_Done by (apply perform_eq; simpl; exact Hworker).
    exists w. simpl. rewrite <- app_assoc. reflexivity.
  - exists w1. reflexivity.
Qed.

(** C6 fails on the code.  When closing the connection fails, [Close]
    returns that error, wrapped, at once: the only call made is the
    adapter's [Close], and a running streaming worker is not stopped. *)
Theorem Close_stops_at_connection_failure p st err w1 :
  adapter_Close (world st) = (Some err, w1) ->
  Close p st
  = Done (Some (Errorf "[%s] Error closing postgres datasource: %v"
                  [ArgString (Postgres_Name p); ArgError err]))
      (mkState (heap st) (tables st) w1 (trace st ++ [EAdapterClose (Some err)])).
Proof.
  intros Hclose. unfold Close.
  erewrite bind_Done by (apply perform_eq; exact Hclose). reflexivity.
Qed.

End postgres_facts.

(* ===================================================================== *)
(** * The table helper on the in-memory destination *)
(* ===================================================================== *)

Section table_helper_runs.
Import memory.

(** A cached table that covers the desired columns: nothing is called. *)
Lemma EnsureTable_cached_no_diff_witness :
  EnsureTable helper "dest" 1%positive st_covered
  = Done (Some 2%positive, None) st_covered.
Proof.
  eapply (EnsureTable_cached_no_diff helper "dest" 1%positive st_covered
            desired 2%positive (table "events" [col_a; col_b; col_c] 4)).
  - reflexivity.
  - reflexivity.
  - reflexivity.
  - reflexivity.
  - vm_compute. reflexivity.
Defined.

(** Another process has already added the missing column: the counter
    read under the lock is 2, the cached version 1; the schema fetched
    again covers the desired columns and is returned, nothing is
    patched. *)
Lemma EnsureTable_reconciles_witness :
  exists w released,
    EnsureTable helper "dest" 1%positive (st_behind [col_a; col_b])
    = Done (Some 3%positive, None)
        (mkState
           (<[3%positive := table "events" [col_a; col_b] 2]>
              (heap (st_behind [col_a; col_b])))
           (tables (st_behind [col_a; col_b])) w
           ([ELock "dest" "events" (Ok (1, 1));
             EGetVersion "dest" "events" (Ok 2);
             EGetTableSchema "events" (Ok (table "events" [col_a; col_b] 0))]
            ++ released))
    /\ release_events 5 helper 1 1 "events" released.
Proof.
  refine (proj2 (proj2 (proj2
            (proj2 (EnsureTable_reconciles helper "dest" 1%positive
                      (st_behind [col_a; col_b]))
               desired 2%positive
               (table "events" [col_a] 1)
               (mkTable "events" (Columns desired ∖ list_to_map [col_a]) 0)
               _ _ _ _ _)))
            1 1 (world (st_behind [col_a; col_b])) 2
            (world (st_behind [col_a; col_b]))
            (table "events" [col_a; col_b] 0)
            (world (st_behind [col_a; col_b]))
            (mkTable "events" (Columns desired ∖ list_to_map [col_a; col_b]) 0)
            _ _ _ _ _ _);
    try reflexivity; try (vm_compute; congruence).
Defined.

(** The failing input of C2: the destination has got a column [c]
    meanwhile, [b] is still missing.  [b] is patched in, the counter goes
    from 2 to 3, and the schema returned (pointer [3]) has the three
    columns at version 3; the cache keeps pointer [2], at version 1 with
    column [a] alone. *)
Lemma EnsureTable_refetch_leaves_cache_stale_witness :
  exists p' st' released,
    EnsureTable helper "dest" 1%positive (st_behind [col_a; col_c])
    = Done (Some p', None) st'
    /\ p' <> 2%positive
    /\ heap st' !! p'
       = Some (mkTable "events"
                 (Columns (table "events" [col_b] 0)
                  ∪ Columns (table "events" [col_a; col_c] 0)) 3)
    /\ tables st' !! "events" = Some 2%positive
    /\ heap st' !! 2%positive = Some (table "events" [col_a] 1)
    /\ trace st'
       = [ELock "dest" "events" (Ok (1, 1));
          EGetVersion "dest" "events" (Ok 2);
          EGetTableSchema "events" (Ok (table "events" [col_a; col_c] 0));
          EPatchTableSchema (table "events" [col_b] 0) None;
          EIncrementVersion "dest" "events" (Ok 3)]
         ++ released
    /\ release_events 5 helper 1 1 "events" released.
Proof.
  refine (proj1 (EnsureTable_refetch_leaves_cache_stale helper "dest" 1%positive
                   (st_behind [col_a; col_c]) desired 2%positive
                   (table "events" [col_a] 1)
                   (mkTable "events" (Columns desired ∖ list_to_map [col_a]) 0)
                   1 1 (world (st_behind [col_a; col_c])) 2
                   (world (st_behind [col_a; col_c]))
                   (table "events" [col_a; col_c] 0)
                   (world (st_behind [col_a; col_c]))
                   (table "events" [col_b] 0)
                   _ 3 _
                   _ _ _ _ _ _ _ _ _ _ _ _ _) _);
    try reflexivity; try (vm_compute; congruence); try (simpl; eauto).
Defined.

Example EnsureTable_stale_cache_run :
  exists st',
    EnsureTable helper "dest" 1%positive (st_behind [col_a; col_c])
    = Done (Some 3%positive, None) st'
    /\ tables st' !! "events" = Some 2%positive
    /\ Version <$> heap st' !! 2%positive = Some 1
    /\ Version <$> heap st' !! 3%positive = Some 3
    /\ dom <$> (Columns <$> heap st' !! 2%positive) = Some {["a"]}
    /\ dom <$> (Columns <$> heap st' !! 3%positive) = Some {["a"; "b"; "c"]}.
Proof. eexists. split; [vm_compute; reflexivity | ]. vm_compute. auto 10. Qed.

(** Nothing cached and no table at the destination: the table is created
    and the desired schema itself, at version 1, is cached and returned. *)
Lemma EnsureTable_creates_desired_witness :
  exists st' released,
    heap st' !! 1%positive = Some (mkTable "events" (Columns desired) 1)
    /\ tables st' = <["events" := 1%positive]> ∅
    /\ trace st'
       = [ELock "dest" "events" (Ok (1, 1));
          EGetTableSchema "events" (Ok (mkTable "events" ∅ 0));
          ECreateTable 1%positive None;
          EIncrementVersion "dest" "events" (Ok 1)]
         ++ released
    /\ release_events 5 helper 1 1 "events" released
    /\ EnsureTable helper "dest" 1%positive st_empty = Done (Some 1%positive, None) st'.
Proof.
  destruct (fun H1 H2 H3 H4 H5 H6 H7 =>
              EnsureTable_creates_desired helper "dest" 1%positive st_empty desired
                1 1 (world st_empty) (mkTable "events" ∅ 0) (world st_empty)
                (mkWorld ∅ (<["events" := desired]> ∅) [] false false) 1
                (mkWorld (<["events" := 1]> ∅) (<["events" := desired]> ∅)
                   [] false false)
                H1 H2 H3 H4 H5 H6 H7)
    as (st' & released & Hheap & Htables & Htrace & Hrel & _ & Hreturn);
    try reflexivity.
  exists st', released.
  split; [exact Hheap | split; [exact Htables | split; [exact Htrace | ]]].
  split; [exact Hrel | ].
  apply (Hreturn (mkTable "events" ∅ 0)); reflexivity.
Defined.

Lemma after_unlocks_same_switch lock closer (w w0 : World) :
  after_unlocks lock closer w w0 -> unlock_fails w0 = unlock_fails w.
Proof. induction 1 as [ | w1 w2 _ IH]; [reflexivity | exact IH]. Qed.

(** A coordination service that never releases a lock: five attempts and
    the logged line; the patched schema is returned all the same; on a
    first reference the schema just read is cached and checked, and
    returned when it covers the desired one. *)
Lemma unlock_failure_is_harmless_witness :
  (exists w evs errs e,
      unlock unlock_depth helper 1 1 "events" 1 st_stuck
      = Done tt (mkState (heap st_stuck) (tables st_stuck) w (trace st_stuck ++ evs))
      /\ length errs = 5%nat /\ last errs = Some e
      /\ evs = unlock_failures 1 1 errs ++ [unlock_given_up helper "events" e])
  /\ (exists w released,
        EnsureTable helper "dest" 1%positive st_stuck
        = Done (Some 2%positive, None)
            (mkState (heap st_stuck_patched) (tables st_stuck_patched) w
               (trace st_stuck_patched ++ released))
        /\ release_events 5 helper 1 1 "events" released)
  /\ (exists w released,
        release_events 5 helper 1 1 "events" released
        /\ getOrCreate helper "dest" 1%positive (st_stuck_first [col_a])
           = Done (Some 2%positive, None)
               (mkState (heap (st_stuck_adopted [col_a]))
                  (tables (st_stuck_adopted [col_a])) w
                  (trace (st_stuck_adopted [col_a]) ++ released))
        /\ EnsureTable helper "dest" 1%positive (st_stuck_first [col_a])
           = EnsureTable_sync helper "dest" 1%positive 2%positive
               (mkState (heap (st_stuck_adopted [col_a]))
                  (<["events" := 2%positive]> ∅) w
                  (trace (st_stuck_adopted [col_a]) ++ released)))
  /\ (exists w released,
        release_events 5 helper 1 1 "events" released
        /\ EnsureTable helper "dest" 1%positive (st_stuck_first [col_a; col_b])
           = Done (Some 2%positive, None)
               (mkState (heap (st_stuck_adopted [col_a; col_b]))
                  (<["events" := 2%positive]> ∅) w
                  (trace (st_stuck_adopted [col_a; col_b]) ++ released))).
Proof.
  destruct (unlock_failure_is_harmless helper)
    as (Hbound & Hfirst & Hcached & Hsync).
  split; [ | split; [ | split]].
  - destruct (Hbound 1 1 "events" st_stuck) as (w & evs & Hrun & _ & Hfail).
    destruct Hfail as (errs & e & Hlen & Hlast & Hevs).
    + intros w0 Hw0.
      apply after_unlocks_same_switch in Hw0.
      simpl. rewrite Hw0. discriminate.
    + exists w, evs, errs, e. repeat split; assumption.
  - rewrite (Hcached "dest" 1%positive st_stuck desired 2%positive)
      by reflexivity.
    destruct (fun H1 H2 H3 =>
                Hsync "dest" 1%positive st_stuck 2%positive
                  (table "events" [col_a] 1) desired
                  (mkTable "events" (Columns desired ∖ list_to_map [col_a]) 0)
                  H1 H2 H3) as [_ Hdiff]; try reflexivity.
    apply (Hdiff ltac:(reflexivity) 1 1 (world st_stuck) (Some 2%positive, None)
             st_stuck_patched); reflexivity.
  - destruct (Hfirst "dest" 1%positive (st_stuck_first [col_a]) desired 1 1
                (world (st_stuck_first [col_a])) (Some 2%positive, None)
                (st_stuck_adopted [col_a]))
      as (w & released & Hrel & Hcreate & Hgo); try reflexivity.
    exists w, released. split; [exact Hrel | split; [exact Hcreate | ]].
    apply (Hgo (table "events" [col_a] 3)). reflexivity.
  - destruct (Hfirst "dest" 1%positive (st_stuck_first [col_a; col_b]) desired 1 1
                (world (st_stuck_first [col_a; col_b])) (Some 2%positive, None)
                (st_stuck_adopted [col_a; col_b]))
      as (w & released & Hrel & _ & Hgo); try reflexivity.
    exists w, released. split; [exact Hrel | ].
    apply (proj2 (Hgo (table "events" [col_a; col_b] 3) ltac:(reflexivity))
             desired (mkTable "events" ∅ 0)); reflexivity.
Defined.

Example EnsureTable_stuck_run :
  exists st',
    EnsureTable helper "dest" 1%positive st_stuck = Done (Some 2%positive, None) st'
    /\ Version <$> heap st' !! 2%positive = Some 2
    /\ trace st'
       = [ELock "dest" "events" (Ok (1, 1));
          EGetVersion "dest" "events" (Ok 1);
          EPatchTableSchema (table "events" [col_b] 0) None;
          EIncrementVersion "dest" "events" (Ok 2)]
         ++ unlock_failures 1 1 (replicate 5 (failure "unlock"))
         ++ [unlock_given_up helper "events" (failure "unlock")].
Proof. eexists. split; [vm_compute; reflexivity | ]. vm_compute. auto. Qed.

End table_helper_runs.

(* ===================================================================== *)
(** * The Postgres storage on the in-memory destination *)
(* ===================================================================== *)

Section postgres_runs.
Import memory.

(** Five rows, the second refused.  Breaking on error: one row inserted,
    the refused one, the rollback.  Skipping: five attempts, one warning,
    the commit.  The count is 5 both times. *)
Lemma Store_on_insert_failure_witness :
  (exists w,
      (exists pre row post err rb,
          rows_of batch = pre ++ row :: post
          /\ Store (postgres true None) "file" [] st_batch
             = Done (5, Some err)
                 (mkState (heap st_batch) (tables st_batch) w
                    ((trace (st_batch_typed true) ++ [EOpenTx (Ok 7)])
                     ++ map (inserted 7) pre
                     ++ [EInsertInTransaction 7 (fst row) (snd row) (Some err);
                         ERollback 7 rb])))
      \/ (exists e,
             Store (postgres true None) "file" [] st_batch
             = Done (5, e)
                 (mkState (heap st_batch) (tables st_batch) w
                    ((trace (st_batch_typed true) ++ [EOpenTx (Ok 7)])
                     ++ map (inserted 7) (rows_of batch)
                     ++ [EDirectCommit 7 e]))))
  /\ (exists w answers e,
        length answers = 5%nat
        /\ Store (postgres false None) "file" [] st_batch
           = Done (5, e)
               (mkState (heap st_batch) (tables st_batch) w
                  ((trace (st_batch_typed false) ++ [EOpenTx (Ok 7)])
                   ++ concat (zip_with (attempt_events (postgres false None) 7)
                                (rows_of batch) answers)
                   ++ [EDirectCommit 7 e]))).
Proof.
  split.
  - refine (proj1 (proj2 (Store_on_insert_failure (postgres true None) "file" []
                            st_batch batch (world st_batch) batch
                            (st_batch_typed true) 7 (world st_batch)
                            _ _ _)) _);
      reflexivity.
  - refine (proj2 (proj2 (Store_on_insert_failure (postgres false None) "file" []
                            st_batch batch (world st_batch) batch
                            (st_batch_typed false) 7 (world st_batch)
                            _ _ _)) _);
      reflexivity.
Defined.

Example Store_break_run :
  exists st',
    Store (postgres true None) "file" [] st_batch
    = Done (5, Some (failure "insert")) st'
    /\ trace st'
       = trace (st_batch_typed true)
         ++ [EOpenTx (Ok 7);
             EInsertInTransaction 7 1%positive (row 1) None;
             EInsertInTransaction 7 1%positive bad_row (Some (failure "insert"));
             ERollback 7 None].
Proof. eexists. split; [vm_compute; reflexivity | ]. vm_compute. reflexivity. Qed.

Example Store_skip_run :
  exists st',
    Store (postgres false None) "file" [] st_batch = Done (5, None) st'
    /\ trace st'
       = trace (st_batch_typed false)
         ++ [EOpenTx (Ok 7);
             EInsertInTransaction 7 1%positive (row 1) None;
             EInsertInTransaction 7 1%positive bad_row (Some (failure "insert"));
             skipped_warning (postgres false None) bad_row (failure "insert");
             EInsertInTransaction 7 1%positive (row 3) None;
             EInsertInTransaction 7 1%positive (row 4) None;
             EInsertInTransaction 7 1%positive (row 5) None;
             EDirectCommit 7 None].
Proof. eexists. split; [vm_compute; reflexivity | ]. vm_compute. reflexivity. Qed.

Example Insert_run :
  exists st',
    Insert (postgres true None) 1%positive (row 1) (st_behind [col_a; col_b])
    = Done None st'
    /\ trace st'
       = [ELock "dest" "events" (Ok (1, 1));
          EGetVersion "dest" "events" (Ok 2);
          EGetTableSchema "events" (Ok (table "events" [col_a; col_b] 0));
          EUnlock 1 1 None;
          EApplyDBTypingToObject 3%positive (row 1) None;
          EInsert 1%positive (row 1) None].
Proof. eexists. split; [vm_compute; reflexivity | ]. vm_compute. reflexivity. Qed.

(** The failing input of C6: a storage with a running streaming worker
    whose connection fails to close.  [Close] returns the wrapped error
    after the one call; the worker is not stopped. *)
Lemma Close_stops_at_connection_failure_witness :
  Close (postgres true (Some 9)) st_closing
  = Done (Some (Errorf "[%s] Error closing postgres datasource: %v"
                  [ArgString "dest"; ArgError (failure "close")]))
      (mkState ∅ ∅ (world st_closing) [EAdapterClose (Some (failure "close"))]).
Proof.
  apply (Close_stops_at_connection_failure (postgres true (Some 9)) st_closing
           (failure "close") (world st_closing)).
  reflexivity.
Defined.

End postgres_runs.


(* ===================================================================== *)
(** * Further properties of package [typing] *)
(* ===================================================================== *)

Section typing_more.
Import typing.

(** X1: the two tables are inverse to each other: a name is mapped to a
    data type exactly when that data type is mapped back to the name. *)
Theorem type_tables_inverse (n : string) (dt : DataType) :
  inputStringToType !! n = Some dt <-> typeToInputString !! dt = Some n.
Proof.
  rewrite inputStringToType_lookup, typeToInputString_lookup.
  unfold STRING, INT64, FLOAT64, TIMESTAMP.
  split; intros Hlookup;
    repeat (case_decide; simplify_eq; try reflexivity; try discriminate).
Qed.

(** X2: from a data type back to itself: every data type with an external
    name is given a name that [TypeFromString] reads back as that data
    type, provided trimming and lower-casing leave the four names as they
    are (they are trimmed and in lower case already). *)
Theorem StringFromType_TypeFromString `{GoStrings} (dt : DataType) :
  (forall n, n ∈ external_names -> ToLower (TrimSpace n) = n) ->
  dt ∈ named_types ->
  exists n,
    StringFromType dt = (n, None) /\ n ∈ external_names
    /\ TypeFromString n = (dt, None).
Proof.
  intros Hfixed. unfold named_types. rewrite !elem_of_cons, elem_of_nil.
  intros [-> | [-> | [-> | [-> | []]]]];
    eexists; (split; [reflexivity | ]);
    (split; [unfold external_names; rewrite !elem_of_cons; tauto | ]);
    unfold TypeFromString;
    (rewrite Hfixed by (unfold external_names; rewrite !elem_of_cons; tauto));
    reflexivity.
Qed.

Lemma StringFromType_TypeFromString_witness :
  exists n,
    StringFromType FLOAT64 = (n, None) /\ n ∈ external_names
    /\ @TypeFromString ascii_strings n = (FLOAT64, None).
Proof.
  apply (@StringFromType_TypeFromString ascii_strings FLOAT64).
  - intros n. unfold external_names. rewrite !elem_of_cons, elem_of_nil.
    intros [-> | [-> | [-> | [-> | []]]]]; reflexivity.
  - unfold named_types. rewrite !elem_of_cons. right. left. reflexivity.
Defined.

(** X3: the three functions keep value and error apart: [TypeFromString]
    and [TypeFromValue] answer [UNKNOWN] exactly when they answer an error,
    [StringFromType] the empty string exactly when it answers an error. *)
Theorem typing_error_iff_zero_value `{GoStrings} :
  (forall s, snd (TypeFromString s) = None <-> fst (TypeFromString s) <> UNKNOWN)
  /\ (forall v, snd (TypeFromValue v) = None <-> fst (TypeFromValue v) <> UNKNOWN)
  /\ (forall dt, snd (StringFromType dt) = None <-> fst (StringFromType dt) <> "").
Proof.
  split; [ | split].
  - intros s. unfold TypeFromString. rewrite inputStringToType_lookup.
    repeat (case_decide; [simpl; split; [discriminate | reflexivity] | ]).
    simpl. split; [discriminate | intros Hne; contradiction Hne; reflexivity].
  - intros v. destruct v; simpl;
      try (split; [discriminate | reflexivity]);
      try (split; [discriminate | intros Hne; contradiction Hne; reflexivity]);
      match goal with
      | |- context [if ?b then _ else _] => destruct b
      end; simpl; split; (discriminate || reflexivity).
  - intros dt. unfold StringFromType. rewrite typeToInputString_lookup.
    repeat (case_decide; [simpl; split; [discriminate | reflexivity] | ]).
    simpl. split; [discriminate | intros Hne; contradiction Hne; reflexivity].
Qed.

Lemma TypeFromValue_integral_float64 (s : bool) (m : positive) (e : Z) :
  (0 <= e \/ (2 ^ (- e) | Zpos m)
   -> TypeFromValue (VFloat64 (S754_finite s m e)) = (INT64, None))
  /\ (~ (0 <= e \/ (2 ^ (- e) | Zpos m))
      -> TypeFromValue (VFloat64 (S754_finite s m e)) = (FLOAT64, None)).
Proof.
  pose proof (Trunc_fixed_finite s m e) as Hfixed.
  assert (Hdiv : e < 0 -> ((2 ^ (- e) | Zpos m) <-> Zpos m mod 2 ^ (- e) = 0)).
  { intros He. symmetry. apply Z.mod_divide.
    apply Z.pow_nonzero; lia. }
  unfold TypeFromValue. cbv zeta.
  destruct (float_eq (Trunc (S754_finite s m e)) (S754_finite s m e)).
  - split; [reflexivity | ]. intros Hnot. exfalso. apply Hnot.
    destruct (proj1 Hfixed eq_refl) as [He | Hm]; [left; exact He | ].
    destruct (Z_le_gt_dec 0 e); [left; assumption | right].
    apply Hdiv; [lia | exact Hm].
  - split; [ | reflexivity]. intros [He | Hm].
    + assert (false = true) by (apply Hfixed; left; exact He). discriminate.
    + destruct (Z_le_gt_dec 0 e) as [He | He].
      * assert (false = true) by (apply Hfixed; left; exact He). discriminate.
      * assert (false = true)
          by (apply Hfixed; right; apply Hdiv; [lia | exact Hm]).
        discriminate.
Qed.

(** X4: a finite [float64] with mantissa [m] and exponent [e] is typed
    INT64 exactly when its value [m * 2^e] is an integer, that is when
    [e] is not negative or [2^(-e)] divides [m]; it is typed FLOAT64
    otherwise, and never gives an error. *)
Theorem TypeFromValue_finite_float64 (s : bool) (m : positive) (e : Z) :
  (0 <= e \/ (2 ^ (- e) | Zpos m)
   -> TypeFromValue (VFloat64 (S754_finite s m e)) = (INT64, None))
  /\ (~ (0 <= e \/ (2 ^ (- e) | Zpos m))
      -> TypeFromValue (VFloat64 (S754_finite s m e)) = (FLOAT64, None)).
Proof. exact (TypeFromValue_integral_float64 s m e). Qed.

Lemma TypeFromValue_finite_float64_witness :
  TypeFromValue (VFloat64 (S754_finite false (3 * 2 ^ 51) (-51))) = (INT64, None)
  /\ TypeFromValue (VFloat64 (S754_finite true (5 * 2 ^ 50) (-51))) = (FLOAT64, None).
Proof.
  split.
  - apply (TypeFromValue_finite_float64 false (3 * 2 ^ 51) (-51)).
    right. exists 3. reflexivity.
  - apply (TypeFromValue_finite_float64 true (5 * 2 ^ 50) (-51)).
    intros [He | [q Hq]]; [lia | ].
    replace (Z.pos (5 * 2 ^ 50)) with 5629499534213120 in Hq by reflexivity.
    replace (2 ^ (- (-51))) with 2251799813685248 in Hq by reflexivity.
    lia.
Defined.

(** X5: the values that are not finite numbers: NaN is typed FLOAT64,
    since it differs from its own truncation; the infinities and the two
    zeros are typed INT64.  The same holds for [float32]. *)
Theorem TypeFromValue_special_floats :
  TypeFromValue (VFloat64 S754_nan) = (FLOAT64, None)
  /\ TypeFromValue (VFloat32 S754_nan) = (FLOAT64, None)
  /\ (forall s, TypeFromValue (VFloat64 (S754_infinity s)) = (INT64, None))
  /\ (forall s, TypeFromValue (VFloat32 (S754_infinity s)) = (INT64, None))
  /\ (forall s, TypeFromValue (VFloat64 (S754_zero s)) = (INT64, None))
  /\ (forall s, TypeFromValue (VFloat32 (S754_zero s)) = (INT64, None)).
Proof. repeat split; intros []; reflexivity. Qed.

(** Shifting a mantissa left by [d] bits adds [d] digits. *)
Lemma digits2_pos_iter_xO (m d : positive) :
  digits2_pos (Pos.iter xO m d) = (digits2_pos m + d)%positive.
Proof.
  induction d as [ | d IH] using Pos.peano_ind.
  - simpl. lia.
  - rewrite Pos.iter_succ. simpl. rewrite IH. lia.
Qed.

(** ... and multiplies it by [2^d]. *)
Lemma iter_xO_mul (m d : positive) :
  Zpos (Pos.iter xO m d) = Zpos m * 2 ^ Zpos d.
Proof.
  induction d as [ | d IH] using Pos.peano_ind.
  - simpl. lia.
  - rewrite Pos.iter_succ, Pos2Z.inj_succ, Z.pow_succ_r by lia.
    change (Zpos (Pos.iter xO m d)~0) with (2 * Zpos (Pos.iter xO m d)). lia.
Qed.

(** The conversion of a finite [float32] in canonical form: the mantissa
    is shifted to 53 bits and the exponent lowered as much; the value is
    unchanged. *)
Lemma float64_of_float32_finite (s : bool) (m : positive) (e : Z) :
  bounded 24 128 m e = true ->
  exists d : positive,
    Zpos d = 53 - Zpos (digits2_pos m)
    /\ float64_of_float32 (S754_finite s m e)
       = S754_finite s (Pos.iter xO m d) (e - Zpos d).
Proof.
  unfold bounded, canonical_mantissa, fexp, emin. intros Hb.
  apply andb_prop in Hb. destruct Hb as [Hcanon Hmax].
  apply Z.eqb_eq in Hcanon. apply Z.leb_le in Hmax.
  set (dg := Zpos (digits2_pos m)) in *.
  assert (Hdg : 1 <= dg <= 24) by (unfold dg; lia).
  assert (He : -149 <= e <= 104) by lia.
  destruct (53 - dg) as [ | d | d] eqn:Hd; try lia.
  exists d. split; [reflexivity | ].
  unfold float64_of_float32, binary_round, prec64, emax64.
  fold dg.
  replace (SpecFloat.fexp 53 1024 (dg + e)) with (e - Zpos d)
    by (unfold SpecFloat.fexp, SpecFloat.emin; lia).
  unfold shl_align.
  replace (e - Zpos d - e) with (Zneg d) by lia.
  unfold binary_round_aux, shr_fexp.
  replace (Zdigits2 (Zpos (Pos.iter xO m d))) with 53
    by (simpl; rewrite digits2_pos_iter_xO; fold dg; lia).
  replace (SpecFloat.fexp 53 1024 (53 + (e - Zpos d)) - (e - Zpos d)) with 0
    by (unfold SpecFloat.fexp, SpecFloat.emin; lia).
  simpl shr. cbv iota beta. simpl loc_of_shr_record. simpl round_nearest_even.
  replace (Zdigits2 (Zpos (PosDef.Pos.iter xO m d))) with 53
    by (simpl; rewrite digits2_pos_iter_xO; fold dg; lia).
  replace (SpecFloat.fexp 53 1024 (53 + (e - Zpos d)) - (e - Zpos d)) with 0
    by (unfold SpecFloat.fexp, SpecFloat.emin; lia).
  simpl.
  destruct (Z.leb_spec (e - Zpos d) (1024 - 53)); [reflexivity | lia].
Qed.

(** X6: a finite [float32] in canonical form, with mantissa [m] and
    exponent [e], is typed like the [float64] of the same value: INT64
    exactly when [m * 2^e] is an integer, FLOAT64 otherwise. *)
Theorem TypeFromValue_finite_float32 (s : bool) (m : positive) (e : Z) :
  bounded 24 128 m e = true ->
  (0 <= e \/ (2 ^ (- e) | Zpos m)
   -> TypeFromValue (VFloat32 (S754_finite s m e)) = (INT64, None))
  /\ (~ (0 <= e \/ (2 ^ (- e) | Zpos m))
      -> TypeFromValue (VFloat32 (S754_finite s m e)) = (FLOAT64, None)).
Proof.
  intros Hb.
  destruct (float64_of_float32_finite s m e Hb) as (d & Hd & Hconv).
  unfold TypeFromValue. cbv zeta. rewrite Hconv.
  pose proof (TypeFromValue_integral_float64 s (Pos.iter xO m d) (e - Zpos d)) as H64.
  unfold TypeFromValue in H64. cbv zeta in H64.
  assert (Hiff : (0 <= e \/ (2 ^ (- e) | Zpos m))
                 <-> (0 <= e - Zpos d \/ (2 ^ (- (e - Zpos d)) | Zpos (Pos.iter xO m d)))).
  { rewrite iter_xO_mul.
    destruct (Z_le_gt_dec 0 (e - Zpos d)) as [Hge | Hlt].
    - split; intros _; left; lia.
    - replace (- (e - Zpos d)) with (Zpos d + - e) by lia.
      destruct (Z_le_gt_dec 0 e) as [He | He].
      + split; [intros _; right | intros _; left; exact He].
        exists (Zpos m * 2 ^ e).
        rewrite <- Z.mul_assoc, <- Z.pow_add_r by lia.
        f_equal. f_equal. lia.
      + rewrite Z.pow_add_r by lia.
        split; intros [Hc | [q Hq]]; try lia; right.
        * exists q. rewrite Hq. ring.
        * exists q.
          assert (0 < 2 ^ Zpos d) by (apply Z.pow_pos_nonneg; lia).
          apply (Z.mul_cancel_r _ _ (2 ^ Zpos d)); [lia | ].
          rewrite Hq. ring. }
  split; intros Hc.
  - apply H64, Hiff, Hc.
  - apply H64. intros Hc'. apply Hc, Hiff, Hc'.
Qed.

Lemma TypeFromValue_finite_float32_witness :
  TypeFromValue (VFloat32 (S754_finite false (2 ^ 23) (-20))) = (INT64, None)
  /\ TypeFromValue (VFloat32 (S754_finite false (3 * 2 ^ 22) (-23))) = (FLOAT64, None).
Proof.
  split.
  - apply (TypeFromValue_finite_float32 false (2 ^ 23) (-20)); [reflexivity | ].
    right. exists 8. reflexivity.
  - apply (TypeFromValue_finite_float32 false (3 * 2 ^ 22) (-23)); [reflexivity | ].
    intros [He | [q Hq]]; [lia | ].
    replace (Z.pos (3 * 2 ^ 22)) with 12582912 in Hq by reflexivity.
    replace (2 ^ (- (-23))) with 8388608 in Hq by reflexivity.
    lia.
Defined.

(** X7: [String] tells the five data types apart and is empty on every
    other number. *)
Theorem String_names (dt dt' : DataType) :
  (String dt = "" <-> dt ∉ [UNKNOWN; INT64; FLOAT64; STRING; TIMESTAMP])
  /\ (String dt <> "" -> String dt = String dt' -> dt = dt').
Proof.
  unfold String, UNKNOWN, INT64, FLOAT64, STRING, TIMESTAMP.
  rewrite !elem_of_cons, elem_of_nil.
  destruct (Z.eqb_spec dt 3) as [H3 | H3], (Z.eqb_spec dt 1) as [H1 | H1],
    (Z.eqb_spec dt 2) as [H2 | H2], (Z.eqb_spec dt 4) as [H4 | H4],
    (Z.eqb_spec dt 0) as [H0 | H0]; try lia; subst;
    (split; [split; [intros Hs; try discriminate Hs; lia | intros Hn; try reflexivity; exfalso; lia] | ]);
    intros Hne; try (contradiction Hne; reflexivity);
    destruct (Z.eqb_spec dt' 3) as [? | ?], (Z.eqb_spec dt' 1) as [? | ?],
      (Z.eqb_spec dt' 2) as [? | ?], (Z.eqb_spec dt' 4) as [? | ?],
      (Z.eqb_spec dt' 0) as [? | ?]; try lia; subst;
    intros Hs; try discriminate Hs; reflexivity.
Qed.

Lemma String_names_witness :
  String STRING <> "" /\ String STRING = String 3 /\ STRING = 3.
Proof.
  split; [discriminate | split; [reflexivity | ]].
  apply (String_names STRING 3); [discriminate | reflexivity].
Defined.

End typing_more.

(* ===================================================================== *)
(** * The locking protocol *)
(* ===================================================================== *)

Section protocol_facts.
Context {W : Type} `{!MonitorKeeper W} `{!TableManager W} `{!TableOps}.
Implicit Types (st : State W) (th : TableHelper).

Lemma protocol_run_app ph evs1 evs2 :
  protocol_run ph (evs1 ++ evs2)
  = match protocol_run ph evs1 with
    | Some ph' => protocol_run ph' evs2
    | None => None
    end.
Proof.
  revert ph. induction evs1 as [ | ev evs1 IH]; intros ph; simpl; [reflexivity | ].
  destruct (protocol_step ph ev); [apply IH | reflexivity].
Qed.

Lemma release_step_same lock closer r :
  release_step lock closer lock closer r
  = match r with None => Some Unlocked | Some _ => Some (Releasing lock closer) end.
Proof. unfold release_step. rewrite !Z.eqb_refl. reflexivity. Qed.

Lemma protocol_run_failures lock closer errs rest :
  protocol_run (Releasing lock closer) (unlock_failures lock closer errs ++ rest)
  = protocol_run (Releasing lock closer) rest.
Proof.
  induction errs as [ | e errs IH]; simpl; [reflexivity | ].
  rewrite release_step_same. exact IH.
Qed.

(** A release ends the locked section. *)
Lemma protocol_run_release n th lock closer tableName evs ph :
  (0 < n)%nat ->
  release_events n th lock closer tableName evs ->
  held lock closer ph ->
  protocol_run ph evs = Some Unlocked.
Proof.
  intros Hn (errs & [[-> Hlen] | (e & Hlast & -> & Hlen)]) Hheld.
  - destruct errs as [ | e0 errs]; simpl.
    + destruct Hheld as [-> | ->]; simpl; rewrite release_step_same; reflexivity.
    + assert (Hfirst : protocol_step ph (EUnlock lock closer (Some e0))
                       = Some (Releasing lock closer))
        by (destruct Hheld as [-> | ->]; simpl; apply release_step_same).
      rewrite Hfirst, protocol_run_failures. simpl.
      rewrite release_step_same. reflexivity.
  - destruct errs as [ | e0 errs]; [simpl in Hlen; lia | ]. simpl.
    assert (Hfirst : protocol_step ph (EUnlock lock closer (Some e0))
                     = Some (Releasing lock closer))
      by (destruct Hheld as [-> | ->]; simpl; apply release_step_same).
    rewrite Hfirst, protocol_run_failures. reflexivity.
Qed.

Lemma EnsureTable_locked_protocol th destinationName p db ds diff lock closer
    st r st' :
  EnsureTable_locked th destinationName p db ds diff st = Done r st' ->
  exists evs ph,
    trace st' = trace st ++ evs
    /\ protocol_run (Locked lock closer) evs = Some ph
    /\ held lock closer ph.
Proof.
  unfold EnsureTable_locked, EnsureTable_patch. explore;
    intros Hrun; inversion Hrun; subst; clear Hrun; simpl;
    rewrite <- ?app_assoc; simpl;
    eexists _, _; (split; [reflexivity | ]);
    (split; [reflexivity | ]); unfold held; auto.
Qed.

Lemma getOrCreate_locked_protocol th destinationName dataSchema ds lock closer
    st r st' :
  getOrCreate_locked th destinationName dataSchema ds st = Done r st' ->
  exists evs ph,
    trace st' = trace st ++ evs
    /\ protocol_run (Locked lock closer) evs = Some ph
    /\ held lock closer ph.
Proof.
  unfold getOrCreate_locked. explore;
    intros Hrun; inversion Hrun; subst; clear Hrun; simpl;
    rewrite <- ?app_assoc; simpl;
    eexists _, _; (split; [reflexivity | ]);
    (split; [reflexivity | ]); unfold held; auto.
Qed.

Lemma getOrCreate_protocol th destinationName dataSchema st r st' :
  getOrCreate th destinationName dataSchema st = Done r st' ->
  exists evs, trace st' = trace st ++ evs /\ closed_run r evs.
Proof.
  unfold getOrCreate, mbind at 1, M_bind, load.
  destruct (heap st !! dataSchema) as [ds | ]; [ | discriminate].
  destruct (keeper_Lock destinationName (Name ds) (world st))
    as [[[lock closer] | err] w1] eqn:Hlock;
    (erewrite (bind_Done (W:=W)) by (apply perform_eq; exact Hlock)).
  - intros Hrun. apply defer_unlock_inv in Hrun.
    destruct Hrun as (st1 & released & Hbody & _ & _ & Htr & Hrel).
    apply (getOrCreate_locked_protocol _ _ _ _ lock closer) in Hbody.
    destruct Hbody as (evs & ph & Htr1 & Hrun1 & Hheld). simpl in Htr1.
    exists (ELock destinationName (Name ds) (Ok (lock, closer)) :: evs ++ released).
    split; [rewrite Htr, Htr1, <- !app_assoc; reflexivity | ].
    left. simpl. rewrite protocol_run_app, Hrun1.
    eapply protocol_run_release; [ | exact Hrel | exact Hheld]. lia.
  - intros Hrun. inversion Hrun; subst; clear Hrun. simpl.
    eexists. split; [reflexivity | ]. right. simpl.
    repeat split. discriminate.
Qed.

Lemma EnsureTable_sync_protocol th destinationName dataSchema p st r st' :
  EnsureTable_sync th destinationName dataSchema p st = Done r st' ->
  exists evs, trace st' = trace st ++ evs /\ closed_run r evs.
Proof.
  unfold EnsureTable_sync, mbind at 1, M_bind, load.
  destruct (heap st !! p) as [db | ]; [ | discriminate].
  unfold mbind at 1, M_bind, load.
  destruct (heap st !! dataSchema) as [ds | ]; [ | discriminate].
  destruct (Diff db ds) as [diff | err].
  - destruct (Exists diff); simpl.
    + destruct (keeper_Lock destinationName (Name db) (world st))
        as [[[lock closer] | err] w1] eqn:Hlock;
        (erewrite (bind_Done (W:=W)) by (apply perform_eq; exact Hlock)).
      * intros Hrun. apply defer_unlock_inv in Hrun.
        destruct Hrun as (st1 & released & Hbody & _ & _ & Htr & Hrel).
        apply (EnsureTable_locked_protocol _ _ _ _ _ _ lock closer) in Hbody.
        destruct Hbody as (evs & ph & Htr1 & Hrun1 & Hheld). simpl in Htr1.
        exists (ELock destinationName (Name db) (Ok (lock, closer))
                  :: evs ++ released).
        split; [rewrite Htr, Htr1, <- !app_assoc; reflexivity | ].
        left. simpl. rewrite protocol_run_app, Hrun1.
        eapply protocol_run_release; [ | exact Hrel | exact Hheld]. lia.
      * intros Hrun. inversion Hrun; subst; clear Hrun. simpl.
        eexists. split; [reflexivity | ]. right. simpl.
        repeat split. discriminate.
    + intros Hrun. inversion Hrun; subst; clear Hrun.
      exists []. split; [symmetry; apply app_nil_r | left; reflexivity].
  - intros Hrun. inversion Hrun; subst; clear Hrun.
    exists []. split; [symmetry; apply app_nil_r | left; reflexivity].
Qed.

Lemma EnsureTable_closed_run th destinationName dataSchema st r st' :
  EnsureTable th destinationName dataSchema st = Done r st' ->
  exists evs, trace st' = trace st ++ evs /\ closed_run r evs.
Proof.
  unfold closed_run, EnsureTable, mbind at 1, M_bind, load.
  destruct (heap st !! dataSchema) as [ds0 | ]; [ | discriminate].
  unfold mbind at 1, M_bind, cached.
  destruct (tables st !! Name ds0) as [p | ].
  - apply EnsureTable_sync_protocol.
  - unfold mbind at 1, M_bind.
    destruct (getOrCreate th destinationName dataSchema st)
      as [[[p | ] [err | ]] st1 | | ] eqn:Hcreate; try discriminate;
      apply getOrCreate_protocol in Hcreate;
      destruct Hcreate as (evs1 & Htr1 & Hclosed1).
    + intros Hrun. inversion Hrun; subst; clear Hrun.
      exists evs1. split; [exact Htr1 | ].
      destruct Hclosed1 as [Hok | (Href & _ & _)]; [left; exact Hok | right].
      repeat split; [exact Href | discriminate].
    + destruct Hclosed1 as [Hok | (_ & _ & Hne)]; [ | contradiction Hne; reflexivity].
      unfold mbind at 1, M_bind, load.
      destruct (heap st1 !! p) as [db0 | ]; [ | discriminate].
      unfold mbind at 1, M_bind, cache.
      intros Hrun. apply EnsureTable_sync_protocol in Hrun.
      destruct Hrun as (evs & Htr & Hclosed). simpl in Htr.
      exists (evs1 ++ evs).
      split; [rewrite Htr, Htr1, <- app_assoc; reflexivity | ].
      rewrite protocol_run_app, Hok. exact Hclosed.
    + intros Hrun. inversion Hrun; subst; clear Hrun.
      exists evs1. split; [exact Htr1 | ].
      destruct Hclosed1 as [Hok | (Href & _ & _)]; [left; exact Hok | right].
      repeat split; [exact Href | discriminate].
Qed.

(** X8: the calls of every run of [EnsureTable] that returns follow the
    locking protocol.  The table manager and the version counter are only
    called while the lock is held; the schema and the version are read
    before the table is changed, not after; a locked section creates or
    patches at most once, a successful change is followed at once by
    [IncrementVersion], which is called nowhere else; only the lock held
    is released, and the release is attempted before anything else is
    locked and before the call returns.  A refused lock is the last call,
    and the call then returns an error and no schema. *)
Theorem EnsureTable_follows_protocol th destinationName dataSchema st r st' :
  EnsureTable th destinationName dataSchema st = Done r st' ->
  exists evs,
    trace st' = trace st ++ evs
    /\ (protocol_run Unlocked evs = Some Unlocked
        \/ (protocol_run Unlocked evs = Some Refused
            /\ fst r = None /\ snd r <> None)).
Proof. exact (EnsureTable_closed_run th destinationName dataSchema st r st'). Qed.




End protocol_facts.

(* ===================================================================== *)
(** * The calls of [Store] and [Insert] *)
(* ===================================================================== *)

Section store_protocol.
Context {W : Type} `{!MonitorKeeper W} `{!TableManager W} `{!TableOps}
        `{!PostgresAdapter W} `{!Processor W} `{!Package W}.
Implicit Types (st : State W) (p : Postgres).

Lemma store_run_app b sg evs1 evs2 :
  store_run b sg (evs1 ++ evs2)
  = match store_run b sg evs1 with
    | Some sg' => store_run b sg' evs2
    | None => None
    end.
Proof.
  revert sg. induction evs1 as [ | ev evs1 IH]; intros sg; simpl; [reflexivity | ].
  destruct (store_step b sg ev); [apply IH | reflexivity].
Qed.

(** The calls of the table helper are calls of the schema loop. *)
Lemma store_step_syncing b ph ev ph' :
  protocol_step ph ev = Some ph' ->
  store_step b (Syncing ph) ev = Some (Syncing ph').
Proof.
  intros Hstep.
  destruct ph; destruct ev; simpl in *; try discriminate;
    repeat match goal with
           | r : result _ |- _ => destruct r
           | r : option _ |- _ => destruct r
           | r : (_ * _)%type |- _ => destruct r
           end; simpl in *; try discriminate;
    rewrite ?Hstep; try reflexivity; congruence.
Qed.

Lemma store_run_syncing b evs :
  forall ph ph',
    protocol_run ph evs = Some ph' ->
    store_run b (Syncing ph) evs = Some (Syncing ph').
Proof.
  induction evs as [ | ev evs IH]; intros ph ph' Hrun;
    cbn [store_run protocol_run] in *.
  - congruence.
  - destruct (protocol_step ph ev) as [ph1 | ] eqn:Hstep; [ | discriminate].
    rewrite (store_step_syncing b _ _ _ Hstep). apply IH. exact Hrun.
Qed.

Lemma Store_objects_protocol p tx dataSchema objects :
  forall st e st',
    Store_objects p tx dataSchema objects st = Done e st' ->
    exists evs,
      trace st' = trace st ++ evs
      /\ store_run (breakOnError p) (InTx tx) evs
         = Some (match e with None => InTx tx | Some _ => Aborted end).
Proof.
  induction objects as [ | object rest IH]; intros st e st' Hrun.
  - inversion Hrun; subst. exists [].
    split; [symmetry; apply app_nil_r | reflexivity].
  - simpl in Hrun. unfold mbind, M_bind, load, perform, log in Hrun.
    destruct (heap st !! dataSchema) as [ds | ]; [ | discriminate].
    simpl in Hrun.
    destruct (InsertInTransaction tx ds object (world st)) as [[err | ] w1].
    + destruct (breakOnError p) eqn:Hbreak; simpl in Hrun.
      * destruct (Rollback tx w1) as [rb w2].
        inversion Hrun; subst; clear Hrun. simpl.
        eexists. split; [rewrite <- app_assoc; reflexivity | ].
        simpl. rewrite Z.eqb_refl. simpl. rewrite Z.eqb_refl. reflexivity.
      * apply IH in Hrun.
        destruct Hrun as (evs & Htr & Hrun). simpl in Htr.
        eexists. split; [rewrite Htr, <- !app_assoc; reflexivity | ].
        simpl. rewrite !Z.eqb_refl. exact Hrun.
    + apply IH in Hrun. destruct Hrun as (evs & Htr & Hrun). simpl in Htr.
      eexists. split; [rewrite Htr, <- !app_assoc; reflexivity | ].
      simpl. rewrite !Z.eqb_refl. exact Hrun.
Qed.

Lemma Store_rows_protocol p tx flatData :
  forall st e st',
    Store_rows p tx flatData st = Done e st' ->
    exists evs,
      trace st' = trace st ++ evs
      /\ store_run (breakOnError p) (InTx tx) evs
         = Some (match e with None => InTx tx | Some _ => Aborted end).
Proof.
  induction flatData as [ | fdata rest IH]; intros st e st' Hrun.
  - inversion Hrun; subst. exists [].
    split; [symmetry; apply app_nil_r | reflexivity].
  - simpl in Hrun. unfold mbind at 1, M_bind in Hrun.
    destruct (Store_objects p tx (DataSchema fdata) (GetPayload fdata) st)
      as [[err | ] st1 | | ] eqn:Hobjects; try discriminate;
      apply Store_objects_protocol in Hobjects;
      destruct Hobjects as (evs1 & Htr1 & Hrun1).
    + inversion Hrun; subst; clear Hrun. exists evs1. split; assumption.
    + apply IH in Hrun. destruct Hrun as (evs & Htr & Hrun).
      exists (evs1 ++ evs).
      split; [rewrite Htr, Htr1, <- app_assoc; reflexivity | ].
      rewrite store_run_app, Hrun1. exact Hrun.
Qed.

Lemma Store_tables_protocol p flatData :
  forall st r st',
    Store_tables p flatData st = Done r st' ->
    exists evs sg,
      trace st' = trace st ++ evs
      /\ store_run (breakOnError p) (Syncing Unlocked) evs = Some sg
      /\ ends_at (Syncing Unlocked) (snd r) sg.
Proof.
  induction flatData as [ | fdata rest IH]; intros st r st' Hrun.
  - inversion Hrun; subst. exists [], (Syncing Unlocked).
    split; [symmetry; apply app_nil_r | split; reflexivity].
  - simpl in Hrun. unfold mbind at 1, M_bind in Hrun.
    destruct (EnsureTable (tableHelper p) (Postgres_Name p) (DataSchema fdata) st)
      as [[[dbSchema | ] [err | ]] st1 | | ] eqn:Hensure; try discriminate;
      apply EnsureTable_closed_run in Hensure;
      destruct Hensure as (evs1 & Htr1 & Hclosed); unfold closed_run in Hclosed.
    + inversion Hrun; subst; clear Hrun.
      destruct Hclosed as [Hok | (Href & _ & _)];
        apply (store_run_syncing (breakOnError p)) in Hok || 
        apply (store_run_syncing (breakOnError p)) in Href;
        eexists evs1, _; (split; [exact Htr1 | ]);
        (split; [eassumption | ]); simpl; auto.
    + destruct Hclosed as [Hok | (_ & Hnone & _)]; [ | discriminate Hnone].
      apply (store_run_syncing (breakOnError p)) in Hok.
      unfold mbind, load, perform in Hrun. cbv beta in Hrun.
      destruct (heap st1 !! dbSchema) as [db | ]; [ | discriminate].
      destruct (ApplyDBTyping db fdata (world st1)) as [[rows [err | ]] w2];
        cbv beta iota in Hrun.
      * inversion Hrun; subst; clear Hrun. simpl.
        eexists (evs1 ++ [_]), Aborted.
        split; [rewrite Htr1, <- app_assoc; reflexivity | ].
        split; [rewrite store_run_app, Hok; reflexivity | simpl; auto].
      * match type of Hrun with
        | context [Store_tables p rest ?s] =>
            destruct (Store_tables p rest s) as [[rest' e] st2 | | ] eqn:Hrest;
              try discriminate
        end.
        inversion Hrun; subst; clear Hrun.
        apply IH in Hrest. destruct Hrest as (evs & sg & Htr & Hrun & Hend).
        simpl in Htr, Hend.
        exists (evs1 ++ EApplyDBTyping dbSchema fdata None :: evs), sg.
        split; [rewrite Htr, Htr1, <- !app_assoc; reflexivity | ].
        split; [rewrite store_run_app, Hok; exact Hrun | exact Hend].
    + inversion Hrun; subst; clear Hrun.
      destruct Hclosed as [Hok | (Href & _ & _)];
        apply (store_run_syncing (breakOnError p)) in Hok || 
        apply (store_run_syncing (breakOnError p)) in Href;
        eexists evs1, _; (split; [exact Htr1 | ]);
        (split; [eassumption | ]); simpl; auto.
Qed.

(** X9: the calls of every run of [Store] that returns come in this
    order.  The payload is processed first and once; if that fails
    nothing else is called.  Then tables are ensured, each under the
    locking protocol of the table helper, and rows typed only while no
    lock is held.  At most one transaction is opened, after the last
    table; rows are inserted only in that transaction.  A refused row is
    followed by [Rollback], which ends the calls, when [breakOnError] is
    set, and by one warning otherwise; [Rollback] is called nowhere else.
    The transaction is committed at most once, as the last call.
    [Store] returns a [nil] error exactly when the last call is a commit
    that returned [nil]. *)
Theorem Store_follows_protocol p fileName payload st r st' :
  Store p fileName payload st = Done r st' ->
  exists evs sg,
    trace st' = trace st ++ evs
    /\ store_run (breakOnError p) Start evs = Some sg
    /\ match snd r with
       | None => sg = Committed
       | Some _ => sg = Aborted \/ sg = Syncing Unlocked \/ sg = Syncing Refused
       end.
Proof.
  unfold Store, mbind, M_bind, perform. cbv beta zeta.
  destruct (ProcessFilePayload fileName payload (breakOnError p) (world st))
    as [[flatData | err] w1]; cbv beta iota.
  - match goal with
    | |- context [Store_tables p flatData ?s] =>
        destruct (Store_tables p flatData s) as [[flatData' [err | ]] st1 | | ]
          eqn:Htables; try discriminate;
          apply Store_tables_protocol in Htables;
          destruct Htables as (evs1 & sg1 & Htr1 & Hrun1 & Hend1);
          simpl in Htr1, Hend1
    end.
    + intros Hrun. inversion Hrun; subst; clear Hrun.
      eexists (_ :: evs1), sg1.
      split; [rewrite Htr1, <- app_assoc; reflexivity | ].
      split; [exact Hrun1 | exact Hend1].
    + subst sg1.
      destruct (OpenTx (world st1)) as [[tx | err] w2]; cbv beta iota.
      * match goal with
        | |- context [Store_rows p tx flatData' ?s] =>
            destruct (Store_rows p tx flatData' s) as [[err | ] st2 | | ]
              eqn:Hrows; try discriminate;
              apply Store_rows_protocol in Hrows;
              destruct Hrows as (evs2 & Htr2 & Hrun2); simpl in Htr2
        end.
        -- intros Hrun. inversion Hrun; subst; clear Hrun.
           eexists (_ :: evs1 ++ EOpenTx (Ok tx) :: evs2), Aborted.
           split; [rewrite Htr2, Htr1, <- !app_assoc; reflexivity | ].
           split; [ | simpl; auto].
           simpl. rewrite store_run_app, Hrun1. simpl. exact Hrun2.
        -- destruct (DirectCommit tx (world st2)) as [e w3].
           intros Hrun. inversion Hrun; subst; clear Hrun. simpl.
           eexists (_ :: evs1 ++ EOpenTx (Ok tx) :: evs2 ++ [EDirectCommit tx e]),
             (match e with None => Committed | Some _ => Aborted end).
           split; [rewrite Htr2, Htr1, <- !app_assoc; reflexivity | ].
           split.
           ++ simpl. rewrite store_run_app, Hrun1. simpl.
              rewrite store_run_app, Hrun2. simpl. rewrite Z.eqb_refl.
              destruct e; reflexivity.
           ++ destruct e; simpl; auto.
      * intros Hrun. inversion Hrun; subst; clear Hrun. simpl.
        eexists (_ :: evs1 ++ [EOpenTx (Failed err)]), Aborted.
        split; [rewrite Htr1, <- !app_assoc; reflexivity | ].
        split; [ | simpl; auto].
        simpl. rewrite store_run_app, Hrun1. reflexivity.
  - intros Hrun. inversion Hrun; subst; clear Hrun. simpl.
    eexists [_], Aborted. split; [reflexivity | ]. split; [reflexivity | auto].
Qed.

End store_protocol.

(* ===================================================================== *)
(** * Which schema the typing steps and the inserts are given *)
(* ===================================================================== *)

Section which_schema.
Context {W : Type} `{!MonitorKeeper W} `{!TableManager W} `{!TableOps}
        `{!PostgresAdapter W} `{!Processor W} `{!Package W}.
Implicit Types (st : State W) (p : Postgres).










End which_schema.

(* ===================================================================== *)
(** * [EnsureTable] returns *)
(* ===================================================================== *)

Section returns_facts.
Context {W : Type} `{!MonitorKeeper W} `{!TableManager W} `{!TableOps}.
Implicit Types (st : State W) (th : TableHelper) (h : gmap loc Table) (s : bool).

Lemma runs_returns {A} (m : M W A) st (Q : A -> State W -> Prop) :
  runs true m st Q -> exists r st', m st = Done r st' /\ Q r st'.
Proof.
  unfold runs. destruct (m st) as [r st' | | ];
    [eauto | discriminate | contradiction].
Qed.

Lemma runs_Done {A} s (m : M W A) st (Q : A -> State W -> Prop) r st' :
  runs s m st Q -> m st = Done r st' -> Q r st'.
Proof. unfold runs. intros Hruns Hm. rewrite Hm in Hruns. exact Hruns. Qed.

Lemma runs_ret {A} s (a : A) st (Q : A -> State W -> Prop) :
  Q a st -> runs s (mret a) st Q.
Proof. intros HQ. exact HQ. Qed.

Lemma runs_bind {A B} s (m : M W A) (f : A -> M W B) st
    (Q : B -> State W -> Prop) :
  runs s m st (fun a st1 => runs s (f a) st1 Q) -> runs s (m ≫= f) st Q.
Proof.
  unfold runs, mbind, M_bind. destruct (m st) as [a st1 | | ]; intros Hm; exact Hm.
Qed.

Lemma runs_weaken {A} s (m : M W A) st (Q Q' : A -> State W -> Prop) :
  runs s m st Q -> (forall r st', Q r st' -> Q' r st') -> runs s m st Q'.
Proof.
  unfold runs. destruct (m st) as [r st' | | ]; intros Hm Himp; auto.
Qed.

Lemma runs_perform {A} s (op : W -> A * W) (ev : A -> Event) st
    (Q : A -> State W -> Prop) :
  (forall a w, op (world st) = (a, w) ->
     Q a (mkState (heap st) (tables st) w (trace st ++ [ev a]))) ->
  runs s (perform op ev) st Q.
Proof.
  intros HQ. unfold runs, perform.
  destruct (op (world st)) as [a w] eqn:Hop. auto.
Qed.

Lemma runs_load s p st (Q : Table -> State W -> Prop) :
  is_Some (heap st !! p) ->
  (forall t, heap st !! p = Some t -> Q t st) ->
  runs s (load p) st Q.
Proof.
  intros [t Hp] HQ. unfold runs, load. rewrite Hp. auto.
Qed.

Lemma runs_store s p t st (Q : unit -> State W -> Prop) :
  is_Some (heap st !! p) ->
  Q tt (mkState (<[p := t]> (heap st)) (tables st) (world st) (trace st)) ->
  runs s (store p t) st Q.
Proof.
  intros [t0 Hp] HQ. unfold runs, store. rewrite Hp. exact HQ.
Qed.

Lemma runs_alloc s t st (Q : loc -> State W -> Prop) :
  Q (fresh (dom (heap st)))
    (mkState (<[fresh (dom (heap st)) := t]> (heap st)) (tables st)
       (world st) (trace st)) ->
  runs s (alloc t) st Q.
Proof. intros HQ. exact HQ. Qed.

Lemma runs_cached s name st (Q : option loc -> State W -> Prop) :
  Q (tables st !! name) st -> runs s (cached name) st Q.
Proof. intros HQ. exact HQ. Qed.

Lemma runs_cache s name p st (Q : unit -> State W -> Prop) :
  Q tt (mkState (heap st) (<[name := p]> (tables st)) (world st) (trace st)) ->
  runs s (cache name p) st Q.
Proof. intros HQ. exact HQ. Qed.

Lemma runs_log s (ev : Event) st (Q : unit -> State W -> Prop) :
  Q tt (mkState (heap st) (tables st) (world st) (trace st ++ [ev])) ->
  runs s (log ev) st Q.
Proof. intros HQ. exact HQ. Qed.

(** The release of the lock returns, and leaves heap and cache as the
    body left them. *)
Lemma runs_defer_unlock {A} s th lock closer tableName (body : M W A) st
    (Q : A -> State W -> Prop) :
  runs s body st
    (fun r st1 => forall w evs,
       Q r (mkState (heap st1) (tables st1) w (trace st1 ++ evs))) ->
  runs s (defer (unlock unlock_depth th lock closer tableName 1) body) st Q.
Proof.
  pose proof (defer_unlock_run th lock closer tableName body st) as Hdefer.
  unfold runs. destruct (body st) as [r st1 | | ] eqn:Hbody.
  - destruct Hdefer as (w & evs & Hrun & _). rewrite Hrun. intros HQ. apply HQ.
  - unfold defer, mbind, M_bind. rewrite Hbody. auto.
  - contradiction.
Qed.

(** *** Heaps that grow *)

Lemma grows_refl h : grows h h.
Proof. intros p t Hp. exists t. repeat split; [exact Hp | reflexivity]. Qed.

Lemma grows_trans h1 h2 h3 : grows h1 h2 -> grows h2 h3 -> grows h1 h3.
Proof.
  intros H12 H23 p t Hp.
  destruct (H12 p t Hp) as (t2 & Hp2 & Hn2 & Hc2).
  destruct (H23 p t2 Hp2) as (t3 & Hp3 & Hn3 & Hc3).
  exists t3. split; [exact Hp3 | ]. split; [congruence | ].
  intros k Hk. apply Hc3, Hc2, Hk.
Qed.

Lemma grows_alloc h t : grows h (<[fresh (dom h) := t]> h).
Proof.
  intros p t0 Hp. exists t0. split; [ | split; reflexivity].
  rewrite lookup_insert_ne; [exact Hp | ].
  intros Heq. apply (is_fresh (dom h)). rewrite Heq. apply elem_of_dom. eauto.
Qed.

Lemma grows_store h p t t' :
  h !! p = Some t -> Name t' = Name t ->
  dom (Columns t) ⊆ dom (Columns t') ->
  grows h (<[p := t']> h).
Proof.
  intros Hp Hname Hcols q t0 Hq. destruct (decide (p = q)) as [<- | Hne].
  - exists t'. rewrite lookup_insert_eq. split; [reflexivity | ].
    assert (t0 = t) by congruence. subst t0. split; assumption.
  - exists t0. rewrite lookup_insert_ne by exact Hne.
    split; [exact Hq | split; reflexivity].
Qed.

Lemma grows_is_Some h h' p : grows h h' -> is_Some (h !! p) -> is_Some (h' !! p).
Proof. intros Hg [t Hp]. destruct (Hg p t Hp) as (t' & Hp' & _). eauto. Qed.

Lemma cache_named_grows h h' tb :
  grows h h' -> cache_named h tb -> cache_named h' tb.
Proof.
  intros Hg Hnamed. eapply map_Forall_impl; [exact Hnamed | ].
  simpl. intros n p Hp.
  destruct (h !! p) as [t | ] eqn:Ht; [ | discriminate].
  destruct (Hg p t Ht) as (t' & Hp' & Hname & _).
  rewrite Hp'. simpl in *. congruence.
Qed.

Lemma cache_named_extended h tb tb' :
  cache_named h tb -> cache_extended h tb tb' -> cache_named h tb'.
Proof.
  intros Hnamed [-> | (p & t & Hp & ->)]; [exact Hnamed | ].
  apply map_Forall_insert_2; [rewrite Hp; reflexivity | exact Hnamed].
Qed.

Lemma settled_after st0 st1 r st' :
  tables st1 = tables st0 -> grows (heap st0) (heap st1) ->
  settled st1 r st' -> settled st0 r st'.
Proof.
  intros Htb Hg (Htb' & Hg' & Hret).
  split; [congruence | ]. split; [eapply grows_trans; eassumption | exact Hret].
Qed.

Lemma settled_failed st0 st1 e :
  tables st1 = tables st0 -> grows (heap st0) (heap st1) ->
  settled st0 (None, Some e) st1.
Proof. intros Htb Hg. split; [exact Htb | split; [exact Hg | exact I]]. Qed.

(** *** Allocated maps of columns *)

Lemma careful_insert s h p t :
  careful s h ->
  (s = true -> manager_makes_maps -> is_Some (ColumnsMap t)) ->
  careful s (<[p := t]> h).
Proof.
  intros Hcare Ht Hs. destruct (Hcare Hs) as [Hmanager Hmade].
  split; [exact Hmanager | ].
  apply map_Forall_insert_2; [exact (Ht Hs Hmanager) | exact Hmade].
Qed.

Lemma careful_lookup s h p t :
  careful s h -> h !! p = Some t -> s = true -> is_Some (ColumnsMap t).
Proof. intros Hcare Hp Hs. destruct (Hcare Hs) as [_ Hmade]. exact (Hmade p t Hp). Qed.

(** The loop of the Save step keeps the name and the columns there were;
    it leaves an allocated map allocated. *)
Lemma assign_columns_Some diff t t' :
  assign_columns diff t = Some t' ->
  Name t' = Name t
  /\ dom (Columns t) ⊆ dom (Columns t')
  /\ (is_Some (ColumnsMap t) -> is_Some (ColumnsMap t')).
Proof.
  unfold assign_columns, Columns.
  destruct (ColumnsMap t) as [cols | ] eqn:Hcols.
  - intros Heq. inversion Heq; subst; clear Heq. simpl.
    split; [reflexivity | ]. split; [ | eauto].
    rewrite merge_columns_union, dom_union. apply union_subseteq_r.
  - destruct (decide (diff = ∅)); [ | discriminate].
    intros Heq. inversion Heq; subst; clear Heq. rewrite Hcols.
    split; [reflexivity | split; [reflexivity | auto]].
Qed.

(** *** The parts of [EnsureTable] *)

Lemma EnsureTable_patch_settled s th destinationName p d st :
  is_Some (heap st !! p) ->
  careful s (heap st) ->
  runs s (EnsureTable_patch th destinationName p d) st
    (fun r st' => settled st r st' /\ careful s (heap st')).
Proof.
  intros Hp Hcare. unfold EnsureTable_patch. destruct (negb (Exists d)).
  - apply runs_ret.
    split; [ | exact Hcare].
    split; [reflexivity | split; [apply grows_refl | exact Hp]].
  - apply runs_bind, runs_perform. intros [err | ] w1 _.
    + apply runs_ret. split; [ | exact Hcare].
      apply settled_failed; [reflexivity | apply grows_refl].
    + apply runs_bind, runs_load; [exact Hp | ]. intros db Hdb. simpl in Hdb.
      apply runs_bind, runs_perform. intros [ver | err] w2 _.
      * destruct (assign_columns (Columns d) db) as [db' | ] eqn:Hassign.
        -- destruct (assign_columns_Some _ _ _ Hassign) as (Hname & Hdom & Hmade).
           apply runs_bind, runs_store; [exact Hp | ].
           apply runs_ret. simpl. split; [split; [reflexivity | split] | ].
           ++ eapply grows_store; [exact Hdb | exact Hname | exact Hdom].
           ++ simpl. rewrite lookup_insert_eq. eauto.
           ++ apply careful_insert; [exact Hcare | ]. intros Hs _. simpl.
              apply Hmade. eapply careful_lookup; eassumption.
        -- destruct s; [exfalso | reflexivity].
           rewrite assign_columns_made in Hassign; [discriminate | ].
           eapply careful_lookup; [exact Hcare | exact Hdb | reflexivity].
      * apply runs_ret. split; [ | exact Hcare].
        apply settled_failed; [reflexivity | apply grows_refl].
Qed.

Lemma EnsureTable_locked_settled s th destinationName p db ds d st :
  is_Some (heap st !! p) ->
  careful s (heap st) ->
  runs s (EnsureTable_locked th destinationName p db ds d) st
    (fun r st' => settled st r st' /\ careful s (heap st')).
Proof.
  intros Hp Hcare. unfold EnsureTable_locked.
  apply runs_bind, runs_perform. intros [ver | err] w1 _.
  - destruct (negb (ver =? Version db)).
    + apply runs_bind, runs_perform. intros [fetched | err] w2 Hget.
      * apply runs_bind, runs_alloc.
        assert (Hcare' : careful s (<[fresh (dom (heap st))
                                      := with_Version fetched ver]> (heap st))).
        { apply careful_insert; [exact Hcare | ]. intros _ Hmanager. simpl.
          eapply Hmanager. exact Hget. }
        destruct (Diff (with_Version fetched ver) ds) as [d' | err].
        -- eapply runs_weaken.
           ++ apply EnsureTable_patch_settled; simpl;
                [rewrite lookup_insert_eq; eauto | exact Hcare'].
           ++ intros r st' [Hset Hc]. split; [ | exact Hc]. revert Hset.
              apply settled_after; [reflexivity | apply grows_alloc].
        -- apply runs_ret. split; [ | exact Hcare'].
           apply settled_failed; [reflexivity | apply grows_alloc].
      * apply runs_ret. split; [ | exact Hcare].
        apply settled_failed; [reflexivity | apply grows_refl].
    + eapply runs_weaken.
      * apply EnsureTable_patch_settled; [exact Hp | exact Hcare].
      * intros r st' [Hset Hc]. split; [ | exact Hc]. revert Hset.
        apply settled_after; [reflexivity | apply grows_refl].
  - apply runs_ret. split; [ | exact Hcare].
    apply settled_failed; [reflexivity | apply grows_refl].
Qed.

Lemma getOrCreate_locked_settled s th destinationName dataSchema ds st :
  heap st !! dataSchema = Some ds ->
  careful s (heap st) ->
  runs s (getOrCreate_locked th destinationName dataSchema ds) st
    (fun r st' => settled st r st' /\ careful s (heap st')).
Proof.
  intros Hds Hcare. unfold getOrCreate_locked.
  apply runs_bind, runs_perform. intros [fetched | err] w1 Hget.
  - apply runs_bind, runs_alloc.
    assert (Hcare' : careful s (<[fresh (dom (heap st)) := fetched]> (heap st))).
    { apply careful_insert; [exact Hcare | ]. intros _ Hmanager.
      eapply Hmanager. exact Hget. }
    destruct (negb (Exists fetched)).
    + apply runs_bind, runs_perform. intros [err | ] w2 _.
      * apply runs_ret. split; [ | exact Hcare'].
        apply settled_failed; [reflexivity | apply grows_alloc].
      * apply runs_bind, runs_perform. intros [ver | err] w3 _.
        -- assert (Hds' : <[fresh (dom (heap st)) := fetched]> (heap st)
                          !! dataSchema = Some ds).
           { rewrite lookup_insert_ne; [exact Hds | ].
             eapply fresh_ne. exact Hds. }
           apply runs_bind, runs_store; [simpl; eauto | ].
           apply runs_ret. simpl. split; [split; [reflexivity | split] | ].
           ++ eapply grows_trans; [apply grows_alloc | ].
              eapply grows_store; [exact Hds' | reflexivity | reflexivity].
           ++ simpl. rewrite lookup_insert_eq. eauto.
           ++ apply careful_insert; [exact Hcare' | ]. intros Hs _. simpl.
              eapply careful_lookup; [exact Hcare | exact Hds | exact Hs].
        -- apply runs_ret. split; [ | exact Hcare'].
           apply settled_failed; [reflexivity | apply grows_alloc].
    + apply runs_bind, runs_perform. intros [ver | err] w2 _.
      * apply runs_bind, runs_store;
          [simpl; rewrite lookup_insert_eq; eauto | ].
        apply runs_ret. simpl. split; [split; [reflexivity | split] | ].
        -- eapply grows_trans; [apply grows_alloc | ].
           eapply grows_store;
             [apply lookup_insert_eq | reflexivity | reflexivity].
        -- simpl. rewrite lookup_insert_eq. eauto.
        -- apply careful_insert; [exact Hcare' | ]. intros _ Hmanager. simpl.
           eapply Hmanager. exact Hget.
      * apply runs_ret. split; [ | exact Hcare'].
        apply settled_failed; [reflexivity | apply grows_alloc].
  - apply runs_ret. split; [ | exact Hcare].
    apply settled_failed; [reflexivity | apply grows_refl].
Qed.

Lemma settled_released st0 r st1 w evs :
  settled st0 r st1 ->
  settled st0 r (mkState (heap st1) (tables st1) w (trace st1 ++ evs)).
Proof. intros H0. exact H0. Qed.

Lemma getOrCreate_settled s th destinationName dataSchema st :
  is_Some (heap st !! dataSchema) ->
  careful s (heap st) ->
  runs s (getOrCreate th destinationName dataSchema) st
    (fun r st' => settled st r st' /\ careful s (heap st')).
Proof.
  intros Hds Hcare. unfold getOrCreate.
  apply runs_bind, runs_load; [exact Hds | ]. intros ds Hds'.
  apply runs_bind, runs_perform. intros [[lock closer] | err] w1 _.
  - apply runs_defer_unlock. eapply runs_weaken.
    + apply getOrCreate_locked_settled; [exact Hds' | exact Hcare].
    + intros r st' [Hset Hc] w evs. split; [ | exact Hc].
      apply settled_released.
      revert Hset. apply settled_after; [reflexivity | apply grows_refl].
  - apply runs_ret. split; [ | exact Hcare].
    apply settled_failed; [reflexivity | apply grows_refl].
Qed.

Lemma EnsureTable_sync_settled s th destinationName dataSchema p st :
  is_Some (heap st !! dataSchema) -> is_Some (heap st !! p) ->
  careful s (heap st) ->
  runs s (EnsureTable_sync th destinationName dataSchema p) st
    (fun r st' => settled st r st' /\ careful s (heap st')).
Proof.
  intros Hds Hp Hcare. unfold EnsureTable_sync.
  apply runs_bind, runs_load; [exact Hp | ]. intros db _.
  apply runs_bind, runs_load; [exact Hds | ]. intros ds _.
  destruct (Diff db ds) as [d | err].
  - destruct (negb (Exists d)).
    + apply runs_ret. split; [ | exact Hcare].
      split; [reflexivity | split; [apply grows_refl | exact Hp]].
    + apply runs_bind, runs_perform. intros [[lock closer] | err] w1 _.
      * apply runs_defer_unlock. eapply runs_weaken.
        -- apply EnsureTable_locked_settled; [exact Hp | exact Hcare].
        -- intros r st' [Hset Hc] w evs. split; [ | exact Hc].
           apply settled_released.
           revert Hset. apply settled_after; [reflexivity | apply grows_refl].
      * apply runs_ret. split; [ | exact Hcare].
        apply settled_failed; [reflexivity | apply grows_refl].
  - apply runs_ret. split; [ | exact Hcare].
    apply settled_failed; [reflexivity | apply grows_refl].
Qed.

(** [EnsureTable] returns when the schema asked for is allocated, the
    entry of its name in the cache, if any, points to an object, and the
    maps of columns are allocated; short of the last condition, it returns
    or panics. *)
Lemma EnsureTable_sound s th destinationName dataSchema ds st :
  heap st !! dataSchema = Some ds ->
  (forall p, tables st !! Name ds = Some p -> is_Some (heap st !! p)) ->
  careful s (heap st) ->
  runs s (EnsureTable th destinationName dataSchema) st
    (fun r st' =>
       grows (heap st) (heap st') /\ returned (heap st') r
       /\ cache_extended (heap st') (tables st) (tables st')
       /\ careful s (heap st')).
Proof.
  intros Hds Hcached Hcare. unfold EnsureTable.
  apply runs_bind, runs_load; [eauto | ]. intros ds' Hds'.
  assert (ds' = ds) by congruence. subst ds'.
  apply runs_bind, runs_cached.
  destruct (tables st !! Name ds) as [p | ] eqn:Hc.
  - eapply runs_weaken.
    + apply EnsureTable_sync_settled;
        [eauto | apply Hcached; reflexivity | exact Hcare].
    + intros r st' [(Htb & Hg & Hret) Hc'].
      split; [exact Hg | split; [exact Hret | split; [left; exact Htb | exact Hc']]].
  - apply runs_bind. eapply runs_weaken.
    + apply getOrCreate_settled; [eauto | exact Hcare].
    + intros [[p | ] [err | ]] st1 [(Htb & Hg & Hret) Hc1]; simpl in Hret;
        try contradiction.
      * apply runs_bind, runs_load; [exact Hret | ]. intros db Hdb.
        apply runs_bind, runs_cache.
        eapply runs_weaken.
        -- apply EnsureTable_sync_settled; simpl;
             [eapply grows_is_Some; [exact Hg | eauto] | exact Hret | exact Hc1].
        -- intros r st' [(Htb' & Hg' & Hret') Hc']. simpl in Htb', Hg'.
           split; [eapply grows_trans; eassumption | ].
           split; [exact Hret' | ]. split; [ | exact Hc']. right.
           destruct (Hg' p db Hdb) as (db' & Hdb' & Hname & _).
           exists p, db'. split; [exact Hdb' | ].
           rewrite Htb', Htb, Hname. reflexivity.
      * apply runs_ret.
        split; [exact Hg | split; [exact I | split; [left; exact Htb | exact Hc1]]].
Qed.

(** A run that returns met the conditions of [EnsureTable_sound]. *)
Lemma EnsureTable_Done_sound th destinationName dataSchema st r st' :
  EnsureTable th destinationName dataSchema st = Done r st' ->
  exists ds,
    heap st !! dataSchema = Some ds
    /\ forall p, tables st !! Name ds = Some p -> is_Some (heap st !! p).
Proof.
  unfold EnsureTable, mbind at 1, M_bind, load.
  destruct (heap st !! dataSchema) as [ds | ]; [ | discriminate].
  intros Hrun. exists ds. split; [reflexivity | ]. intros p Hp.
  unfold mbind at 1, cached in Hrun. rewrite Hp in Hrun.
  unfold EnsureTable_sync, mbind at 1, M_bind, load in Hrun.
  destruct (heap st !! p); [eauto | discriminate].
Qed.

(** What every run of [EnsureTable] that returns has done to heap and
    cache. *)
Lemma EnsureTable_Done_grows th destinationName dataSchema st r st' :
  EnsureTable th destinationName dataSchema st = Done r st' ->
  grows (heap st) (heap st') /\ returned (heap st') r
  /\ cache_extended (heap st') (tables st) (tables st').
Proof.
  intros Hrun.
  destruct (EnsureTable_Done_sound _ _ _ _ _ _ Hrun) as (ds & Hds & Hcached).
  assert (Hcare : careful false (heap st)) by (intros Hs; discriminate Hs).
  pose proof (runs_Done _ _ _ _ _ _
                (EnsureTable_sound false th destinationName dataSchema ds st
                   Hds Hcached Hcare) Hrun) as (Hg & Hret & Hext & _).
  split; [exact Hg | split; [exact Hret | exact Hext]].
Qed.

Lemma EnsureTable_named s th destinationName dataSchema st :
  is_Some (heap st !! dataSchema) ->
  cache_named (heap st) (tables st) ->
  careful s (heap st) ->
  runs s (EnsureTable th destinationName dataSchema) st
    (fun r st' =>
       grows (heap st) (heap st') /\ returned (heap st') r
       /\ cache_named (heap st') (tables st')
       /\ careful s (heap st')).
Proof.
  intros [ds Hds] Hnamed Hcare. eapply runs_weaken.
  - apply (EnsureTable_sound s th destinationName dataSchema ds st Hds);
      [ | exact Hcare].
    intros p Hp. specialize (Hnamed _ _ Hp). simpl in Hnamed.
    destruct (heap st !! p); [eauto | discriminate].
  - intros r st' (Hg & Hret & Hext & Hc).
    split; [exact Hg | split; [exact Hret | split; [ | exact Hc]]].
    eapply cache_named_extended; [ | exact Hext].
    eapply cache_named_grows; eassumption.
Qed.

Lemma careful_strict h :
  maps_made h -> manager_makes_maps -> careful true h.
Proof. intros Hmade Hmanager _. split; assumption. Qed.

Lemma strict_maps_made h : careful true h -> maps_made h.
Proof. intros Hcare. exact (proj2 (Hcare eq_refl)). Qed.

(** X10: when the schema asked for is allocated, every entry of the cache
    points to an allocated schema object of the entry's name, and the maps
    of columns are allocated (those of the schema objects, and of the
    schemas that the table manager returns), [EnsureTable] returns: no nil
    pointer is dereferenced, no entry of a nil map is assigned, and the
    release of the lock stops retrying.  It returns either a pointer to an
    allocated schema object and no error, or an error and no pointer; the
    entries of the cache again point to allocated objects of their names,
    and the maps of columns are again allocated. *)
Theorem EnsureTable_returns th destinationName dataSchema st :
  is_Some (heap st !! dataSchema) ->
  cache_named (heap st) (tables st) ->
  maps_made (heap st) ->
  manager_makes_maps ->
  exists r st',
    EnsureTable th destinationName dataSchema st = Done r st'
    /\ match r with
       | (Some p, None) => is_Some (heap st' !! p)
       | (None, Some _) => True
       | _ => False
       end
    /\ cache_named (heap st') (tables st')
    /\ maps_made (heap st').
Proof.
  intros Hds Hnamed Hmade Hmanager.
  destruct (runs_returns _ _ _
              (EnsureTable_named true th destinationName dataSchema st Hds Hnamed
                 (careful_strict _ Hmade Hmanager)))
    as (r & st' & Hrun & _ & Hret & Hnamed' & Hcare').
  exists r, st'. split; [exact Hrun | split; [exact Hret | ]].
  split; [exact Hnamed' | exact (strict_maps_made _ Hcare')].
Qed.

(** X11: a run of [EnsureTable] that returns has removed no schema object
    and renamed none, and has taken no column away from one: every object
    allocated before is allocated after, under the same name and with at
    least the column names it had.  The cache is as it was or has one entry
    set, under the name of the object the entry points to. *)
Theorem EnsureTable_schemas_grow th destinationName dataSchema st r st' :
  EnsureTable th destinationName dataSchema st = Done r st' ->
  (forall p t, heap st !! p = Some t ->
     exists t', heap st' !! p = Some t' /\ Name t' = Name t
                /\ dom (Columns t) ⊆ dom (Columns t'))
  /\ (tables st' = tables st
      \/ exists p t, heap st' !! p = Some t
                     /\ tables st' = <[Name t := p]> (tables st)).
Proof.
  intros Hrun.
  destruct (EnsureTable_Done_grows _ _ _ _ _ _ Hrun) as (Hg & _ & Hext).
  split; [exact Hg | exact Hext].
Qed.

(** X12: whatever state it is called in, a run of [EnsureTable] that
    returns gives either a pointer to an allocated schema object and a
    [nil] error, or a [nil] pointer and an error; never both, never
    neither. *)
Theorem EnsureTable_pointer_or_error th destinationName dataSchema st r st' :
  EnsureTable th destinationName dataSchema st = Done r st' ->
  (exists p, r = (Some p, None) /\ is_Some (heap st' !! p))
  \/ (exists e, r = (None, Some e)).
Proof.
  intros Hrun.
  destruct (EnsureTable_Done_grows _ _ _ _ _ _ Hrun) as (_ & Hret & _).
  destruct r as [[p | ] [e | ]]; simpl in Hret; try contradiction; eauto.
Qed.

End returns_facts.

(* ===================================================================== *)
(** * [Store], [Insert] and [Close] return *)
(* ===================================================================== *)

Section postgres_returns.
Context {W : Type} `{!MonitorKeeper W} `{!TableManager W} `{!TableOps}
        `{!PostgresAdapter W} `{!Processor W} `{!Package W}.
Implicit Types (st : State W) (p : Postgres).

Lemma Store_objects_returns s p tx dataSchema objects :
  forall st,
    is_Some (heap st !! dataSchema) ->
    runs s (Store_objects p tx dataSchema objects) st
      (fun _ st' => heap st' = heap st /\ tables st' = tables st).
Proof.
  induction objects as [ | object rest IH]; intros st Hds; simpl.
  - apply runs_ret. split; reflexivity.
  - apply runs_bind, runs_load; [exact Hds | ]. intros ds _.
    apply runs_bind, runs_perform. intros [err | ] w1 _.
    + destruct (breakOnError p).
      * apply runs_bind, runs_perform. intros rb w2 _.
        apply runs_ret. split; reflexivity.
      * apply runs_bind, runs_log. eapply runs_weaken.
        -- apply IH. exact Hds.
        -- intros e st' Hsame. exact Hsame.
    + eapply runs_weaken.
      * apply IH. exact Hds.
      * intros e st' Hsame. exact Hsame.
Qed.

Lemma Store_rows_returns s p tx flatData :
  forall st,
    Forall (fun fdata => is_Some (heap st !! DataSchema fdata)) flatData ->
    runs s (Store_rows p tx flatData) st
      (fun _ st' => heap st' = heap st /\ tables st' = tables st).
Proof.
  induction flatData as [ | fdata rest IH]; intros st Hall; simpl.
  - apply runs_ret. split; reflexivity.
  - inversion Hall as [ | ? ? Hfd Hrest]; subst.
    apply runs_bind. eapply runs_weaken.
    + apply Store_objects_returns. exact Hfd.
    + intros [err | ] st1 [Hheap Htables]; simpl.
      * apply runs_ret. split; assumption.
      * eapply runs_weaken.
        -- apply IH. rewrite Hheap. exact Hrest.
        -- intros e st' [Hheap' Htables']. split; congruence.
Qed.

Lemma Store_tables_returns s p flatData :
  forall st,
    cache_named (heap st) (tables st) ->
    careful s (heap st) ->
    Forall (fun fdata => is_Some (heap st !! DataSchema fdata)) flatData ->
    runs s (Store_tables p flatData) st
      (fun r st' =>
         cache_named (heap st') (tables st') /\ grows (heap st) (heap st')
         /\ careful s (heap st')
         /\ (snd r = None ->
             Forall (fun fdata => is_Some (heap st' !! DataSchema fdata)) (fst r))).
Proof.
  induction flatData as [ | fdata rest IH]; intros st Hnamed Hcare Hall; simpl.
  - apply runs_ret.
    split; [exact Hnamed | split; [apply grows_refl | ]].
    split; [exact Hcare | intros _; constructor].
  - inversion Hall as [ | ? ? Hfd Hrest]; subst.
    apply runs_bind. eapply runs_weaken.
    + apply EnsureTable_named; [exact Hfd | exact Hnamed | exact Hcare].
    + intros [[dbSchema | ] [err | ]] st1 (Hg & Hret & Hnamed1 & Hcare1);
        simpl in Hret; try contradiction.
      * apply runs_bind, runs_load; [exact Hret | ]. intros db _.
        apply runs_bind, runs_perform. intros [rows [err | ]] w2 _.
        -- apply runs_ret.
           split; [exact Hnamed1 | split; [exact Hg | ]].
           split; [exact Hcare1 | discriminate].
        -- apply runs_bind. eapply runs_weaken.
           ++ apply IH; simpl; [exact Hnamed1 | exact Hcare1 | ].
              eapply Forall_impl; [exact Hrest | ].
              intros fd. simpl. apply grows_is_Some. exact Hg.
           ++ intros [rest' e] st2 (Hnamed2 & Hg2 & Hcare2 & Hall2). simpl in *.
              apply runs_ret. split; [exact Hnamed2 | ].
              split; [eapply grows_trans; eassumption | ].
              split; [exact Hcare2 | ].
              simpl. intros He. constructor; [ | apply Hall2; exact He].
              simpl. eapply grows_is_Some; [exact Hg2 | ].
              eapply grows_is_Some; [exact Hg | exact Hfd].
      * apply runs_ret.
        split; [exact Hnamed1 | split; [exact Hg | ]].
        split; [exact Hcare1 | discriminate].
Qed.

(** X13: [Store] returns, whatever the collaborators answer, when the
    entries of the cache point to allocated schema objects of their names,
    the groups that the processor gives carry allocated schemas, and the
    maps of columns are allocated (those of the schema objects, and of the
    schemas that the table manager returns): no nil pointer is
    dereferenced, no entry of a nil map is assigned.  The count returned is
    the number of lines of the payload when the processing failed, and the
    number of rows of the processed groups in every other case, inserted
    or not.  The cache is left with entries that point to allocated
    objects of their names, and the maps of columns are left allocated. *)
Theorem Store_returns p fileName payload st :
  cache_named (heap st) (tables st) ->
  (forall flatData w,
     ProcessFilePayload fileName payload (breakOnError p) (world st)
     = (Ok flatData, w) ->
     Forall (fun fdata => is_Some (heap st !! DataSchema fdata)) flatData) ->
  maps_made (heap st) ->
  manager_makes_maps ->
  exists r st',
    Store p fileName payload st = Done r st'
    /\ fst r
       = match fst (ProcessFilePayload fileName payload (breakOnError p) (world st))
         with
         | Ok flatData => rowsCount_of flatData
         | Failed _ => linesCount payload
         end
    /\ cache_named (heap st') (tables st')
    /\ maps_made (heap st').
Proof.
  intros Hnamed Hall Hmade Hmanager.
  pose proof (careful_strict _ Hmade Hmanager) as Hcare.
  apply runs_returns.
  unfold Store. apply runs_bind, runs_perform.
  intros [flatData | err] w1 Hprocess; rewrite Hprocess; simpl.
  - apply runs_bind. eapply runs_weaken.
    + apply Store_tables_returns; simpl; [exact Hnamed | exact Hcare | ].
      eapply Hall. exact Hprocess.
    + intros [flatData' [err | ]] st1 (Hnamed1 & _ & Hcare1 & Hall1);
        simpl in Hall1; apply strict_maps_made in Hcare1.
      * apply runs_ret. split; [reflexivity | split; [exact Hnamed1 | exact Hcare1]].
      * apply runs_bind, runs_perform. intros [tx | err] w2 _.
        -- apply runs_bind. eapply runs_weaken.
           ++ apply Store_rows_returns. simpl. apply Hall1. reflexivity.
           ++ intros [err | ] st2 [Hheap Htables]; simpl in Hheap, Htables.
              ** apply runs_ret. split; [reflexivity | ].
                 rewrite Hheap, Htables. split; [exact Hnamed1 | exact Hcare1].
              ** apply runs_bind, runs_perform. intros e w3 _.
                 apply runs_ret. split; [reflexivity | ]. simpl.
                 rewrite Hheap, Htables. split; [exact Hnamed1 | exact Hcare1].
        -- apply runs_ret.
           split; [reflexivity | split; [exact Hnamed1 | exact Hcare1]].
  - apply runs_ret. split; [reflexivity | split; [exact Hnamed | exact Hmade]].
Qed.

(** X14: [Insert] returns, whatever the collaborators answer, when the
    schema given is allocated, the entries of the cache point to allocated
    schema objects of their names, and the maps of columns are allocated
    (those of the schema objects, and of the schemas that the table manager
    returns); the cache and the maps are left so. *)
Theorem Insert_returns p dataSchema fact st :
  is_Some (heap st !! dataSchema) ->
  cache_named (heap st) (tables st) ->
  maps_made (heap st) ->
  manager_makes_maps ->
  exists e st',
    Insert p dataSchema fact st = Done e st'
    /\ cache_named (heap st') (tables st')
    /\ maps_made (heap st').
Proof.
  intros Hds Hnamed Hmade Hmanager.
  pose proof (careful_strict _ Hmade Hmanager) as Hcare.
  apply runs_returns.
  unfold Insert. apply runs_bind. eapply runs_weaken.
  - apply EnsureTable_named; [exact Hds | exact Hnamed | exact Hcare].
  - intros [[dbSchema | ] [err | ]] st1 (Hg & Hret & Hnamed1 & Hcare1);
      simpl in Hret; try contradiction; apply strict_maps_made in Hcare1.
    + apply runs_bind, runs_load; [exact Hret | ]. intros db _.
      apply runs_bind, runs_perform. intros [fact' [err | ]] w2 _.
      * apply runs_ret. split; [exact Hnamed1 | exact Hcare1].
      * apply runs_bind, runs_load;
          [simpl; eapply grows_is_Some; eassumption | ].
        intros ds _. apply runs_perform. intros e w3 _.
        split; [exact Hnamed1 | exact Hcare1].
    + apply runs_ret. split; [exact Hnamed1 | exact Hcare1].
Qed.


(** X16: [Close] always returns, and leaves schema objects and cache
    alone.  It closes the connection first; its error is [nil] exactly
    when that call answered [nil].  The streaming worker is stopped only
    then, once, if there is one, and what its [Close] answers is not
    returned. *)
Theorem Close_returns p st :
  exists e st' stopped,
    Close p st = Done e st'
    /\ heap st' = heap st /\ tables st' = tables st
    /\ trace st'
       = trace st ++ EAdapterClose (fst (adapter_Close (world st))) :: stopped
    /\ (e = None <-> fst (adapter_Close (world st)) = None)
    /\ match fst (adapter_Close (world st)), streamingWorker p with
       | None, Some worker => exists r, stopped = [EWorkerClose worker r]
       | _, _ => stopped = []
       end.
Proof.
  unfold Close, mbind at 1, M_bind, perform at 1.
  destruct (adapter_Close (world st)) as [[err | ] w1]; simpl.
  - eexists _, _, []. split; [reflexivity | ]. simpl.
    repeat split; intros; discriminate.
  - destruct (streamingWorker p) as [worker | ].
    + unfold mbind, perform. simpl.
      destruct (worker_Close worker w1) as [r w2].
      eexists _, _, [EWorkerClose worker r]. split; [reflexivity | ]. simpl.
      rewrite <- app_assoc. repeat split; eauto.
    + eexists _, _, []. split; [reflexivity | ]. simpl. repeat split; eauto.
Qed.

End postgres_returns.

(* ===================================================================== *)
(** * How much the table helper calls *)
(* ===================================================================== *)

Section bounded_calls.
Context {W : Type} `{!MonitorKeeper W} `{!TableManager W} `{!TableOps}.
Implicit Types (st : State W) (th : TableHelper).

Lemma calls_app c evs1 evs2 :
  calls c (evs1 ++ evs2) = (calls c evs1 + calls c evs2)%nat.
Proof. induction evs1 as [ | ev evs1 IH]; simpl; [reflexivity | ]. rewrite IH. lia. Qed.

Lemma calls_unlock_failures c lock closer errs :
  calls c (unlock_failures lock closer errs)
  = match c with CUnlock => length errs | _ => 0%nat end.
Proof.
  induction errs as [ | e errs IH]; simpl.
  - destruct c; reflexivity.
  - rewrite IH. destruct c; reflexivity.
Qed.

Lemma calls_release c th lock closer tableName evs :
  release_events 5 th lock closer tableName evs ->
  (calls c evs <= match c with CUnlock => 5 | _ => 0 end)%nat.
Proof.
  intros (errs & [[-> Hlen] | (e & _ & -> & Hlen)]);
    rewrite calls_app, calls_unlock_failures; destruct c; simpl; lia.
Qed.

(** More fuel than [unlock_depth] changes nothing: the recursion of
    [unlock] is never deeper. *)
Lemma unlock_fuel th lock closer tableName (fuel k : nat) :
  forall retry st,
    (1 <= fuel)%nat -> retry = 6 - Z.of_nat fuel ->
    unlock (fuel + k) th lock closer tableName retry st
    = unlock fuel th lock closer tableName retry st.
Proof.
  induction fuel as [ | fuel IH]; intros retry st Hfuel Hretry; [lia | ].
  cbn [unlock Nat.add]. unfold mbind, M_bind, perform.
  destruct (keeper_Unlock lock closer (world st)) as [[e | ] w]; [ | reflexivity].
  unfold unlockRetryCount. destruct (Z.eqb_spec retry 5) as [Heq | Hne];
    [reflexivity | ].
  apply IH; lia.
Qed.

(** X17: the release of a lock returns after at most [unlockRetryCount]
    attempts, whatever [Unlock] answers: it stops at the first attempt
    that succeeds, and after the fifth failure it logs the error once
    and gives up.  It changes neither schema objects nor the cache, and
    its recursion is never deeper than five. *)
Theorem unlock_gives_up_after_five th lock closer tableName st :
  exists w errs,
    (unlock unlock_depth th lock closer tableName 1 st
     = Done tt (mkState (heap st) (tables st) w
                  (trace st ++ unlock_failures lock closer errs
                   ++ [EUnlock lock closer None]))
     /\ (length errs < 5)%nat
     \/ exists e,
          last errs = Some e /\ length errs = 5%nat
          /\ unlock unlock_depth th lock closer tableName 1 st
             = Done tt (mkState (heap st) (tables st) w
                          (trace st ++ unlock_failures lock closer errs
                           ++ [unlock_given_up th tableName e])))
    /\ forall k,
         unlock (unlock_depth + k) th lock closer tableName 1 st
         = unlock unlock_depth th lock closer tableName 1 st.
Proof.
  destruct (unlock_run th lock closer tableName st)
    as (w & evs & Hrun & errs & [[-> Hlen] | (e & Hlast & -> & Hlen)]).
  - exists w, errs. split; [left; split; assumption | ].
    intros k. apply (unlock_fuel th lock closer tableName 5 k); [lia | reflexivity].
  - exists w, errs. split; [right; exists e; repeat split; assumption | ].
    intros k. apply (unlock_fuel th lock closer tableName 5 k); [lia | reflexivity].
Qed.

Ltac count_calls :=
  unfold one_section; simpl; repeat split; lia.

Lemma EnsureTable_locked_calls th destinationName p db ds diff st r st' :
  EnsureTable_locked th destinationName p db ds diff st = Done r st' ->
  exists evs,
    trace st' = trace st ++ evs
    /\ calls CLock evs = 0%nat /\ calls CUnlock evs = 0%nat
    /\ calls CCreateTable evs = 0%nat
    /\ one_section evs.
Proof.
  unfold EnsureTable_locked, EnsureTable_patch. explore;
    intros Hrun; inversion Hrun; subst; clear Hrun; simpl;
    rewrite <- ?app_assoc; simpl;
    eexists; (split; [reflexivity | ]);
    repeat (split; [reflexivity | ]); count_calls.
Qed.

Lemma getOrCreate_locked_calls th destinationName dataSchema ds st r st' :
  getOrCreate_locked th destinationName dataSchema ds st = Done r st' ->
  exists evs,
    trace st' = trace st ++ evs
    /\ calls CLock evs = 0%nat /\ calls CUnlock evs = 0%nat
    /\ calls CPatchTableSchema evs = 0%nat
    /\ one_section evs.
Proof.
  unfold getOrCreate_locked. explore;
    intros Hrun; inversion Hrun; subst; clear Hrun; simpl;
    rewrite <- ?app_assoc; simpl;
    eexists; (split; [reflexivity | ]);
    repeat (split; [reflexivity | ]); count_calls.
Qed.

Lemma one_section_locked lk locked released :
  calls CLock locked = 0%nat -> calls CUnlock locked = 0%nat ->
  one_section locked ->
  (forall c, calls c released <= match c with CUnlock => 5 | _ => 0 end)%nat ->
  forall destinationName tableName,
    one_section (ELock destinationName tableName lk :: locked ++ released).
Proof.
  intros Hlock Hunlock (_ & _ & Hc & Hp & Hi & Hv & Hs) Hrel dn tn.
  pose proof (Hrel CLock). pose proof (Hrel CUnlock).
  pose proof (Hrel CCreateTable). pose proof (Hrel CPatchTableSchema).
  pose proof (Hrel CIncrementVersion). pose proof (Hrel CGetVersion).
  pose proof (Hrel CGetTableSchema).
  unfold one_section. simpl. rewrite !calls_app. simpl in *.
  repeat split; lia.
Qed.

Lemma one_section_nil : one_section [].
Proof. count_calls. Qed.

Lemma getOrCreate_calls th destinationName dataSchema st r st' :
  getOrCreate th destinationName dataSchema st = Done r st' ->
  exists evs,
    trace st' = trace st ++ evs
    /\ calls CPatchTableSchema evs = 0%nat /\ one_section evs.
Proof.
  unfold getOrCreate, mbind at 1, M_bind, load.
  destruct (heap st !! dataSchema) as [ds | ]; [ | discriminate].
  destruct (keeper_Lock destinationName (Name ds) (world st))
    as [[[lock closer] | err] w1] eqn:Hlock;
    (erewrite (bind_Done (W:=W)) by (apply perform_eq; exact Hlock)).
  - intros Hrun. apply defer_unlock_inv in Hrun.
    destruct Hrun as (st1 & released & Hbody & _ & _ & Htr & Hrel).
    apply getOrCreate_locked_calls in Hbody.
    destruct Hbody as (evs & Htr1 & Hl & Hu & Hp & Hone). simpl in Htr1.
    exists (ELock destinationName (Name ds) (Ok (lock, closer)) :: evs ++ released).
    split; [rewrite Htr, Htr1, <- !app_assoc; reflexivity | ]. split.
    + simpl. rewrite calls_app, Hp.
      pose proof (calls_release CPatchTableSchema _ _ _ _ _ Hrel). simpl in *. lia.
    + apply one_section_locked; try assumption.
      intros c. eapply calls_release. exact Hrel.
  - intros Hrun. inversion Hrun; subst; clear Hrun. simpl.
    eexists. split; [reflexivity | ]. split; [reflexivity | count_calls].
Qed.

Lemma EnsureTable_sync_calls th destinationName dataSchema p st r st' :
  EnsureTable_sync th destinationName dataSchema p st = Done r st' ->
  exists evs,
    trace st' = trace st ++ evs
    /\ calls CCreateTable evs = 0%nat /\ one_section evs.
Proof.
  unfold EnsureTable_sync, mbind at 1, M_bind, load.
  destruct (heap st !! p) as [db | ]; [ | discriminate].
  unfold mbind at 1, M_bind, load.
  destruct (heap st !! dataSchema) as [ds | ]; [ | discriminate].
  destruct (Diff db ds) as [diff | err].
  - destruct (Exists diff); simpl.
    + destruct (keeper_Lock destinationName (Name db) (world st))
        as [[[lock closer] | err] w1] eqn:Hlock;
        (erewrite (bind_Done (W:=W)) by (apply perform_eq; exact Hlock)).
      * intros Hrun. apply defer_unlock_inv in Hrun.
        destruct Hrun as (st1 & released & Hbody & _ & _ & Htr & Hrel).
        apply EnsureTable_locked_calls in Hbody.
        destruct Hbody as (evs & Htr1 & Hl & Hu & Hc & Hone). simpl in Htr1.
        exists (ELock destinationName (Name db) (Ok (lock, closer))
                  :: evs ++ released).
        split; [rewrite Htr, Htr1, <- !app_assoc; reflexivity | ]. split.
        -- simpl. rewrite calls_app, Hc.
           pose proof (calls_release CCreateTable _ _ _ _ _ Hrel). simpl in *. lia.
        -- apply one_section_locked; try assumption.
           intros c. eapply calls_release. exact Hrel.
      * intros Hrun. inversion Hrun; subst; clear Hrun. simpl.
        eexists. split; [reflexivity | ]. split; [reflexivity | count_calls].
    + intros Hrun. inversion Hrun; subst; clear Hrun.
      exists []. split; [symmetry; apply app_nil_r | ].
      split; [reflexivity | apply one_section_nil].
  - intros Hrun. inversion Hrun; subst; clear Hrun.
    exists []. split; [symmetry; apply app_nil_r | ].
    split; [reflexivity | apply one_section_nil].
Qed.

(** X18: what one run of [EnsureTable] that returns can cost.  It takes
    the lock at most twice (once to get or create the table, once to
    patch it), and at most once when the table's name is in the cache.
    It creates the table at most once, and never when the name is in the
    cache; it patches at most once.  It asks at most twice for the
    version, for the stored schema and for an increment of the version,
    and tries at most ten times to release a lock. *)
Theorem EnsureTable_bounded_calls th destinationName dataSchema st r st' :
  EnsureTable th destinationName dataSchema st = Done r st' ->
  exists evs,
    trace st' = trace st ++ evs
    /\ (calls CLock evs <= 2 /\ calls CUnlock evs <= 10
        /\ calls CCreateTable evs <= 1 /\ calls CPatchTableSchema evs <= 1
        /\ calls CIncrementVersion evs <= 2 /\ calls CGetVersion evs <= 2
        /\ calls CGetTableSchema evs <= 2)%nat
    /\ (forall ds, heap st !! dataSchema = Some ds ->
        is_Some (tables st !! Name ds) ->
        (calls CLock evs <= 1 /\ calls CUnlock evs <= 5
         /\ calls CCreateTable evs = 0
         /\ calls CIncrementVersion evs <= 1 /\ calls CGetVersion evs <= 1
         /\ calls CGetTableSchema evs <= 1)%nat).
Proof.
  unfold EnsureTable, mbind at 1, M_bind, load.
  destruct (heap st !! dataSchema) as [ds0 | ]; [ | discriminate].
  unfold mbind at 1, M_bind, cached.
  destruct (tables st !! Name ds0) as [p | ] eqn:Hcache.
  - intros Hrun. apply EnsureTable_sync_calls in Hrun.
    destruct Hrun as (evs & Htr & Hc & Hone). exists evs.
    split; [exact Htr | ]. unfold one_section in Hone. split; [lia | ].
    intros ds _ _. lia.
  - assert (Hmiss : forall evs : list Event,
              forall ds, Some ds0 = Some ds -> is_Some (tables st !! Name ds) ->
                (calls CLock evs <= 1 /\ calls CUnlock evs <= 5
                 /\ calls CCreateTable evs = 0
                 /\ calls CIncrementVersion evs <= 1 /\ calls CGetVersion evs <= 1
                 /\ calls CGetTableSchema evs <= 1)%nat).
    { intros evs ds Hds [q Hq]. congruence. }
    unfold mbind at 1, M_bind.
    destruct (getOrCreate th destinationName dataSchema st)
      as [[[p | ] [err | ]] st1 | | ] eqn:Hcreate; try discriminate;
      apply getOrCreate_calls in Hcreate;
      destruct Hcreate as (evs1 & Htr1 & Hp1 & Hone1); unfold one_section in Hone1.
    + intros Hrun. inversion Hrun; subst; clear Hrun.
      exists evs1. split; [exact Htr1 | ]. split; [lia | apply Hmiss].
    + unfold mbind at 1, M_bind, load.
      destruct (heap st1 !! p) as [db0 | ]; [ | discriminate].
      unfold mbind at 1, M_bind, cache.
      intros Hrun. apply EnsureTable_sync_calls in Hrun.
      destruct Hrun as (evs & Htr & Hc & Hone). simpl in Htr.
      unfold one_section in Hone.
      exists (evs1 ++ evs).
      split; [rewrite Htr, Htr1, <- app_assoc; reflexivity | ].
      split; [rewrite !calls_app; lia | apply Hmiss].
    + intros Hrun. inversion Hrun; subst; clear Hrun.
      exists evs1. split; [exact Htr1 | ]. split; [lia | apply Hmiss].
Qed.

End bounded_calls.

(* ===================================================================== *)
(** * A table that is already at the destination *)
(* ===================================================================== *)

Section adoption.
Context {W : Type} `{!MonitorKeeper W} `{!TableManager W} `{!TableOps}.
Implicit Types (st : State W) (th : TableHelper).

Lemma getOrCreate_locked_adopts th destinationName dataSchema ds st
    fetched w1 ver w2 :
  GetTableSchema (Name ds) (world st) = (Ok fetched, w1) ->
  Exists fetched = true ->
  keeper_GetVersion destinationName (Name fetched) w1 = (Ok ver, w2) ->
  getOrCreate_locked th destinationName dataSchema ds st
  = Done (Some (fresh (dom (heap st))), None)
      (mkState
         (<[fresh (dom (heap st)) := with_Version fetched ver]>
            (<[fresh (dom (heap st)) := fetched]> (heap st)))
         (tables st) w2
         (trace st ++ [EGetTableSchema (Name ds) (Ok fetched);
                       EGetVersion destinationName (Name fetched) (Ok ver)])).
Proof.
  intros Hget Hex Hver. unfold getOrCreate_locked.
  erewrite (bind_Done (W:=W)) by (apply perform_eq; exact Hget). simpl.
  unfold mbind at 1, M_bind, alloc. simpl. rewrite Hex. simpl.
  erewrite (bind_Done (W:=W)) by (apply perform_eq; exact Hver). simpl.
  erewrite (bind_Done (W:=W)) by (eapply store_eq; simpl; apply lookup_insert_eq).
  simpl. rewrite <- !app_assoc. reflexivity.
Qed.

(** X19: when the table is not cached and the destination already has
    it, the get-or-create path creates nothing and increments nothing:
    under the lock it reads the schema, then the version (under the name
    of the schema it read), and releases the lock.  A new schema object,
    the schema read with that version, is cached under the name of the
    schema read; the schema passed in is left as it was.  The rest of
    [EnsureTable] runs with the new object as the destination schema,
    and returns it when the passed schema adds nothing to it. *)
Theorem EnsureTable_adopts_existing th destinationName dataSchema st ds
    lock closer w1 fetched w2 ver w3 :
  heap st !! dataSchema = Some ds ->
  tables st !! Name ds = None ->
  keeper_Lock destinationName (Name ds) (world st) = (Ok (lock, closer), w1) ->
  GetTableSchema (Name ds) w1 = (Ok fetched, w2) ->
  Exists fetched = true ->
  keeper_GetVersion destinationName (Name fetched) w2 = (Ok ver, w3) ->
  exists st' released,
    heap st' = <[fresh (dom (heap st)) := with_Version fetched ver]> (heap st)
    /\ heap st' !! dataSchema = Some ds
    /\ tables st' = <[Name fetched := fresh (dom (heap st))]> (tables st)
    /\ trace st'
       = trace st
         ++ [ELock destinationName (Name ds) (Ok (lock, closer));
             EGetTableSchema (Name ds) (Ok fetched);
             EGetVersion destinationName (Name fetched) (Ok ver)]
         ++ released
    /\ release_events 5 th lock closer (Name ds) released
    /\ EnsureTable th destinationName dataSchema st
       = EnsureTable_sync th destinationName dataSchema (fresh (dom (heap st))) st'
    /\ (forall nodiff,
          Diff (with_Version fetched ver) ds = Ok nodiff ->
          Exists nodiff = false ->
          EnsureTable th destinationName dataSchema st
          = Done (Some (fresh (dom (heap st))), None) st').
Proof.
  intros Hds Hc Hlock Hget Hex Hver.
  pose proof (defer_unlock_run th lock closer (Name ds)
                (getOrCreate_locked th destinationName dataSchema ds)
                (mkState (heap st) (tables st) w1
                   (trace st ++ [ELock destinationName (Name ds)
                                   (Ok (lock, closer))]))) as Hdefer.
  erewrite getOrCreate_locked_adopts in Hdefer by eassumption.
  destruct Hdefer as (w & released & Hrun & Hrel). simpl in Hrun.
  rewrite insert_insert_eq in Hrun.
  assert (Hfresh : fresh (dom (heap st)) <> dataSchema)
    by (eapply fresh_ne; exact Hds).
  assert (Hstart : EnsureTable th destinationName dataSchema st
                   = EnsureTable_sync th destinationName dataSchema
                       (fresh (dom (heap st)))
                       (mkState
                          (<[fresh (dom (heap st)) := with_Version fetched ver]>
                             (heap st))
                          (<[Name fetched := fresh (dom (heap st))]> (tables st)) w
                          (trace st
                           ++ [ELock destinationName (Name ds) (Ok (lock, closer));
                               EGetTableSchema (Name ds) (Ok fetched);
                               EGetVersion destinationName (Name fetched) (Ok ver)]
                           ++ released))).
  { unfold EnsureTable.
    erewrite (bind_Done (W:=W)) by (apply load_eq; exact Hds).
    unfold mbind at 1, M_bind, cached. rewrite Hc.
    unfold getOrCreate at 1.
    erewrite (bind_Done (W:=W)).
    2:{ erewrite (bind_Done (W:=W)) by (apply load_eq; exact Hds).
        erewrite (bind_Done (W:=W)) by (apply perform_eq; exact Hlock).
        exact Hrun. }
    simpl.
    erewrite (bind_Done (W:=W)) by (apply load_eq; simpl; apply lookup_insert_eq).
    unfold mbind at 1, M_bind, cache. simpl. rewrite <- !app_assoc. reflexivity. }
  eexists _, released.
  split; [ | split; [ | split; [ | split; [ | split; [exact Hrel | split;
    [exact Hstart | ]]]]]]; simpl; try reflexivity.
  - rewrite lookup_insert_ne by exact Hfresh. exact Hds.
  - intros nodiff Hdiff Hno. rewrite Hstart. unfold EnsureTable_sync.
    erewrite (bind_Done (W:=W)) by (apply load_eq; simpl; apply lookup_insert_eq).
    erewrite (bind_Done (W:=W))
      by (apply load_eq; simpl; rewrite lookup_insert_ne by exact Hfresh;
          exact Hds).
    rewrite Hdiff, Hno. reflexivity.
Qed.

(** X20: the first [EnsureTable] of a new helper, for an allocated
    schema.  Every run that returns has taken, as its first call, the lock
    on the schema's table name, and leaves at most one entry in the cache,
    for an allocated object and under that object's name.  With the maps
    of columns allocated (those of the schema objects, and of the schemas
    that the table manager returns), the call does return. *)
Theorem NewTableHelper_first_use storageType destinationName dataSchema st ds :
  heap st !! dataSchema = Some ds ->
  (forall r st',
      (th ← NewTableHelper storageType;
       EnsureTable th destinationName dataSchema) st = Done r st' ->
      exists lk rest,
        trace st' = trace st ++ ELock destinationName (Name ds) lk :: rest
        /\ (tables st' = ∅
            \/ exists p t, heap st' !! p = Some t /\ tables st' = {[Name t := p]}))
  /\ (maps_made (heap st) ->
      manager_makes_maps ->
      exists r st' lk rest,
        (th ← NewTableHelper storageType;
         EnsureTable th destinationName dataSchema) st = Done r st'
        /\ trace st' = trace st ++ ELock destinationName (Name ds) lk :: rest
        /\ (tables st' = ∅
            \/ exists p t, heap st' !! p = Some t /\ tables st' = {[Name t := p]})).
Proof.
  intros Hds. unfold mbind at 1 2, M_bind at 1 2, NewTableHelper.
  set (st0 := mkState (heap st) ∅ (world st) (trace st)).
  assert (Hnone : forall p, tables st0 !! Name ds = Some p -> is_Some (heap st0 !! p)).
  { intros p Hp. simpl in Hp. rewrite lookup_empty in Hp. discriminate. }
  assert (Hpartial : forall r st',
             EnsureTable (mkTableHelper storageType) destinationName dataSchema st0
             = Done r st' ->
             exists lk rest,
               trace st' = trace st ++ ELock destinationName (Name ds) lk :: rest
               /\ (tables st' = ∅
                   \/ exists p t, heap st' !! p = Some t
                                  /\ tables st' = {[Name t := p]})).
  { intros r st' Hrun.
    destruct (EnsureTable_Done_grows _ _ _ _ _ _ Hrun) as (_ & _ & Hext).
    assert (Hfirst : exists lk rest,
               trace st' = trace st ++ ELock destinationName (Name ds) lk :: rest).
    { revert Hrun. unfold EnsureTable.
      erewrite (bind_Done (W:=W)) by (apply load_eq; exact Hds).
      unfold mbind at 1, M_bind, cached. simpl. rewrite lookup_empty.
      unfold mbind at 1, M_bind.
      destruct (getOrCreate (mkTableHelper storageType) destinationName
                  dataSchema st0) as [r1 st1 | | ] eqn:Hcreate; try discriminate.
      assert (Hlocked : exists lk rest,
                 trace st1 = trace st ++ ELock destinationName (Name ds) lk :: rest).
      { revert Hcreate. unfold getOrCreate.
        erewrite (bind_Done (W:=W)) by (apply load_eq; exact Hds).
        destruct (keeper_Lock destinationName (Name ds) (world st0))
          as [[[lock closer] | err] w1] eqn:Hlock;
          (erewrite (bind_Done (W:=W)) by (apply perform_eq; exact Hlock)).
        - intros Hrun. apply defer_unlock_inv in Hrun.
          destruct Hrun as (st2 & released & Hbody & _ & _ & Htr & _).
          apply (getOrCreate_locked_protocol _ _ _ _ lock closer) in Hbody.
          destruct Hbody as (evs & _ & Htr2 & _). simpl in Htr2.
          exists (Ok (lock, closer)), (evs ++ released).
          rewrite Htr, Htr2, <- !app_assoc. reflexivity.
        - intros Hrun. inversion Hrun; subst; clear Hrun. simpl. eauto. }
      destruct Hlocked as (lk & rest & Htr1).
      destruct r1 as [[p | ] [err | ]]; try discriminate.
      - intros Hrun. inversion Hrun; subst. eauto.
      - unfold mbind at 1, M_bind, load.
        destruct (heap st1 !! p) as [db | ]; [ | discriminate].
        unfold mbind at 1, M_bind, cache.
        intros Hrun. apply EnsureTable_sync_protocol in Hrun.
        destruct Hrun as (evs & Htr & _). simpl in Htr.
        exists lk, (rest ++ evs). rewrite Htr, Htr1, <- app_assoc. reflexivity.
      - intros Hrun. inversion Hrun; subst. eauto. }
    destruct Hfirst as (lk & rest & Htr). exists lk, rest.
    split; [exact Htr | ].
    destruct Hext as [Hsame | (p & t & Hp & Hins)]; [left; exact Hsame | right].
    exists p, t. split; [exact Hp | exact Hins]. }
  split; [exact Hpartial | ].
  intros Hmade Hmanager.
  destruct (runs_returns _ _ _
              (EnsureTable_sound true (mkTableHelper storageType) destinationName
                 dataSchema ds st0 Hds Hnone (careful_strict _ Hmade Hmanager)))
    as (r & st' & Hrun & _).
  destruct (Hpartial r st' Hrun) as (lk & rest & Htr & Htb).
  exists r, st', lk, rest. split; [exact Hrun | split; [exact Htr | exact Htb]].
Qed.

(** X21: the Save step on a schema object whose map of columns is nil.
    When the cached schema has no map of columns and the diff against the
    desired schema has columns, then, the lock taken, the counter found at
    the cached version, the diff applied at the destination and the
    counter incremented, the first assignment of the loop of lines 103-105
    panics: [EnsureTable] does not return. *)
Theorem EnsureTable_nil_columns_panics th destinationName dataSchema st ds p db
    diff lock closer w1 w2 w3 newVersion w4 :
  heap st !! dataSchema = Some ds ->
  tables st !! Name ds = Some p ->
  heap st !! p = Some db ->
  ColumnsMap db = None ->
  Diff db ds = Ok diff ->
  Exists diff = true ->
  Columns diff <> ∅ ->
  keeper_Lock destinationName (Name db) (world st) = (Ok (lock, closer), w1) ->
  keeper_GetVersion destinationName (Name db) w1 = (Ok (Version db), w2) ->
  PatchTableSchema diff w2 = (None, w3) ->
  keeper_IncrementVersion destinationName (Name db) w3 = (Ok newVersion, w4) ->
  EnsureTable th destinationName dataSchema st = Panic.
Proof.
  intros Hds Hc Hdb Hnil Hdiff Hex Hcols Hlock Hver Hpatch Hinc.
  rewrite (EnsureTable_cached_locks _ _ _ _ _ _ _ _ _ _ _ Hds Hc Hdb Hdiff Hex Hlock).
  unfold defer, mbind at 1, M_bind.
  erewrite EnsureTable_locked_same_version by (simpl; exact Hver).
  erewrite EnsureTable_patch_nil_panics;
    [reflexivity | exact Hex | exact Hpatch | exact Hdb | exact Hnil
     | exact Hcols | exact Hinc].
Qed.

End adoption.

(* ===================================================================== *)
(** * Runs on the in-memory destination *)
(* ===================================================================== *)

Section more_runs.
Import memory.

(** A patch under a coordination service that never releases: lock,
    version, patch, increment, five failed releases and the logged
    line. *)
Lemma EnsureTable_follows_protocol_witness :
  exists r st',
    EnsureTable helper "dest" 1%positive st_stuck = Done r st'
    /\ exists evs,
         trace st' = trace st_stuck ++ evs
         /\ (protocol_run Unlocked evs = Some Unlocked
             \/ (protocol_run Unlocked evs = Some Refused
                 /\ fst r = None /\ snd r <> None)).
Proof.
  assert (Hrun : exists r st', EnsureTable helper "dest" 1%positive st_stuck = Done r st')
    by (vm_compute; eauto).
  destruct Hrun as (r & st' & Hrun). exists r, st'.
  split; [exact Hrun | ].
  exact (EnsureTable_follows_protocol helper "dest" 1%positive st_stuck r st' Hrun).
Defined.

(** The batch with a refused row, [breakOnError] set: the run ends with
    the rollback. *)
Lemma Store_follows_protocol_witness :
  exists r st',
    Store (postgres true None) "file" [] st_batch = Done r st'
    /\ exists evs sg,
         trace st' = trace st_batch ++ evs
         /\ store_run true Start evs = Some sg
         /\ match snd r with
            | None => sg = Committed
            | Some _ => sg = Aborted \/ sg = Syncing Unlocked
                        \/ sg = Syncing Refused
            end.
Proof.
  assert (Hrun : exists r st', Store (postgres true None) "file" [] st_batch = Done r st')
    by (vm_compute; eauto).
  destruct Hrun as (r & st' & Hrun). exists r, st'.
  split; [exact Hrun | ].
  exact (Store_follows_protocol (postgres true None) "file" [] st_batch r st' Hrun).
Defined.

Lemma EnsureTable_returns_witness :
  exists r st',
    EnsureTable helper "dest" 1%positive st_narrow = Done r st'
    /\ match r with
       | (Some p, None) => is_Some (heap st' !! p)
       | (None, Some _) => True
       | _ => False
       end
    /\ cache_named (heap st') (tables st')
    /\ maps_made (heap st').
Proof.
  apply (EnsureTable_returns helper "dest" 1%positive st_narrow).
  - vm_compute. eauto.
  - apply map_Forall_insert_2; [reflexivity | apply map_Forall_empty].
  - repeat (apply map_Forall_insert_2; [simpl; eauto | ]). apply map_Forall_empty.
  - intros n w t w' Hget. injection Hget as <- _. simpl. eauto.
Defined.

Lemma EnsureTable_schemas_grow_witness :
  exists r st',
    EnsureTable helper "dest" 1%positive st_narrow = Done r st'
    /\ (forall p t, heap st_narrow !! p = Some t ->
          exists t', heap st' !! p = Some t' /\ Name t' = Name t
                     /\ dom (Columns t) ⊆ dom (Columns t'))
    /\ (tables st' = tables st_narrow
        \/ exists p t, heap st' !! p = Some t
                       /\ tables st' = <[Name t := p]> (tables st_narrow)).
Proof.
  assert (Hrun : exists r st', EnsureTable helper "dest" 1%positive st_narrow = Done r st')
    by (vm_compute; eauto).
  destruct Hrun as (r & st' & Hrun). exists r, st'.
  split; [exact Hrun | ].
  exact (EnsureTable_schemas_grow helper "dest" 1%positive st_narrow r st' Hrun).
Defined.

Lemma EnsureTable_pointer_or_error_witness :
  exists r st',
    EnsureTable helper "dest" 1%positive st_empty = Done r st'
    /\ ((exists p, r = (Some p, None) /\ is_Some (heap st' !! p))
        \/ (exists e, r = (None, Some e))).
Proof.
  assert (Hrun : exists r st', EnsureTable helper "dest" 1%positive st_empty = Done r st')
    by (vm_compute; eauto).
  destruct Hrun as (r & st' & Hrun). exists r, st'.
  split; [exact Hrun | ].
  exact (EnsureTable_pointer_or_error helper "dest" 1%positive st_empty r st' Hrun).
Defined.

Lemma Store_returns_witness :
  exists r st',
    Store (postgres false None) "file" [] st_batch = Done r st'
    /\ fst r = 5
    /\ cache_named (heap st') (tables st')
    /\ maps_made (heap st').
Proof.
  destruct (Store_returns (postgres false None) "file" [] st_batch)
    as (r & st' & Hrun & Hcount & Hnamed & Hmade).
  - apply map_Forall_insert_2; [reflexivity | apply map_Forall_empty].
  - intros flatData w Hprocess. injection Hprocess as <- <-.
    repeat constructor. vm_compute. eauto.
  - repeat (apply map_Forall_insert_2; [simpl; eauto | ]). apply map_Forall_empty.
  - intros n w t w' Hget. injection Hget as <- _. simpl. eauto.
  - exists r, st'.
    split; [exact Hrun | split; [exact Hcount | split; [exact Hnamed | exact Hmade]]].
Defined.

Lemma Insert_returns_witness :
  exists e st',
    Insert (postgres false None) 1%positive (row 1) st_narrow = Done e st'
    /\ cache_named (heap st') (tables st')
    /\ maps_made (heap st').
Proof.
  apply (Insert_returns (postgres false None) 1%positive (row 1) st_narrow).
  - vm_compute. eauto.
  - apply map_Forall_insert_2; [reflexivity | apply map_Forall_empty].
  - repeat (apply map_Forall_insert_2; [simpl; eauto | ]). apply map_Forall_empty.
  - intros n w t w' Hget. injection Hget as <- _. simpl. eauto.
Defined.


Lemma EnsureTable_bounded_calls_witness :
  exists r st',
    EnsureTable helper "dest" 1%positive st_empty = Done r st'
    /\ exists evs,
         trace st' = trace st_empty ++ evs
         /\ (calls CLock evs <= 2 /\ calls CUnlock evs <= 10
             /\ calls CCreateTable evs <= 1 /\ calls CPatchTableSchema evs <= 1
             /\ calls CIncrementVersion evs <= 2 /\ calls CGetVersion evs <= 2
             /\ calls CGetTableSchema evs <= 2)%nat
         /\ (forall ds, heap st_empty !! 1%positive = Some ds ->
             is_Some (tables st_empty !! Name ds) ->
             (calls CLock evs <= 1 /\ calls CUnlock evs <= 5
              /\ calls CCreateTable evs = 0
              /\ calls CIncrementVersion evs <= 1 /\ calls CGetVersion evs <= 1
              /\ calls CGetTableSchema evs <= 1)%nat).
Proof.
  assert (Hrun : exists r st', EnsureTable helper "dest" 1%positive st_empty = Done r st')
    by (vm_compute; eauto).
  destruct Hrun as (r & st' & Hrun). exists r, st'.
  split; [exact Hrun | ].
  exact (EnsureTable_bounded_calls helper "dest" 1%positive st_empty r st' Hrun).
Defined.

(** The table is at the destination with both columns, at version 3: it
    is adopted behind the pointer [2] and returned. *)
Lemma EnsureTable_adopts_existing_witness :
  exists st' released,
    EnsureTable helper "dest" 1%positive st_present
    = Done (Some 2%positive, None) st'
    /\ heap st' !! 2%positive = Some (table "events" [col_a; col_b] 3)
    /\ heap st' !! 1%positive = Some desired
    /\ tables st' = <["events" := 2%positive]> ∅
    /\ trace st'
       = [ELock "dest" "events" (Ok (1, 1));
          EGetTableSchema "events" (Ok (table "events" [col_a; col_b] 0));
          EGetVersion "dest" "events" (Ok 3)]
         ++ released
    /\ release_events 5 helper 1 1 "events" released.
Proof.
  destruct (fun H1 H2 H3 H4 H5 H6 =>
              EnsureTable_adopts_existing helper "dest" 1%positive st_present
                desired 1 1 (world st_present)
                (table "events" [col_a; col_b] 0) (world st_present)
                3 (world st_present) H1 H2 H3 H4 H5 H6)
    as (st' & released & Hheap & Hds & Htables & Htrace & Hrel & _ & Hreturn);
    try reflexivity.
  exists st', released.
  split; [apply (Hreturn (mkTable "events" ∅ 0)); reflexivity | ].
  split; [rewrite Hheap; reflexivity | ].
  split; [exact Hds | ].
  split; [exact Htables | split; [exact Htrace | exact Hrel]].
Defined.

Lemma NewTableHelper_first_use_witness :
  exists r st' lk rest,
    (th ← NewTableHelper "postgres"; EnsureTable th "dest" 1%positive) st_narrow
    = Done r st'
    /\ trace st' = trace st_narrow ++ ELock "dest" "events" lk :: rest
    /\ (tables st' = ∅
        \/ exists p t, heap st' !! p = Some t /\ tables st' = {[Name t := p]}).
Proof.
  apply (proj2 (NewTableHelper_first_use "postgres" "dest" 1%positive st_narrow
                  desired ltac:(reflexivity))).
  - repeat (apply map_Forall_insert_2; [simpl; eauto | ]). apply map_Forall_empty.
  - intros n w t w' Hget. injection Hget as <- _. simpl. eauto.
Defined.

(** The cached schema has a nil map of columns and lacks the two desired
    columns: the destination is patched, the counter incremented, and the
    Save step panics. *)
Lemma EnsureTable_nil_columns_panics_witness :
  EnsureTable helper "dest" 1%positive st_nil_columns = Panic.
Proof.
  refine (EnsureTable_nil_columns_panics helper "dest" 1%positive st_nil_columns
            desired 2%positive (Build_Table "events" None 1)
            (mkTable "events" (Columns desired) 0)
            1 1 (world st_nil_columns) (world st_nil_columns)
            _ 2 _ _ _ _ _ _ _ _ _ _ _ _);
    try reflexivity; try (vm_compute; congruence).
Defined.


End more_runs.
